(** * Arcs: CRDT count, refinement ranges, recipe normalisation, reference-mode store

    A shallow embedding of the parts of the Arcs runtime that the
    specification's testable properties talk about:

    - [JsMap], [CRDTCount]: the class [CRDTCount] of
      [src/runtime/crdt/crdt-count.ts], with the tests of
      [src/runtime/crdt/tests/crdt-count-test.ts] as examples; and
      [JsNumberMap], [CRDTCountDouble]: the same class with its numbers as
      IEEE 754 doubles;
    - [Refinement]: the classes [RefinementExpression], [Range] and
      [Segment] that [runtime/ts/recipe/recipe.ts] carries after the recipe;
    - [Recipe]: [Recipe.normalize], [_isValid] and [_findDuplicate] of
      [runtime/ts/recipe/recipe.ts];
    - [ReferenceModeStore]: the waiting queue of the reference-mode store,
      of which the sources hold [ReferenceModeStoreTest.kt];
    - [RuntimeParticle]: the busy counter and the idle promise of the class
      [Particle] of [runtime/ts/particle.ts].

    The definitions come first, module by module; the facts about each
    module follow in a module of the same name with the suffix [Facts], and
    further laws of the code (evaluation and normal forms of refinement
    expressions, what [normalize] keeps, constraints, local names) in
    modules with the suffix [Laws]. *)

From Stdlib Require Import ZArith List String Bool Lia Floats Permutation Sorted.
From Stdlib Require Import DecimalString DecimalNat.
Import ListNotations.

Local Open Scope string_scope.
Local Open Scope list_scope.
Local Open Scope Z_scope.
Local Open Scope bool_scope.

(** ** JavaScript [Map<string, number>]

    A JavaScript [Map] iterates in insertion order, and [merge] below emits
    its operations in the order of that iteration, so the map is an
    association list kept in insertion order: [set] overwrites the value of a
    key that is present in place and appends a key that is absent. *)
Module JsMap.

Definition t := list (string * Z).

Definition empty : t := [].

Fixpoint get (m : t) (k : string) : option Z :=
  match m with
  | [] => None
  | (k', v) :: m' => if String.eqb k' k then Some v else get m' k
  end.

Definition has (m : t) (k : string) : bool :=
  match get m k with Some _ => true | None => false end.

Fixpoint set (m : t) (k : string) (v : Z) : t :=
  match m with
  | [] => [(k, v)]
  | (k', v') :: m' =>
      if String.eqb k' k then (k', v) :: m' else (k', v') :: set m' k v
  end.

Definition keys (m : t) : list string := map fst m.

(** [x || 0] on the result of [Map.get]: [undefined] and [0] both give [0]. *)
Definition orZero (o : option Z) : Z :=
  match o with Some v => v | None => 0 end.

(** Two maps hold the same entries (what a deep comparison of two [Map]s
    looks at: the entries, whatever their order). *)
Definition same (m1 m2 : t) : Prop := forall k, get m1 k = get m2 k.

Fixpoint nodupb (l : list string) : bool :=
  match l with
  | [] => true
  | k :: l' => negb (existsb (String.eqb k) l') && nodupb l'
  end.

Definition optionEqb (a b : option Z) : bool :=
  match a, b with
  | Some x, Some y => x =? y
  | None, None => true
  | _, _ => false
  end.

(** [same], decided on the keys of the two maps. *)
Definition sameb (m1 m2 : t) : bool :=
  forallb (fun k => optionEqb (get m1 k) (get m2 k)) (keys m1 ++ keys m2).

End JsMap.

(** ** [CRDTCount]

    Values and versions are counters, integers in the specification's data
    model: the [number] of the code is [Z] here.  What is stated of this
    model rests on comparisons of counters and on which map is written;
    what rests on the arithmetic of [number] is stated of
    [CRDTCountDouble] below. *)
Module CRDTCount.

Import JsMap.

Record CountData := { values : JsMap.t; version : JsMap.t }.

Record VersionInfo := { from : Z; to : Z }.

Inductive CountOpTypes := Increment | MultiIncrement.

(** [CountOperationImpl]: the two shapes of the tagged union. *)
Inductive CountOperation :=
| OpMultiIncrement (value : Z) (actor : string) (ver : VersionInfo)
| OpIncrement (actor : string) (ver : VersionInfo).

Definition op_type (op : CountOperation) : CountOpTypes :=
  match op with
  | OpMultiIncrement _ _ _ => MultiIncrement
  | OpIncrement _ _ => Increment
  end.

Definition op_actor (op : CountOperation) : string :=
  match op with
  | OpMultiIncrement _ a _ => a
  | OpIncrement a _ => a
  end.

Definition op_version (op : CountOperation) : VersionInfo :=
  match op with
  | OpMultiIncrement _ _ v => v
  | OpIncrement _ v => v
  end.

Definition newMultiIncrement (value : Z) (actor : string) (from to : Z)
  : CountOperation :=
  OpMultiIncrement value actor {| from := from; to := to |}.

Definition newIncrement (actor : string) (from : Z) : CountOperation :=
  OpIncrement actor {| from := from; to := from + 1 |}.

(** [new CRDTCount()]: both maps empty. *)
Definition newCount : CountData :=
  {| values := JsMap.empty; version := JsMap.empty |}.

Definition multiIncrementOp (m : CountData) (value : Z) (actor : string)
  : CountOperation :=
  let from := orZero (get (version m) actor) in
  newMultiIncrement value actor from (from + 1).

Definition incrementOp (m : CountData) (actor : string) : CountOperation :=
  let from := orZero (get (version m) actor) in
  newIncrement actor from.

(** [applyOperation]: the result and the receiver's model afterwards. *)
Definition applyOperation (m : CountData) (op : CountOperation)
  : bool * CountData :=
  let v := op_version op in
  let a := op_actor op in
  if negb (from v =? orZero (get (version m) a)) then (false, m)
  else if to v <=? from v then (false, m)
  else
    match op with
    | OpMultiIncrement value _ _ =>
        if value <? 0 then (false, m)
        else
          let value' := orZero (get (values m) a) + value in
          (true, {| values := set (values m) a value';
                    version := set (version m) a (to v) |})
    | OpIncrement _ _ =>
        let value' := orZero (get (values m) a) + 1 in
        (true, {| values := set (values m) a value';
                  version := set (version m) a (to v) |})
    end.

Definition getData (m : CountData) : CountData := m.

Definition getParticleView (m : CountData) : Z :=
  fold_left (fun prev current => prev + current) (map snd (values m)) 0.

(** *** The heap

    [merge] takes another [CRDTCount] object and reads it through
    [other.getData()], which returns the object's own model and not a copy:
    receiver and argument are two references into one store, and may be the
    same object. *)
Definition loc := nat.

Definition Heap := loc -> CountData.

Definition upd (h : Heap) (l : loc) (m : CountData) : Heap :=
  fun l' => if Nat.eqb l' l then m else h l'.

Definition newHeap : Heap := fun _ => newCount.

(** [obj.applyOperation(op)] on the object at [l]. *)
Definition applyAt (h : Heap) (l : loc) (op : CountOperation) : bool * Heap :=
  let r := applyOperation (h l) op in
  (fst r, upd h l (snd r)).

(** [ops.forEach(op => obj.applyOperation(op))]: the operations in order, each
    on the state the previous one left; the results of the calls are
    collected. *)
Fixpoint applyAll (h : Heap) (l : loc) (ops : list CountOperation)
  : list bool * Heap :=
  match ops with
  | [] => ([], h)
  | op :: ops' =>
      let r := applyAt h l op in
      let rs := applyAll (snd r) l ops' in
      (fst r :: fst rs, snd rs)
  end.

Inductive CRDTError :=
| DivergentVersions
| VersionButNoValue (key : string).

(** How a call of [merge] ends.  [IllTyped] is the one place where the code
    would put [undefined] into a field declared [number]: the operation
    pushed for a key of [this] that has a value and no version.  No model
    that satisfies the class invariant gets there
    ([merge_returns_or_diverges]). *)
Inductive Completion (A : Type) :=
| Normal (a : A)
| Throw (e : CRDTError)
| IllTyped.

Arguments Normal {A} a.
Arguments Throw {A} e.
Arguments IllTyped {A}.

Record MergeChanges := {
  modelChange : list CountOperation;
  otherChange : list CountOperation
}.

(** The first loop, [for (const key of otherRaw.values.keys())].  Both models
    are read from the heap at every iteration, as the code reads them through
    its two references.  The loop writes to [this] only, and only where the
    value of [other] is larger, so the keys of [other] are those the
    iteration started with. *)
Fixpoint mergeOther (this other : loc) (ks : list string) (h : Heap)
  (thisChanges otherChanges : list CountOperation)
  : Completion MergeChanges * Heap :=
  match ks with
  | [] => (Normal {| modelChange := thisChanges; otherChange := otherChanges |}, h)
  | key :: ks' =>
      let thisValue := orZero (get (values (h this)) key) in
      let otherValue := orZero (get (values (h other)) key) in
      let thisVersion := orZero (get (version (h this)) key) in
      let otherVersion := orZero (get (version (h other)) key) in
      if thisValue >? otherValue then
        if otherVersion >=? thisVersion then (Throw DivergentVersions, h)
        else
          mergeOther this other ks' h thisChanges
            (otherChanges ++
               [newMultiIncrement (thisValue - otherValue) key otherVersion thisVersion])
      else if otherValue >? thisValue then
        if thisVersion >=? otherVersion then (Throw DivergentVersions, h)
        else
          mergeOther this other ks'
            (upd h this {| values := set (values (h this)) key otherValue;
                           version := set (version (h this)) key otherVersion |})
            (thisChanges ++
               [newMultiIncrement (otherValue - thisValue) key thisVersion otherVersion])
            otherChanges
      else mergeOther this other ks' h thisChanges otherChanges
  end.

(** The second loop, [for (const key of this.model.values.keys())]: it writes
    to no model, so it takes the two models as they are when it starts. *)
Fixpoint mergeThis (this other : CountData) (ks : list string)
  (otherChanges : list CountOperation) : Completion (list CountOperation) :=
  match ks with
  | [] => Normal otherChanges
  | key :: ks' =>
      if has (values other) key then mergeThis this other ks' otherChanges
      else if has (version other) key then Throw (VersionButNoValue key)
      else
        match get (values this) key, get (version this) key with
        | Some x, Some v =>
            mergeThis this other ks'
              (otherChanges ++
                 [OpMultiIncrement x key {| from := 0; to := v |}])
        | _, _ => IllTyped
        end
  end.

(** [this.merge(other)]: how the call ends, and the heap it leaves (a thrown
    error leaves what the first loop had already written). *)
Definition merge (h : Heap) (this other : loc)
  : Completion MergeChanges * Heap :=
  match mergeOther this other (keys (values (h other))) h [] [] with
  | (Normal c, h') =>
      match mergeThis (h' this) (h' other) (keys (values (h' this)))
              (otherChange c) with
      | Normal ops =>
          (Normal {| modelChange := modelChange c; otherChange := ops |}, h')
      | Throw e => (Throw e, h')
      | IllTyped => (IllTyped, h')
      end
  | r => r
  end.

(** *** The class invariant

    The model is private: every [CRDTCount] starts from [newCount] and changes
    only through [applyOperation] and [merge].  [wf] is what those keep: the
    keys of a [Map] are distinct, [values] and [version] have the same keys,
    no value is negative and every version is positive. *)
Definition wf (m : CountData) : bool :=
  nodupb (keys (values m)) && nodupb (keys (version m))
  && forallb (fun kv => has (version m) (fst kv) && (0 <=? snd kv)) (values m)
  && forallb (fun kv => has (values m) (fst kv) && (0 <? snd kv)) (version m).

Record WF (m : CountData) : Prop := {
  wf_nodup_values : NoDup (keys (values m));
  wf_nodup_version : NoDup (keys (version m));
  wf_same_keys : forall k, has (values m) k = has (version m) k;
  wf_values_nonneg : forall k v, get (values m) k = Some v -> 0 <= v;
  wf_version_pos : forall k v, get (version m) k = Some v -> 0 < v
}.

(** The heaps a program can build: fresh objects, then calls of
    [applyOperation] and [merge] (a [merge] that throws included: what it
    wrote before stays). *)
Inductive reachable : Heap -> Prop :=
| reach_new : reachable newHeap
| reach_apply h l op :
    reachable h -> reachable (snd (applyAt h l op))
| reach_merge h this other :
    reachable h -> reachable (snd (merge h this other)).

(** The value and the version a replica holds for an actor ([0] when the
    actor is absent). *)
Definition valueOf (m : CountData) (a : string) : Z := orZero (get (values m) a).
Definition versionOf (m : CountData) (a : string) : Z := orZero (get (version m) a).

(** Two models hold the same data: the same entries in [values] and the same
    entries in [version]. *)
Definition sameData (m1 m2 : CountData) : Prop :=
  same (values m1) (values m2) /\ same (version m1) (version m2).

(** What [applyOperation] checks before it writes: the operation starts at
    the version the model has for its actor, it moves the version forward,
    and a multi-increment does not carry a negative value. *)
Definition accepted (m : CountData) (op : CountOperation) : Prop :=
  from (op_version op) = versionOf m (op_actor op)
  /\ to (op_version op) > from (op_version op)
  /\ match op with
     | OpMultiIncrement value _ _ => 0 <= value
     | OpIncrement _ _ => True
     end.

(** The amount an operation adds: its value, or 1 for an increment. *)
Definition amount (op : CountOperation) : Z :=
  match op with
  | OpMultiIncrement value _ _ => value
  | OpIncrement _ _ => 1
  end.

(** The model [applyOperation] leaves when it succeeds. *)
Definition applied (m : CountData) (op : CountOperation) : CountData :=
  {| values := set (values m) (op_actor op) (valueOf m (op_actor op) + amount op);
     version := set (version m) (op_actor op) (to (op_version op)) |}.


(** [this.merge(other)], then every operation of the returned [otherChange]
    applied in order to [other]: the results of the calls, and the heap. *)
Definition mergeAndForward (h : Heap) (this other : loc)
  : Completion (list bool) * Heap :=
  match merge h this other with
  | (Normal c, h') =>
      let r := applyAll h' other (otherChange c) in (Normal (fst r), snd r)
  | (Throw e, h') => (Throw e, h')
  | (IllTyped, h') => (IllTyped, h')
  end.

(** Two fresh replicas, at [0] and at [1], after one operation each. *)
Definition twoReplicas (opX opY : CountOperation) : Heap :=
  snd (applyAt (snd (applyAt newHeap 0%nat opX)) 1%nat opY).


(** The same amount from the same actor, to version 2 on one replica and to
    version 1 on the other. *)
Definition heapEqualValues : Heap :=
  twoReplicas (newMultiIncrement 5 "me" 0 2) (newMultiIncrement 5 "me" 0 1).

(** A fresh replica, and a replica that has applied one multi-increment of 0. *)
Definition heapZeroValue : Heap :=
  snd (applyAt newHeap 1%nat (newMultiIncrement 0 "me" 0 1)).

(** An increment applied once. *)
Definition countAfterIncrement : CountData :=
  snd (applyOperation newCount (incrementOp newCount "me")).

(** The operation [merge] emits for an actor on which the receiver [x] is
    ahead of the argument [y], and the operations it emits over a list of
    keys of [y]. *)
Definition liftOp (x y : CountData) (k : string) : CountOperation :=
  newMultiIncrement (valueOf x k - valueOf y k) k (versionOf y k) (versionOf x k).

Definition liftOps (x y : CountData) (ks : list string) : list CountOperation :=
  flat_map (fun k => if valueOf x k >? valueOf y k then [liftOp x y k] else []) ks.

(** [sameData], decided. *)
Definition sameDatab (m1 m2 : CountData) : bool :=
  sameb (values m1) (values m2) && sameb (version m1) (version m2).

(** 'merges two models with counts from the multiple actors'. *)
Definition heapMultipleActors : Heap :=
  snd (applyAll
         (snd (applyAll newHeap 0%nat
                 [newMultiIncrement 6 "a" 0 1; newMultiIncrement 12 "c" 0 2;
                  newMultiIncrement 22 "d" 0 1; newMultiIncrement 4 "e" 0 1]))
         1%nat
         [newMultiIncrement 5 "b" 0 1; newMultiIncrement 9 "c" 0 1;
          newMultiIncrement 22 "d" 0 1; newMultiIncrement 14 "e" 0 2]).

End CRDTCount.

(** ** [CRDTCount], the numbers as doubles

    A JavaScript [number] is an IEEE 754 double.  [CRDTCount] above reads
    the counters as integers, which is what comparisons of counters need.
    Where a statement depends on what [+] and [-] give, or on a number
    that is no counter (NaN, a fraction, 2^53 and beyond), it is made of
    the model below, which is the same code with [number] as [float]:
    [===], [<], [<=] are the comparisons of IEEE 754, false on NaN, and
    [x || 0] gives 0 for [undefined], 0, -0 and NaN. *)
Module JsNumberMap.

Definition t := list (string * float).

Definition empty : t := [].

Fixpoint get (m : t) (k : string) : option float :=
  match m with
  | [] => None
  | (k', v) :: m' => if String.eqb k' k then Some v else get m' k
  end.

Definition has (m : t) (k : string) : bool :=
  match get m k with Some _ => true | None => false end.

Fixpoint set (m : t) (k : string) (v : float) : t :=
  match m with
  | [] => [(k, v)]
  | (k', v') :: m' =>
      if String.eqb k' k then (k', v) :: m' else (k', v') :: set m' k v
  end.

Definition keys (m : t) : list string := map fst m.

(** The numbers that count as false: [0], [-0] and [NaN]. *)
Definition falsy (x : float) : bool := PrimFloat.eqb x 0 || is_nan x.

(** [x || 0] on the result of [Map.get]: [undefined], [0], [-0] and [NaN]
    all give [0]. *)
Definition orZero (o : option float) : float :=
  match o with
  | Some v => if falsy v then 0%float else v
  | None => 0%float
  end.

End JsNumberMap.

Module CRDTCountDouble.

Import JsNumberMap.

Record CountData := { values : JsNumberMap.t; version : JsNumberMap.t }.

Record VersionInfo := { from : float; to : float }.

Inductive CountOperation :=
| OpMultiIncrement (value : float) (actor : string) (ver : VersionInfo)
| OpIncrement (actor : string) (ver : VersionInfo).

Definition op_actor (op : CountOperation) : string :=
  match op with
  | OpMultiIncrement _ a _ => a
  | OpIncrement a _ => a
  end.

Definition op_version (op : CountOperation) : VersionInfo :=
  match op with
  | OpMultiIncrement _ _ v => v
  | OpIncrement _ v => v
  end.

Definition newMultiIncrement (value : float) (actor : string) (from to : float)
  : CountOperation :=
  OpMultiIncrement value actor {| from := from; to := to |}.

Definition newIncrement (actor : string) (from : float) : CountOperation :=
  OpIncrement actor {| from := from; to := from + 1 |}.

Definition newCount : CountData :=
  {| values := JsNumberMap.empty; version := JsNumberMap.empty |}.

Definition multiIncrementOp (m : CountData) (value : float) (actor : string)
  : CountOperation :=
  let from := orZero (get (version m) actor) in
  newMultiIncrement value actor from (from + 1).

Definition incrementOp (m : CountData) (actor : string) : CountOperation :=
  let from := orZero (get (version m) actor) in
  newIncrement actor from.

(** [applyOperation]: [!==], [<=] and [<] are the comparisons of IEEE 754,
    false whenever an operand is NaN. *)
Definition applyOperation (m : CountData) (op : CountOperation)
  : bool * CountData :=
  let v := op_version op in
  let a := op_actor op in
  if negb (PrimFloat.eqb (from v) (orZero (get (version m) a))) then (false, m)
  else if PrimFloat.leb (to v) (from v) then (false, m)
  else
    match op with
    | OpMultiIncrement value _ _ =>
        if PrimFloat.ltb value 0 then (false, m)
        else
          let value' := (orZero (get (values m) a) + value)%float in
          (true, {| values := set (values m) a value';
                    version := set (version m) a (to v) |})
    | OpIncrement _ _ =>
        let value' := (orZero (get (values m) a) + 1)%float in
        (true, {| values := set (values m) a value';
                  version := set (version m) a (to v) |})
    end.

Definition getParticleView (m : CountData) : float :=
  fold_left (fun prev current => (prev + current)%float) (map snd (values m))
    0%float.

Definition valueOf (m : CountData) (a : string) : float :=
  orZero (get (values m) a).

Definition versionOf (m : CountData) (a : string) : float :=
  orZero (get (version m) a).

Definition amount (op : CountOperation) : float :=
  match op with
  | OpMultiIncrement value _ _ => value
  | OpIncrement _ _ => 1%float
  end.

Definition applied (m : CountData) (op : CountOperation) : CountData :=
  {| values := set (values m) (op_actor op)
                 (valueOf m (op_actor op) + amount op)%float;
     version := set (version m) (op_actor op) (to (op_version op)) |}.


(** *** The heap, and [merge] *)

Definition loc := nat.

Definition Heap := loc -> CountData.

Definition upd (h : Heap) (l : loc) (m : CountData) : Heap :=
  fun l' => if Nat.eqb l' l then m else h l'.

Definition newHeap : Heap := fun _ => newCount.

Definition applyAt (h : Heap) (l : loc) (op : CountOperation) : bool * Heap :=
  let r := applyOperation (h l) op in
  (fst r, upd h l (snd r)).

Inductive CRDTError :=
| DivergentVersions
| VersionButNoValue (key : string).

Inductive Completion (A : Type) :=
| Normal (a : A)
| Throw (e : CRDTError)
| IllTyped.

Arguments Normal {A} a.
Arguments Throw {A} e.
Arguments IllTyped {A}.

Record MergeChanges := {
  modelChange : list CountOperation;
  otherChange : list CountOperation
}.

(** The first loop; [a > b] is [b < a] and [a >= b] is [b <= a]. *)
Fixpoint mergeOther (this other : loc) (ks : list string) (h : Heap)
  (thisChanges otherChanges : list CountOperation)
  : Completion MergeChanges * Heap :=
  match ks with
  | [] => (Normal {| modelChange := thisChanges; otherChange := otherChanges |}, h)
  | key :: ks' =>
      let thisValue := orZero (get (values (h this)) key) in
      let otherValue := orZero (get (values (h other)) key) in
      let thisVersion := orZero (get (version (h this)) key) in
      let otherVersion := orZero (get (version (h other)) key) in
      if PrimFloat.ltb otherValue thisValue then
        if PrimFloat.leb thisVersion otherVersion then (Throw DivergentVersions, h)
        else
          mergeOther this other ks' h thisChanges
            (otherChanges ++
               [newMultiIncrement (thisValue - otherValue) key
                  otherVersion thisVersion])
      else if PrimFloat.ltb thisValue otherValue then
        if PrimFloat.leb otherVersion thisVersion then (Throw DivergentVersions, h)
        else
          mergeOther this other ks'
            (upd h this {| values := set (values (h this)) key otherValue;
                           version := set (version (h this)) key otherVersion |})
            (thisChanges ++
               [newMultiIncrement (otherValue - thisValue) key
                  thisVersion otherVersion])
            otherChanges
      else mergeOther this other ks' h thisChanges otherChanges
  end.

(** The second loop: it writes to no model. *)
Fixpoint mergeThis (this other : CountData) (ks : list string)
  (otherChanges : list CountOperation) : Completion (list CountOperation) :=
  match ks with
  | [] => Normal otherChanges
  | key :: ks' =>
      if has (values other) key then mergeThis this other ks' otherChanges
      else if has (version other) key then Throw (VersionButNoValue key)
      else
        match get (values this) key, get (version this) key with
        | Some x, Some v =>
            mergeThis this other ks'
              (otherChanges ++
                 [OpMultiIncrement x key {| from := 0; to := v |}])
        | _, _ => IllTyped
        end
  end.

Definition merge (h : Heap) (this other : loc)
  : Completion MergeChanges * Heap :=
  match mergeOther this other (keys (values (h other))) h [] [] with
  | (Normal c, h') =>
      match mergeThis (h' this) (h' other) (keys (values (h' this)))
              (otherChange c) with
      | Normal ops =>
          (Normal {| modelChange := modelChange c; otherChange := ops |}, h')
      | Throw e => (Throw e, h')
      | IllTyped => (IllTyped, h')
      end
  | r => r
  end.

(** The heaps a program can build: fresh objects, then calls of
    [applyOperation] and [merge], with whatever operations and whether or
    not a call is refused or throws. *)
Inductive reachable : Heap -> Prop :=
| reach_new : reachable newHeap
| reach_apply h l op :
    reachable h -> reachable (snd (applyAt h l op))
| reach_merge h this other :
    reachable h -> reachable (snd (merge h this other)).

(** What the class keeps of its model: the two maps have the same actors,
    none of them twice; no value is below 0 and no version is 0 or below
    it (each is above, or NaN: the comparisons of the code let a NaN
    through). *)
Record WF (m : CountData) : Prop := {
  wf_nodup_values : NoDup (keys (values m));
  wf_nodup_version : NoDup (keys (version m));
  wf_same_keys : forall k, has (values m) k = has (version m) k;
  wf_values_not_negative :
    forall k x, get (values m) k = Some x -> PrimFloat.ltb x 0 = false;
  wf_version_above_zero :
    forall k v, get (version m) k = Some v -> PrimFloat.leb v 0 = false
}.

(** The model whose version for 'a' is 2^53. *)
Definition saturated : CountData :=
  snd (applyOperation newCount (newMultiIncrement 1 "a" 0 9007199254740992)).

End CRDTCountDouble.

(** ** Refinement expressions, [Range] and [Segment]

    Numbers are JavaScript numbers, that is IEEE 754 doubles: [float]. *)
Module Refinement.

Inductive Op :=
| AND | OR | LT | GT | LTE | GTE | ADD | SUB | MUL | DIV | NOT | NEG | EQ | NEQ.

Inductive EvalType := TBoolean | TNumber | TText.

(** [ExpressionPrimitives]: the values an expression evaluates to.  A
    JavaScript number is an IEEE 754 double. *)
Inductive Prim :=
| PNumber (x : float)
| PBoolean (b : bool)
| PText (s : string).

Definition Op_eqb (a b : Op) : bool :=
  match a, b with
  | AND, AND | OR, OR | LT, LT | GT, GT | LTE, LTE | GTE, GTE | ADD, ADD
  | SUB, SUB | MUL, MUL | DIV, DIV | NOT, NOT | NEG, NEG | EQ, EQ | NEQ, NEQ => true
  | _, _ => false
  end.

Definition EvalType_eqb (a b : EvalType) : bool :=
  match a, b with
  | TBoolean, TBoolean | TNumber, TNumber | TText, TText => true
  | _, _ => false
  end.

(** *** [operatorTable] *)

Inductive ArgType := ArgOf (t : EvalType) | ArgSame.

Definition nArgs (op : Op) : nat :=
  match op with NOT | NEG => 1 | _ => 2 end.

Definition argType (op : Op) : ArgType :=
  match op with
  | AND | OR | NOT => ArgOf TBoolean
  | LT | GT | LTE | GTE | ADD | SUB | MUL | DIV | NEG => ArgOf TNumber
  | EQ | NEQ => ArgSame
  end.

Definition opEvalType (op : Op) : EvalType :=
  match op with
  | ADD | SUB | MUL | DIV | NEG => TNumber
  | _ => TBoolean
  end.

(** [===] on two primitives: no coercion, values of different types differ. *)
Definition strictEq (a b : Prim) : bool :=
  match a, b with
  | PNumber x, PNumber y => PrimFloat.eqb x y
  | PBoolean x, PBoolean y => Bool.eqb x y
  | PText x, PText y => String.eqb x y
  | _, _ => false
  end.

(** [evalFn].  [None] stands for an application outside the operator's
    [argType] (JavaScript would coerce the operands): the constructors below
    validate operand types, so no expression they build folds that way. *)
Definition evalFn (op : Op) (e : list Prim) : option Prim :=
  match op, e with
  | AND, [PBoolean a; PBoolean b] => Some (PBoolean (a && b))
  | OR, [PBoolean a; PBoolean b] => Some (PBoolean (a || b))
  | LT, [PNumber a; PNumber b] => Some (PBoolean (PrimFloat.ltb a b))
  | GT, [PNumber a; PNumber b] => Some (PBoolean (PrimFloat.ltb b a))
  | LTE, [PNumber a; PNumber b] => Some (PBoolean (PrimFloat.leb a b))
  | GTE, [PNumber a; PNumber b] => Some (PBoolean (PrimFloat.leb b a))
  | ADD, [PNumber a; PNumber b] => Some (PNumber (PrimFloat.add a b))
  | SUB, [PNumber a; PNumber b] => Some (PNumber (PrimFloat.sub a b))
  | MUL, [PNumber a; PNumber b] => Some (PNumber (PrimFloat.mul a b))
  | DIV, [PNumber a; PNumber b] => Some (PNumber (PrimFloat.div a b))
  | NOT, [PBoolean a] => Some (PBoolean (negb a))
  | NEG, [PNumber a] => Some (PNumber (PrimFloat.opp a))
  | EQ, [a; b] => Some (PBoolean (strictEq a b))
  | NEQ, [a; b] => Some (PBoolean (negb (strictEq a b)))
  | _, _ => None
  end.

(** [validateOperandCompatibility]: [true] when it does not throw. *)
Definition validateOperandCompatibility (op : Op) (operandTypes : list EvalType)
  : bool :=
  if negb (Nat.eqb (List.length operandTypes) (nArgs op)) then false
  else
    match argType op with
    | ArgSame =>
        match operandTypes with
        | t0 :: t1 :: _ => EvalType_eqb t0 t1
        | _ => false
        end
    | ArgOf t => forallb (fun type => EvalType_eqb type t) operandTypes
    end.

(** *** The syntax tree the manifest parser hands over *)
Inductive RefinementExpressionNode :=
| BinaryExpressionNode (leftExpr rightExpr : RefinementExpressionNode) (operator : Op)
| UnaryExpressionNode (expr : RefinementExpressionNode) (operator : Op)
| FieldNode (value : string)
| NumberNode (value : float)
| BooleanNode (value : bool).

(** *** [RefinementExpression] and its subclasses

    The [evalType] of a binary or unary expression is that of its operator;
    a field carries the type found for it in [typeData]. *)
Inductive RefinementExpression :=
| BinaryExpression (leftExpr rightExpr : RefinementExpression) (operator : Op)
| UnaryExpression (expr : RefinementExpression) (operator : Op)
| FieldNamePrimitive (value : string) (fieldType : EvalType)
| NumberPrimitive (value : float)
| BooleanPrimitive (value : bool).

Definition evalType (e : RefinementExpression) : EvalType :=
  match e with
  | BinaryExpression _ _ op => opEvalType op
  | UnaryExpression _ op => opEvalType op
  | FieldNamePrimitive _ t => t
  | NumberPrimitive _ => TNumber
  | BooleanPrimitive _ => TBoolean
  end.

(** [RefinementExpression.fromAst], with the constructors of the subclasses:
    [None] when one of them throws. *)
Fixpoint fromAst (expr : RefinementExpressionNode)
  (typeData : string -> option EvalType) : option RefinementExpression :=
  match expr with
  | BinaryExpressionNode l r operator =>
      match fromAst l typeData, fromAst r typeData with
      | Some leftExpr, Some rightExpr =>
          if validateOperandCompatibility operator
               [evalType leftExpr; evalType rightExpr]
          then Some (BinaryExpression leftExpr rightExpr operator)
          else None
      | _, _ => None
      end
  | UnaryExpressionNode e operator =>
      match fromAst e typeData with
      | Some expr' =>
          let operator' := if Op_eqb operator SUB then NEG else operator in
          if validateOperandCompatibility operator' [evalType expr']
          then Some (UnaryExpression expr' operator')
          else None
      | None => None
      end
  | FieldNode value =>
      match typeData value with
      | Some t => Some (FieldNamePrimitive value t)
      | None => None
      end
  | NumberNode value => Some (NumberPrimitive value)
  | BooleanNode value => Some (BooleanPrimitive value)
  end.

(** [applyOperator]: [None] when the code throws (a field with no value in
    [data]) or when [evalFn] is applied outside its [argType]. *)
Fixpoint applyOperator (e : RefinementExpression) (data : string -> option Prim)
  : option Prim :=
  match e with
  | BinaryExpression l r op =>
      match applyOperator l data, applyOperator r data with
      | Some leftV, Some rightV => evalFn op [leftV; rightV]
      | _, _ => None
      end
  | UnaryExpression x op =>
      match applyOperator x data with
      | Some expression => evalFn op [expression]
      | None => None
      end
  | FieldNamePrimitive value _ => data value
  | NumberPrimitive value => Some (PNumber value)
  | BooleanPrimitive value => Some (PBoolean value)
  end.

Definition noData : string -> option Prim := fun _ => None.

(** [BooleanPrimitive.fromValue] and [NumberPrimitive.fromValue] on the
    result of a fold. *)
Definition booleanFromValue (v : option Prim) : option RefinementExpression :=
  match v with Some (PBoolean b) => Some (BooleanPrimitive b) | _ => None end.

Definition numberFromValue (v : option Prim) : option RefinementExpression :=
  match v with Some (PNumber x) => Some (NumberPrimitive x) | _ => None end.

(** [swapChildren]: the operator after the two children have changed
    places. *)
Definition swappedOp (op : Op) : Op :=
  match op with
  | LT => GT
  | GT => LT
  | LTE => GTE
  | GTE => LTE
  | _ => op
  end.

(** What a [simplifyPrimitive] gives: nothing to fold ([null]), or the
    primitive the fold makes. *)
Inductive Simplified :=
| NotPrimitive
| Folded (sp : option RefinementExpression).

Definition simplifyPrimitiveBinary (leftExpr rightExpr : RefinementExpression)
  (op : Op) : Simplified :=
  let this := BinaryExpression leftExpr rightExpr op in
  match leftExpr, rightExpr with
  | BooleanPrimitive _, BooleanPrimitive _ =>
      Folded (booleanFromValue (applyOperator this noData))
  | NumberPrimitive _, NumberPrimitive _ =>
      if EvalType_eqb (evalType this) TBoolean
      then Folded (booleanFromValue (applyOperator this noData))
      else Folded (numberFromValue (applyOperator this noData))
  | _, _ => NotPrimitive
  end.

Definition simplifyPrimitiveUnary (expr : RefinementExpression) (op : Op)
  : Simplified :=
  let this := UnaryExpression expr op in
  match expr, op with
  | BooleanPrimitive _, NOT => Folded (booleanFromValue (applyOperator this noData))
  | NumberPrimitive _, NEG => Folded (numberFromValue (applyOperator this noData))
  | _, _ => NotPrimitive
  end.

(** The part of [BinaryExpression.normalise] that follows the normalisation
    of the two children. *)
Definition normaliseBinary (leftExpr rightExpr : RefinementExpression) (op : Op)
  : option RefinementExpression :=
  match simplifyPrimitiveBinary leftExpr rightExpr op with
  | Folded sp => sp
  | NotPrimitive =>
      let '(leftExpr, rightExpr, op) :=
        match rightExpr with
        | FieldNamePrimitive _ _ => (rightExpr, leftExpr, swappedOp op)
        | _ => (leftExpr, rightExpr, op)
        end in
      let this := BinaryExpression leftExpr rightExpr op in
      match op with
      | AND =>
          match leftExpr, rightExpr with
          | BooleanPrimitive value, _ =>
              Some (if value then rightExpr else leftExpr)
          | _, BooleanPrimitive value =>
              Some (if value then leftExpr else rightExpr)
          | _, _ => Some this
          end
      | OR =>
          match leftExpr, rightExpr with
          | BooleanPrimitive value, _ =>
              Some (if value then leftExpr else rightExpr)
          | _, BooleanPrimitive value =>
              Some (if value then rightExpr else leftExpr)
          | _, _ => Some this
          end
      | _ => Some this
      end
  end.

(** The part of [UnaryExpression.normalise] that follows the normalisation
    of the child. *)
Definition normaliseUnary (expr : RefinementExpression) (op : Op)
  : option RefinementExpression :=
  match simplifyPrimitiveUnary expr op with
  | Folded sp => sp
  | NotPrimitive =>
      match op, expr with
      | NOT, UnaryExpression inner NOT => Some inner
      | _, _ => Some (UnaryExpression expr op)
      end
  end.

(** [normalise]: the expression the call returns. *)
Fixpoint normalise (e : RefinementExpression) : option RefinementExpression :=
  match e with
  | BinaryExpression l r op =>
      match normalise l, normalise r with
      | Some leftExpr, Some rightExpr => normaliseBinary leftExpr rightExpr op
      | _, _ => None
      end
  | UnaryExpression x op =>
      match normalise x with
      | Some expr => normaliseUnary expr op
      | None => None
      end
  | _ => Some e
  end.

(** *** [Boundary] and [Segment] *)

Inductive Kind := open | closed.

Definition Kind_eqb (a b : Kind) : bool :=
  match a, b with
  | open, open | closed, closed => true
  | _, _ => false
  end.

Definition flipKind (k : Kind) : Kind :=
  match k with open => closed | closed => open end.

Record Boundary := { val : float; kind : Kind }.

Record Segment := { from : Boundary; to : Boundary }.

Definition bind {A B : Type} (o : option A) (f : A -> option B) : option B :=
  match o with Some a => f a | None => None end.

Notation "x <- c1 ;; c2" := (bind c1 (fun x => c2))
  (at level 61, c1 at next level, right associativity).

Definition isValid (from to : Boundary) : bool :=
  if PrimFloat.ltb (val to) (val from) then false
  else if PrimFloat.eqb (val from) (val to)
          && (Kind_eqb (kind from) open || Kind_eqb (kind to) open) then false
  else true.

(** [new Segment(from, to)]: [None] when the constructor throws. *)
Definition newSegment (from to : Boundary) : option Segment :=
  if negb (isValid from to) then None
  else Some {| from := from; to := to |}.

Definition closedClosed (from to : float) : option Segment :=
  newSegment {| val := from; kind := closed |} {| val := to; kind := closed |}.

Definition openOpen (from to : float) : option Segment :=
  newSegment {| val := from; kind := open |} {| val := to; kind := open |}.

Definition closedOpen (from to : float) : option Segment :=
  newSegment {| val := from; kind := closed |} {| val := to; kind := open |}.

Definition openClosed (from to : float) : option Segment :=
  newSegment {| val := from; kind := open |} {| val := to; kind := closed |}.

Definition segmentEquals (this seg : Segment) : bool :=
  Kind_eqb (kind (from this)) (kind (from seg))
  && PrimFloat.eqb (val (from this)) (val (from seg))
  && Kind_eqb (kind (to this)) (kind (to seg))
  && PrimFloat.eqb (val (to this)) (val (to seg)).

Definition isLessThan (this seg : Segment) (strict : bool) : bool :=
  if PrimFloat.eqb (val (to this)) (val (from seg)) then
    if strict
    then Kind_eqb (kind (to this)) open || Kind_eqb (kind (from seg)) open
    else Kind_eqb (kind (to this)) open && Kind_eqb (kind (from seg)) open
  else PrimFloat.ltb (val (to this)) (val (from seg)).

Definition isGreaterThan (this seg : Segment) (strict : bool) : bool :=
  if PrimFloat.eqb (val (from this)) (val (to seg)) then
    if strict
    then Kind_eqb (kind (from this)) open || Kind_eqb (kind (to seg)) open
    else Kind_eqb (kind (from this)) open && Kind_eqb (kind (to seg)) open
  else PrimFloat.ltb (val (to seg)) (val (from this)).

Definition mergeableWith (this seg : Segment) : bool :=
  negb (isLessThan this seg false) && negb (isGreaterThan this seg false).

Definition overlapsWith (this seg : Segment) : bool :=
  negb (isLessThan this seg true) && negb (isGreaterThan this seg true).

(** [Segment.merge]: at a shared end point the more inclusive kind wins. *)
Definition segmentMerge (a b : Segment) : option Segment :=
  if negb (mergeableWith a b) then None
  else
    let left :=
      if PrimFloat.eqb (val (from a)) (val (from b)) then
        {| val := val (from a);
           kind := if Kind_eqb (kind (from a)) (kind (from b))
                   then kind (from a) else closed |}
      else if PrimFloat.ltb (val (from a)) (val (from b)) then from a else from b in
    let right :=
      if PrimFloat.eqb (val (to a)) (val (to b)) then
        {| val := val (to a);
           kind := if Kind_eqb (kind (to a)) (kind (to b))
                   then kind (to a) else closed |}
      else if PrimFloat.ltb (val (to b)) (val (to a)) then to a else to b in
    newSegment left right.

(** [Segment.overlap]: at a shared end point the less inclusive kind wins. *)
Definition segmentOverlap (a b : Segment) : option Segment :=
  if negb (overlapsWith a b) then None
  else
    let left :=
      if PrimFloat.eqb (val (from a)) (val (from b)) then
        {| val := val (from a);
           kind := if Kind_eqb (kind (from a)) (kind (from b))
                   then kind (from a) else open |}
      else if PrimFloat.ltb (val (from b)) (val (from a)) then from a else from b in
    let right :=
      if PrimFloat.eqb (val (to a)) (val (to b)) then
        {| val := val (to a);
           kind := if Kind_eqb (kind (to a)) (kind (to b))
                   then kind (to a) else open |}
      else if PrimFloat.ltb (val (to a)) (val (to b)) then to a else to b in
    newSegment left right.

(** *** [Range]: the list of its segments *)

Definition Range := list Segment.

(** The first loop of [unionWithSeg]: the index [i] and the lower boundary
    [x] it ends with. *)
Fixpoint unionLower (seg : Segment) (subRanges : list Segment) (i : nat)
  (x : Boundary) : option (nat * Boundary) :=
  match subRanges with
  | [] => Some (i, x)
  | subRange :: rest =>
      if isGreaterThan seg subRange false then unionLower seg rest (S i) x
      else if mergeableWith seg subRange then
        m <- segmentMerge seg subRange ;; Some (i, from m)
      else
        Some (i, if PrimFloat.ltb (val (from subRange)) (val x)
                 then from subRange else x)
  end.

(** The second loop, over the segments in reverse: the index [j] and the
    upper boundary [y]. *)
Fixpoint unionUpper (seg : Segment) (reversed : list Segment) (j : nat)
  (y : Boundary) : option (nat * Boundary) :=
  match reversed with
  | [] => Some (j, y)
  | subRange :: rest =>
      if isLessThan seg subRange false then unionUpper seg rest (j - 1)%nat y
      else if mergeableWith seg subRange then
        m <- segmentMerge seg subRange ;; Some (j, to m)
      else
        Some (j, if PrimFloat.ltb (val y) (val (to subRange))
                 then to subRange else y)
  end.

(** [segments.splice(start, deleteCount, item)]; a negative [deleteCount]
    deletes nothing, as the truncated subtraction of [nat] has it. *)
Definition splice (segments : list Segment) (start deleteCount : nat)
  (item : Segment) : list Segment :=
  firstn start segments ++ [item] ++ skipn (start + deleteCount) segments.

Definition unionWithSeg (segments : Range) (seg : Segment) : option Range :=
  lower <- unionLower seg segments 0%nat (from seg) ;;
  upper <- unionUpper seg (rev segments) (List.length segments) (to seg) ;;
  s <- newSegment (snd lower) (snd upper) ;;
  Some (splice segments (fst lower) (fst upper - fst lower)%nat s).

(** [range.union(other)], also the loop of the constructor. *)
Fixpoint union (this : Range) (segs : list Segment) : option Range :=
  match segs with
  | [] => Some this
  | seg :: rest => this' <- unionWithSeg this seg ;; union this' rest
  end.

(** [new Range(segs)]. *)
Definition newRange (segs : list Segment) : option Range := union [] segs.

Definition infiniteRange : option Range :=
  s <- openOpen neg_infinity infinity ;; newRange [s].

Definition copyOf (range : Range) : option Range := newRange range.

Fixpoint intersectWithSeg (this : Range) (seg : Segment) : option Range :=
  match this with
  | [] => Some []
  | subRange :: rest =>
      if overlapsWith subRange seg then
        o <- segmentOverlap seg subRange ;;
        rest' <- intersectWithSeg rest seg ;;
        Some (o :: rest')
      else intersectWithSeg rest seg
  end.

(** The loop of [intersect], [newRange] being what it has gathered. *)
Fixpoint intersectLoop (this : Range) (segs : list Segment) (newRange : Range)
  : option Range :=
  match segs with
  | [] => Some newRange
  | seg :: rest =>
      dup <- copyOf this ;;
      dup' <- intersectWithSeg dup seg ;;
      newRange' <- union newRange dup' ;;
      intersectLoop this rest newRange'
  end.

Definition intersect (this range : Range) : option Range :=
  intersectLoop this range [].

Definition unionOf (range1 range2 : Range) : option Range :=
  r <- copyOf range1 ;; union r range2.

Definition intersectionOf (range1 range2 : Range) : option Range :=
  r <- copyOf range1 ;; intersect r range2.

(** The inner loop of [difference], over the segments of the intersection:
    the lower boundary [from] it ends with, and the segments pushed. *)
Fixpoint differenceInner (isegs : list Segment) (from : Boundary)
  (newRange : Range) : option (Boundary * Range) :=
  match isegs with
  | [] => Some (from, newRange)
  | iseg :: rest =>
      let to := {| val := val (Refinement.from iseg);
                   kind := flipKind (kind (Refinement.from iseg)) |} in
      newRange' <-
        (if isValid from to
         then s <- newSegment from to ;; Some (newRange ++ [s])
         else Some newRange) ;;
      differenceInner rest
        {| val := val (Refinement.to iseg);
           kind := flipKind (kind (Refinement.to iseg)) |}
        newRange'
  end.

Fixpoint differenceLoop (segs : list Segment) (range2 : Range) (newRange : Range)
  : option Range :=
  match segs with
  | [] => Some newRange
  | seg :: rest =>
      c <- copyOf range2 ;;
      ntrsct <- intersectWithSeg c seg ;;
      inner <- differenceInner ntrsct (from seg) newRange ;;
      newRange' <-
        (if isValid (fst inner) (to seg)
         then s <- newSegment (fst inner) (to seg) ;; Some (snd inner ++ [s])
         else Some (snd inner)) ;;
      differenceLoop rest range2 newRange'
  end.

(** [Range.difference(range1, range2)]. *)
Definition difference (range1 range2 : Range) : option Range :=
  differenceLoop range1 range2 [].

(** [Range.complementOf(range)], [from] being its default, the infinite
    range. *)
Definition complementOf (range : Range) : option Range :=
  inf <- infiniteRange ;; difference inf range.

Definition makeInitialGivenOp (op : Op) (val : float) : option Range :=
  match op with
  | LT => s <- openOpen neg_infinity val ;; newRange [s]
  | LTE => s <- openClosed neg_infinity val ;; newRange [s]
  | GT => s <- openOpen val infinity ;; newRange [s]
  | GTE => s <- closedOpen val infinity ;; newRange [s]
  | EQ => s <- closedClosed val val ;; newRange [s]
  | NEQ => s <- closedClosed val val ;; r <- newRange [s] ;; complementOf r
  | _ => None
  end.

Definition updateGivenOp (op : Op) (ranges : list Range) : option Range :=
  match op, ranges with
  | AND, r0 :: r1 :: _ => intersectionOf r0 r1
  | OR, r0 :: r1 :: _ => unionOf r0 r1
  | EQ, r0 :: r1 :: _ =>
      lc <- complementOf r0 ;;
      rc <- complementOf r1 ;;
      lnr <- intersectionOf r0 r1 ;;
      lcnrc <- intersectionOf lc rc ;;
      unionOf lnr lcnrc
  | NEQ, r0 :: r1 :: _ =>
      lc <- complementOf r0 ;;
      rc <- complementOf r1 ;;
      lnrc <- intersectionOf r0 rc ;;
      lcnr <- intersectionOf lc r1 ;;
      unionOf lnrc lcnr
  | NOT, r0 :: _ => complementOf r0
  | _, _ => None
  end.

(** [Range.fromExpression]: [None] when the code throws. *)
Fixpoint fromExpression (expr : RefinementExpression) : option Range :=
  match expr with
  | BinaryExpression l r op =>
      match l, r with
      | FieldNamePrimitive _ _, NumberPrimitive value =>
          makeInitialGivenOp op value
      | _, _ =>
          rl <- fromExpression l ;;
          rr <- fromExpression r ;;
          updateGivenOp op [rl; rr]
      end
  | UnaryExpression x op =>
      rg <- fromExpression x ;; updateGivenOp op [rg]
  | _ => None
  end.

(** The refinement [(age >= 18) and (age < 65)], as the parser hands it
    over, and the types of the schema's fields. *)
Definition ageNode : RefinementExpressionNode :=
  BinaryExpressionNode
    (BinaryExpressionNode (FieldNode "age") (NumberNode 18%float) GTE)
    (BinaryExpressionNode (FieldNode "age") (NumberNode 65%float) LT)
    AND.

Definition ageTypeData : string -> option EvalType :=
  fun name => if String.eqb name "age" then Some TNumber else None.

Definition ageSegment : Segment :=
  {| from := {| val := 18%float; kind := closed |};
     to := {| val := 65%float; kind := open |} |}.

Definition ageComplement : Range :=
  [ {| from := {| val := neg_infinity; kind := open |};
       to := {| val := 18%float; kind := open |} |};
    {| from := {| val := 65%float; kind := closed |};
       to := {| val := infinity; kind := open |} |} ].

(** What the constructors establish: every operator is applied to operands
    of the types its table entry asks for. *)
Fixpoint wellTyped (e : RefinementExpression) : bool :=
  match e with
  | BinaryExpression l r op =>
      wellTyped l && wellTyped r
      && validateOperandCompatibility op [evalType l; evalType r]
  | UnaryExpression x op =>
      wellTyped x && validateOperandCompatibility op [evalType x]
  | _ => true
  end.

(** No [not] stands directly over a boolean constant or over another
    [not], anywhere in the expression. *)
Fixpoint negationReduced (e : RefinementExpression) : bool :=
  match e with
  | BinaryExpression l r _ => negationReduced l && negationReduced r
  | UnaryExpression x op =>
      negationReduced x
      && match op, x with
         | NOT, BooleanPrimitive _ => false
         | NOT, UnaryExpression _ NOT => false
         | _, _ => true
         end
  | _ => true
  end.

(** [age >= 18], built and already in normal form. *)
Definition adultExpr : RefinementExpression :=
  BinaryExpression (FieldNamePrimitive "age" TNumber) (NumberPrimitive 18%float) GTE.

(** The example of the comment over [Refinement.normalise]:
    [(num + (1 + 3) < 4) and True]. *)
Definition numNode : RefinementExpressionNode :=
  BinaryExpressionNode
    (BinaryExpressionNode
       (BinaryExpressionNode (FieldNode "num")
          (BinaryExpressionNode (NumberNode 1%float) (NumberNode 3%float) ADD)
          ADD)
       (NumberNode 4%float) LT)
    (BooleanNode true)
    AND.

Definition numTypeData : string -> option EvalType :=
  fun name => if String.eqb name "num" then Some TNumber else None.

(** *** Evaluation against an entity *)

Definition typeOf (v : Prim) : EvalType :=
  match v with
  | PNumber _ => TNumber
  | PBoolean _ => TBoolean
  | PText _ => TText
  end.

(** [data] gives every field of the expression a value, of the type the
    field was declared with. *)
Fixpoint fieldsTyped (e : RefinementExpression) (data : string -> option Prim)
  : bool :=
  match e with
  | BinaryExpression l r _ => fieldsTyped l data && fieldsTyped r data
  | UnaryExpression x _ => fieldsTyped x data
  | FieldNamePrimitive value t =>
      match data value with
      | Some v => EvalType_eqb (typeOf v) t
      | None => false
      end
  | _ => true
  end.

(** [Refinement.validateData]: [None] when it throws, on an evaluation that
    throws or on a result that is not a boolean. *)
Definition validateData (expression : RefinementExpression)
  (data : string -> option Prim) : option bool :=
  match applyOperator expression data with
  | Some (PBoolean res) => Some res
  | _ => None
  end.

(** The entity [{age: 42}]. *)
Definition ageData : string -> option Prim :=
  fun name => if String.eqb name "age" then Some (PNumber 42%float) else None.

(** No subtraction and no division has a field as its right operand: these
    are the nodes of which [swapChildren] changes the value. *)
Fixpoint swapSafe (e : RefinementExpression) : bool :=
  match e with
  | BinaryExpression l r op =>
      swapSafe l && swapSafe r
      && match op, r with
         | SUB, FieldNamePrimitive _ _ => false
         | DIV, FieldNamePrimitive _ _ => false
         | _, _ => true
         end
  | UnaryExpression x _ => swapSafe x
  | _ => true
  end.

(** No operator stands between two fields. *)
Fixpoint fieldPairFree (e : RefinementExpression) : bool :=
  match e with
  | BinaryExpression l r _ =>
      fieldPairFree l && fieldPairFree r
      && match l, r with
         | FieldNamePrimitive _ _, FieldNamePrimitive _ _ => false
         | _, _ => true
         end
  | UnaryExpression x _ => fieldPairFree x
  | _ => true
  end.

(** [5 - num], as the parser hands it over, and the entity [{num: 2}]. *)
Definition fiveMinusNum : RefinementExpressionNode :=
  BinaryExpressionNode (NumberNode 5%float) (FieldNode "num") SUB.

Definition numData : string -> option Prim :=
  fun name => if String.eqb name "num" then Some (PNumber 2%float) else None.

Definition isField (e : RefinementExpression) : bool :=
  match e with FieldNamePrimitive _ _ => true | _ => false end.

Definition isBoolean (e : RefinementExpression) : bool :=
  match e with BooleanPrimitive _ => true | _ => false end.

Definition isNumber (e : RefinementExpression) : bool :=
  match e with NumberPrimitive _ => true | _ => false end.

(** Nothing is left to fold, to drop or to turn round: no operator over
    constants only, no [and] and no [or] with a boolean constant, no [not]
    over a [not], and a field on the right of an operator only where a
    field is on its left too. *)
Fixpoint normalForm (e : RefinementExpression) : bool :=
  match e with
  | BinaryExpression l r op =>
      normalForm l && normalForm r
      && negb (isBoolean l && isBoolean r)
      && negb (isNumber l && isNumber r)
      && match op with
         | AND | OR => negb (isBoolean l) && negb (isBoolean r)
         | _ => true
         end
      && implb (isField r) (isField l)
  | UnaryExpression x op =>
      normalForm x
      && match op, x with
         | NOT, BooleanPrimitive _ => false
         | NOT, UnaryExpression _ NOT => false
         | NEG, NumberPrimitive _ => false
         | _, _ => true
         end
  | _ => true
  end.

(** [P] holds of the expression and of every expression below it. *)
Fixpoint everywhere (P : RefinementExpression -> Prop) (e : RefinementExpression)
  : Prop :=
  P e /\ match e with
         | BinaryExpression l r _ => everywhere P l /\ everywhere P r
         | UnaryExpression x _ => everywhere P x
         | _ => True
         end.

(** A second [normalise] returns the expression as it is, if no operator
    in it stands between two fields. *)
Definition fixedByNormalise (e : RefinementExpression) : Prop :=
  fieldPairFree e = true -> normalise e = Some e.

(** The segment from [a] to [b]. *)
Definition seg (a : float) (ka : Kind) (b : float) (kb : Kind) : Segment :=
  {| from := {| val := a; kind := ka |}; to := {| val := b; kind := kb |} |}.

End Refinement.

(** ** [Recipe.normalize]

    [recipe.ts] holds the [Recipe] class.  The classes of its nodes
    ([Particle], [Handle], [Slot], [HandleConnection], [SlotConnection],
    [ConnectionConstraint], [Search]) and [compareComparables] live in files
    of their own, so what [normalize] calls on them are the fields of
    [NodeClasses]: the node objects form a state [Nodes], the recipe refers
    to them by reference, and every method [normalize] calls on a node
    ([_isValid], [isValid], [_startNormalize], [_normalize],
    [_finishNormalize]) returns the state it leaves, since nothing in
    [recipe.ts] says that it leaves the nodes as they are.  The getters
    and [compareComparables] read the state. *)
Module Recipe.

Definition Particle := nat.
Definition Handle := nat.
Definition Slot := nat.
Definition HandleConnection := nat.
Definition SlotConnection := nat.
Definition ConnectionConstraint := nat.
Definition SearchRef := nat.

Inductive Node :=
| NHandle (h : Handle)
| NParticle (p : Particle)
| NSlot (s : Slot)
| NHandleConnection (c : HandleConnection)
| NSlotConnection (c : SlotConnection)
| NConstraint (c : ConnectionConstraint).

(** The keys of [options.errors]: the recipe itself, or one of its nodes. *)
Inductive ErrorKey :=
| KRecipe
| KNode (n : Node).

(** [options.errors], a [Map]: the entries as [set] added them, newest
    first. *)
Definition Errors := list (ErrorKey * string).

(** [options && options.errors]: [None] when there is no map to write to. *)
Definition Options := option Errors.

Definition errorsSet (options : Options) (k : ErrorKey) (msg : string) : Options :=
  match options with
  | Some errors => Some ((k, msg) :: errors)
  | None => None
  end.

Record NodeClasses := {
  Nodes : Type;
  handle_id : Nodes -> Handle -> option string;
  slot_id : Nodes -> Slot -> option string;
  node_isValid : Nodes -> Node -> Options -> bool * (Options * Nodes);
  search_isValid : Nodes -> SearchRef -> bool * Nodes;
  startNormalize : Nodes -> Node -> Nodes;
  normalizeConnection : Nodes -> Node -> Nodes;
  finishNormalize : Nodes -> Node -> Nodes;
  search_normalize : Nodes -> SearchRef -> Nodes;
  compareComparables : Nodes -> Node -> Node -> Z;
  particle_connections : Nodes -> Particle -> list HandleConnection;
  particle_consumedSlotConnections : Nodes -> Particle -> list SlotConnection;
  connection_isInterface : Nodes -> HandleConnection -> bool;
  connection_particle : Nodes -> HandleConnection -> Particle;
  connection_handle : Nodes -> HandleConnection -> option Handle;
  slotConnection_targetSlot : Nodes -> SlotConnection -> option Slot;
  slotConnection_providedSlots : Nodes -> SlotConnection -> list Slot
}.

(** The fields of a [Recipe]; [frozen] is [Object.isFrozen(this)], and
    [listsFrozen] that of the four arrays [normalize] freezes. *)
Record Recipe := {
  _particles : list Particle;
  _handles : list Handle;
  _slots : list Slot;
  _name : option string;
  _localName : option string;
  annotation : option string;
  _connectionConstraints : list ConnectionConstraint;
  _obligations : list ConnectionConstraint;
  _verbs : list string;
  _search : option SearchRef;
  _patterns : list string;
  listsFrozen : bool;
  frozen : bool
}.

(** [Array.prototype.sort] with a comparator, as a stable insertion sort. *)
Fixpoint insertBy {A : Type} (cmp : A -> A -> Z) (x : A) (l : list A) : list A :=
  match l with
  | [] => [x]
  | y :: ys => if cmp x y <=? 0 then x :: y :: ys else y :: insertBy cmp x ys
  end.

Definition sortBy {A : Type} (cmp : A -> A -> Z) (l : list A) : list A :=
  fold_right (insertBy cmp) [] l.

(** The comparison of [sort()] without a comparator, on strings: by UTF-16
    code units.  A string here is a sequence of bytes, and the comparison
    that of the bytes: the two agree on ASCII strings, where a byte is a
    code unit, and statements about the order are made of those. *)
Definition compareStrings (a b : string) : Z :=
  match String.compare a b with
  | Lt => -1
  | Eq => 0
  | Gt => 1
  end.

(** No character of the string is outside ASCII. *)
Fixpoint asciiOnly (s : string) : bool :=
  match s with
  | EmptyString => true
  | String c s' => (Ascii.nat_of_ascii c <? 128)%nat && asciiOnly s'
  end.

(** An object (truthy), as opposed to [undefined]. *)
Definition isSome {A : Type} (o : option A) : bool :=
  match o with Some _ => true | None => false end.

Section WithNodes.

Variable C : NodeClasses.

(** The getters [handleConnections] and [slotConnections]: fresh arrays. *)
Definition handleConnections (nodes : Nodes C) (r : Recipe)
  : list HandleConnection :=
  flat_map (particle_connections C nodes) (_particles r).

Definition slotConnections (nodes : Nodes C) (r : Recipe) : list SlotConnection :=
  flat_map (particle_consumedSlotConnections C nodes) (_particles r).

(** The callback of [items.find] in [_findDuplicate]: the first item whose
    id has been seen already. *)
Fixpoint findDuplicateFrom {A : Type} (id : A -> option string)
  (items : list A) (seen : list string) : option (A * string) :=
  match items with
  | [] => None
  | item :: rest =>
      match id item with
      | Some i =>
          if existsb (String.eqb i) seen then Some (item, i)
          else findDuplicateFrom id rest (i :: seen)
      | None => findDuplicateFrom id rest seen
      end
  end.

(** [_findDuplicate(this._handles, options)]: the duplicate, and [options]
    with the error it records. *)
Definition findDuplicateHandle (nodes : Nodes C) (r : Recipe) (options : Options)
  : option Handle * Options :=
  match findDuplicateFrom (handle_id C nodes) (_handles r) [] with
  | Some (h, i) =>
      (Some h,
       errorsSet options (KNode (NHandle h)) ("Has Duplicate Handle '" ++ i ++ "'"))
  | None => (None, options)
  end.

(** [_findDuplicate(this._slots, options)]. *)
Definition findDuplicateSlot (nodes : Nodes C) (r : Recipe) (options : Options)
  : option Slot * Options :=
  match findDuplicateFrom (slot_id C nodes) (_slots r) [] with
  | Some (s, i) =>
      (Some s,
       errorsSet options (KNode (NSlot s)) ("Has Duplicate Slot '" ++ i ++ "'"))
  | None => (None, options)
  end.

(** [list.every(item => item._isValid(options))]: it stops at the first
    node that is not valid.  The result, and [options] and the nodes as the
    calls leave them. *)
Fixpoint everyValid (nodes : Nodes C) (items : list Node) (options : Options)
  : bool * (Options * Nodes C) :=
  match items with
  | [] => (true, (options, nodes))
  | item :: rest =>
      let r := node_isValid C nodes item options in
      if fst r then everyValid (snd (snd r)) rest (fst (snd r))
      else (false, snd r)
  end.

(** [list.forEach(item => !item._isValid(options))]: every node is asked. *)
Fixpoint checkForInvalid (nodes : Nodes C) (items : list Node) (options : Options)
  : Options * Nodes C :=
  match items with
  | [] => (options, nodes)
  | item :: rest =>
      let r := node_isValid C nodes item options in
      checkForInvalid (snd (snd r)) rest (fst (snd r))
  end.

(** [_isValid(options)], a chain of [&&]: the result, and [options] and the
    nodes as the calls that were made leave them. *)
Definition _isValid (nodes : Nodes C) (r : Recipe) (options : Options)
  : bool * (Options * Nodes C) :=
  let d1 := findDuplicateHandle nodes r options in
  if isSome (fst d1) then (false, (snd d1, nodes)) else
  let d2 := findDuplicateSlot nodes r (snd d1) in
  if isSome (fst d2) then (false, (snd d2, nodes)) else
  let v1 := everyValid nodes (map NHandle (_handles r)) (snd d2) in
  if negb (fst v1) then (false, snd v1) else
  let v2 := everyValid (snd (snd v1)) (map NParticle (_particles r))
              (fst (snd v1)) in
  if negb (fst v2) then (false, snd v2) else
  let v3 := everyValid (snd (snd v2)) (map NSlot (_slots r)) (fst (snd v2)) in
  if negb (fst v3) then (false, snd v3) else
  let v4 := everyValid (snd (snd v3))
              (map NHandleConnection (handleConnections (snd (snd v3)) r))
              (fst (snd v3)) in
  if negb (fst v4) then (false, snd v4) else
  let v5 := everyValid (snd (snd v4))
              (map NSlotConnection (slotConnections (snd (snd v4)) r))
              (fst (snd v4)) in
  if negb (fst v5) then (false, snd v5) else
  match _search r with
  | Some search =>
      let v6 := search_isValid C (snd (snd v5)) search in
      (fst v6, (fst (snd v5), snd v6))
  | None => (true, snd v5)
  end.

(** One [for (const node of list) node.method()] loop. *)
Definition forEachNode (method : Nodes C -> Node -> Nodes C)
  (items : list Node) (nodes : Nodes C) : Nodes C :=
  fold_left method items nodes.

Definition memNat (x : nat) (l : list nat) : bool := existsb (Nat.eqb x) l.

(** The loop over the sorted handle connections: the particles and the
    handles in the order they are first met. *)
Fixpoint collectFromConnections (nodes : Nodes C)
  (connections : list HandleConnection) (particles : list Particle)
  (handles : list Handle) : list Particle * list Handle :=
  match connections with
  | [] => (particles, handles)
  | connection :: rest =>
      let p := connection_particle C nodes connection in
      let particles' :=
        if memNat p particles then particles else particles ++ [p] in
      let handles' :=
        match connection_handle C nodes connection with
        | Some h => if memNat h handles then handles else handles ++ [h]
        | None => handles
        end in
      collectFromConnections nodes rest particles' handles'
  end.

Definition pushUnseen (slots : list Slot) (s : Slot) : list Slot :=
  if memNat s slots then slots else slots ++ [s].

(** The loop over the sorted slot connections. *)
Fixpoint collectFromSlotConnections (nodes : Nodes C)
  (slotConnections : list SlotConnection) (slots : list Slot) : list Slot :=
  match slotConnections with
  | [] => slots
  | sc :: rest =>
      let slots' :=
        match slotConnection_targetSlot C nodes sc with
        | Some t => pushUnseen slots t
        | None => slots
        end in
      collectFromSlotConnections nodes rest
        (fold_left pushUnseen (slotConnection_providedSlots C nodes sc) slots')
  end.

(** [normalize(options)]: what it returns, the recipe and the nodes it
    leaves, and [options] with the errors it has recorded.  [valid] is the
    call [this._isValid()], made without [options]; [nodes0] are the nodes
    as that call leaves them. *)
Definition normalize (nodes : Nodes C) (r : Recipe) (options : Options)
  : bool * Recipe * Nodes C * Options :=
  if frozen r then
    (false, r, nodes, errorsSet options KRecipe "already normalized")
  else
  let valid := _isValid nodes r None in
  let nodes0 := snd (snd valid) in
  if negb (fst valid) then
    let o1 := snd (findDuplicateHandle nodes0 r options) in
    let o2 := snd (findDuplicateSlot nodes0 r o1) in
    let s3 := checkForInvalid nodes0 (map NHandle (_handles r)) o2 in
    let s4 := checkForInvalid (snd s3) (map NParticle (_particles r)) (fst s3) in
    let s5 := checkForInvalid (snd s4) (map NSlot (_slots r)) (fst s4) in
    let s6 := checkForInvalid (snd s5)
                (map NHandleConnection (handleConnections (snd s5) r)) (fst s5) in
    let s7 := checkForInvalid (snd s6)
                (map NSlotConnection (slotConnections (snd s6) r)) (fst s6) in
    (false, r, snd s7, fst s7)
  else
    let n1 := forEachNode (startNormalize C) (map NParticle (_particles r)) nodes0 in
    let n2 := forEachNode (startNormalize C) (map NHandle (_handles r)) n1 in
    let n3 := forEachNode (startNormalize C) (map NSlot (_slots r)) n2 in
    let connections0 := handleConnections n3 r in
    let n4 := forEachNode (normalizeConnection C)
                (map NHandleConnection connections0) n3 in
    let connections :=
      sortBy (fun a b => compareComparables C n4
                           (NHandleConnection a) (NHandleConnection b))
        connections0 in
    let slotConnections0 := slotConnections n4 r in
    let n5 := forEachNode (normalizeConnection C)
                (map NSlotConnection slotConnections0) n4 in
    let slotConnections :=
      sortBy (fun a b => compareComparables C n5
                           (NSlotConnection a) (NSlotConnection b))
        slotConnections0 in
    let n6 := match _search r with
              | Some search => search_normalize C n5 search
              | None => n5
              end in
    let n7 := forEachNode (finishNormalize C) (map NParticle (_particles r)) n6 in
    let n8 := forEachNode (finishNormalize C) (map NHandle (_handles r)) n7 in
    let n9 := forEachNode (finishNormalize C) (map NSlot (_slots r)) n8 in
    let ordered :=
      filter (fun c => negb (connection_isInterface C n9 c)) connections
      ++ filter (connection_isInterface C n9) connections in
    let seen := collectFromConnections n9 ordered [] [] in
    let slots := collectFromSlotConnections n9 slotConnections [] in
    let orphanedHandles :=
      sortBy (fun a b => compareComparables C n9 (NHandle a) (NHandle b))
        (filter (fun h => negb (memNat h (snd seen))) (_handles r)) in
    let orphanedParticles :=
      sortBy (fun a b => compareComparables C n9 (NParticle a) (NParticle b))
        (filter (fun p => negb (memNat p (fst seen))) (_particles r)) in
    let orphanedSlots :=
      sortBy (fun a b => compareComparables C n9 (NSlot a) (NSlot b))
        (filter (fun s => negb (memNat s slots)) (_slots r)) in
    (true,
     {| _particles := fst seen ++ orphanedParticles;
        _handles := snd seen ++ orphanedHandles;
        _slots := slots ++ orphanedSlots;
        _name := _name r;
        _localName := _localName r;
        annotation := annotation r;
        _connectionConstraints :=
          sortBy (fun a b => compareComparables C n9 (NConstraint a) (NConstraint b))
            (_connectionConstraints r);
        _obligations := _obligations r;
        _verbs := sortBy compareStrings (_verbs r);
        _search := _search r;
        _patterns := sortBy compareStrings (_patterns r);
        listsFrozen := true;
        frozen := true |},
     n9, options).

End WithNodes.


(** A recipe with nothing in it. *)
Definition newRecipe (name : option string) : Recipe :=
  {| _particles := []; _handles := []; _slots := []; _name := name;
     _localName := None; annotation := None; _connectionConstraints := [];
     _obligations := []; _verbs := []; _search := None; _patterns := [];
     listsFrozen := false; frozen := false |}.

(** Node classes for examples: the state is the list of the handles' ids,
    every node is valid, and no particle has a connection. *)
Definition idsOnly : NodeClasses :=
  {| Nodes := list (option string);
     handle_id := fun nodes h => nth h nodes None;
     slot_id := fun _ _ => None;
     node_isValid := fun nodes _ options => (true, (options, nodes));
     search_isValid := fun nodes _ => (true, nodes);
     startNormalize := fun nodes _ => nodes;
     normalizeConnection := fun nodes _ => nodes;
     finishNormalize := fun nodes _ => nodes;
     search_normalize := fun nodes _ => nodes;
     compareComparables := fun _ _ _ => 0;
     particle_connections := fun _ _ => [];
     particle_consumedSlotConnections := fun _ _ => [];
     connection_isInterface := fun _ _ => false;
     connection_particle := fun _ _ => 0%nat;
     connection_handle := fun _ _ => None;
     slotConnection_targetSlot := fun _ _ => None;
     slotConnection_providedSlots := fun _ _ => [] |}.

(** Two handles with the same id. *)
Definition duplicateHandles : Recipe :=
  {| _particles := []; _handles := [0%nat; 1%nat]; _slots := []; _name := None;
     _localName := None; annotation := None; _connectionConstraints := [];
     _obligations := []; _verbs := ["b"; "a"]; _search := None; _patterns := [];
     listsFrozen := false; frozen := false |}.


(** Two handles with different ids. *)
Definition distinctIds : list (option string) := [Some "h0"; Some "h1"].

(** The ids [_findDuplicate] looks at: those of the items whose id passes
    the test [if (handle.id)], in the order of the items. *)
Definition presentIds {A : Type} (id : A -> option string) (items : list A)
  : list string :=
  flat_map (fun item => match id item with Some i => [i] | None => [] end) items.

(** *** Constraints and obligations

    [normalize] freezes the array of the connection constraints, and the
    recipe: [push] and [splice] on the one, and an assignment to a field of
    the other, throw from then on.  The array of the obligations is not
    frozen.  [None] when the method throws. *)

(** [array.indexOf(x)], [None] for -1. *)
Fixpoint indexOf (x : nat) (l : list nat) : option nat :=
  match l with
  | [] => None
  | y :: ys => if Nat.eqb y x then Some 0%nat else option_map S (indexOf x ys)
  end.

(** [array.splice(idx, 1)]. *)
Definition spliceOne (idx : nat) (l : list nat) : list nat :=
  firstn idx l ++ skipn (S idx) l.

Definition setConnectionConstraints (r : Recipe) (l : list ConnectionConstraint)
  : Recipe :=
  {| _particles := _particles r; _handles := _handles r; _slots := _slots r;
     _name := _name r; _localName := _localName r; annotation := annotation r;
     _connectionConstraints := l; _obligations := _obligations r;
     _verbs := _verbs r; _search := _search r; _patterns := _patterns r;
     listsFrozen := listsFrozen r; frozen := frozen r |}.

Definition setObligations (r : Recipe) (l : list ConnectionConstraint) : Recipe :=
  {| _particles := _particles r; _handles := _handles r; _slots := _slots r;
     _name := _name r; _localName := _localName r; annotation := annotation r;
     _connectionConstraints := _connectionConstraints r; _obligations := l;
     _verbs := _verbs r; _search := _search r; _patterns := _patterns r;
     listsFrozen := listsFrozen r; frozen := frozen r |}.

(** [newConnectionConstraint], [result] being the constraint it makes. *)
Definition newConnectionConstraint (r : Recipe) (result : ConnectionConstraint)
  : option Recipe :=
  if listsFrozen r then None
  else Some (setConnectionConstraints r (_connectionConstraints r ++ [result])).

(** [newObligation], [result] being the obligation it makes. *)
Definition newObligation (r : Recipe) (result : ConnectionConstraint)
  : option Recipe :=
  Some (setObligations r (_obligations r ++ [result])).

Definition removeObligation (r : Recipe) (obligation : ConnectionConstraint)
  : option Recipe :=
  match indexOf obligation (_obligations r) with
  | None => None
  | Some idx => Some (setObligations r (spliceOne idx (_obligations r)))
  end.

Definition removeConstraint (r : Recipe) (constraint : ConnectionConstraint)
  : option Recipe :=
  match indexOf constraint (_connectionConstraints r) with
  | None => None
  | Some idx =>
      if listsFrozen r then None
      else Some (setConnectionConstraints r
                   (spliceOne idx (_connectionConstraints r)))
  end.

Definition clearConnectionConstraints (r : Recipe) : option Recipe :=
  if frozen r then None else Some (setConnectionConstraints r []).

(** [isEmpty]. *)
Definition isEmpty (r : Recipe) : bool :=
  (List.length (_particles r) =? 0)%nat && (List.length (_handles r) =? 0)%nat
  && (List.length (_slots r) =? 0)%nat
  && (List.length (_connectionConstraints r) =? 0)%nat.

(** *** [_makeLocalNameMap]

    The local names of the nodes belong to the node classes: they are
    parameters here, [None] for a name the test [if (!localName)] takes as
    missing.  The map is the list of the entries in the order [set] wrote
    them. *)

(** [`${prefix}${i}`]. *)
Definition numbered (prefix : string) (i : nat) : string :=
  prefix ++ NilEmpty.string_of_uint (Nat.to_uint i).

(** [do { localName = `${prefix}${i++}`; } while (names.has(localName))]:
    the name and the counter the loop ends with; [None] if it has not ended
    after [fuel] rounds. *)
Fixpoint freshName (fuel : nat) (prefix : string) (names : list string) (i : nat)
  : option (string * nat) :=
  match fuel with
  | O => None
  | S fuel' =>
      let localName := numbered prefix i in
      if existsb (String.eqb localName) names
      then freshName fuel' prefix names (S i)
      else Some (localName, S i)
  end.

(** One of the three loops that fill the map. *)
Fixpoint nameNodes (prefix : string) (names : list string)
  (localName : nat -> option string) (nodes : list nat) (i : nat)
  : option (list (nat * string)) :=
  match nodes with
  | [] => Some []
  | node :: rest =>
      match localName node with
      | Some name =>
          option_map (cons (node, name))
            (nameNodes prefix names localName rest i)
      | None =>
          match freshName (S (List.length names)) prefix names i with
          | Some (name, i') =>
              option_map (cons (node, name))
                (nameNodes prefix names localName rest i')
          | None => None
          end
      end
  end.

Section LocalNames.

Variables particle_localName handle_localName slot_localName : nat -> option string.

(** The set [names]: the local names of the particles, the handles and the
    slots. *)
Definition localNames (r : Recipe) : list string :=
  presentIds particle_localName (_particles r)
  ++ presentIds handle_localName (_handles r)
  ++ presentIds slot_localName (_slots r).

Definition node_localName (n : Node) : option string :=
  match n with
  | NParticle p => particle_localName p
  | NHandle h => handle_localName h
  | NSlot s => slot_localName s
  | _ => None
  end.

Definition tagged (tag : nat -> Node) (l : list (nat * string))
  : list (Node * string) :=
  map (fun e => (tag (fst e), snd e)) l.

Definition _makeLocalNameMap (r : Recipe) : option (list (Node * string)) :=
  let names := localNames r in
  match nameNodes "particle" names particle_localName (_particles r) 0,
        nameNodes "handle" names handle_localName (_handles r) 0,
        nameNodes "slot" names slot_localName (_slots r) 0 with
  | Some ps, Some hs, Some ss =>
      Some (tagged NParticle ps ++ tagged NHandle hs ++ tagged NSlot ss)
  | _, _, _ => None
  end.

(** The names the map gives to the nodes that had none. *)
Definition generatedNames (m : list (Node * string)) : list string :=
  map snd (filter (fun e => negb (isSome (node_localName (fst e)))) m).

End LocalNames.

End Recipe.

(** ** The reference-mode store

    Of the reference-mode store the sources hold the tests
    ([ReferenceModeStoreTest.kt]) and not the class; the store below follows
    the specification's description of it. *)
Module ReferenceModeStore.

Definition Actor := string.
Definition ReferenceId := string.

(** A version vector: actor to counter, a missing actor standing for 0. *)
Definition VersionMap := list (Actor * nat).

Fixpoint vvGet (v : VersionMap) (a : Actor) : nat :=
  match v with
  | [] => 0%nat
  | (a', n) :: v' => if String.eqb a' a then n else vvGet v' a
  end.

(** [u <= v]: pointwise, on the actors of [u] (the others are 0 in [u]). *)
Definition vvLeq (u v : VersionMap) : bool :=
  forallb (fun e => Nat.leb (vvGet u (fst e)) (vvGet v (fst e))) u.

(** The least upper bound of two version vectors. *)
Definition vvJoin (v w : VersionMap) : VersionMap :=
  map (fun a => (a, Nat.max (vvGet v a) (vvGet w a))) (map fst v ++ map fst w).

Record Reference := {
  id : ReferenceId;
  storageKey : string;
  version : VersionMap
}.

(** The fields of an entity, by name. *)
Definition RawEntity := list (string * string).

(** The container model: the references it holds. *)
Definition ContainerData := list Reference.

(** A backing model: the entity and its version vector. *)
Record BackingModel := {
  entityVersion : VersionMap;
  entity : RawEntity
}.

(** What a proxy callback receives: the references of the container and the
    entity of each. *)
Inductive ProxyMessage :=
| ModelUpdate (refs : ContainerData) (entities : list (ReferenceId * RawEntity)).


(** What the drivers deliver: a container model, or the backing model of
    one entity. *)
Inductive DriverMessage :=
| ContainerUpdate (data : ContainerData)
| BackingUpdate (i : ReferenceId) (model : BackingModel).

(** Modelled from the spec: the class [ReferenceModeStore] is missing from
    the sources.  The store has its backing models by entity id, its waiting
    queue by entity id (the pending container update filed under the id it
    waits for), and the messages its proxy callbacks have received, oldest
    first. *)
Record Store := {
  backingStore : list (ReferenceId * BackingModel);
  waiting : list (ReferenceId * ContainerData);
  proxyLog : list ProxyMessage
}.


Fixpoint backingLookup (b : list (ReferenceId * BackingModel)) (i : ReferenceId)
  : option BackingModel :=
  match b with
  | [] => None
  | (i', m) :: b' => if String.eqb i' i then Some m else backingLookup b' i
  end.

Definition backingModel (st : Store) (i : ReferenceId) : option BackingModel :=
  backingLookup (backingStore st) i.

(** Modelled from the spec: a reference can be dereferenced when its entity
    'has a concrete backing model whose VV is >= the Reference's VV'. *)
Definition ready (st : Store) (r : Reference) : bool :=
  match backingModel st (id r) with
  | Some m => vvLeq (version r) (entityVersion m)
  | None => false
  end.

(** Modelled from the spec: the id of the first reference of [data] that
    cannot be dereferenced yet. *)
Definition firstMissing (st : Store) (data : ContainerData) : option ReferenceId :=
  match filter (fun r => negb (ready st r)) data with
  | [] => None
  | r :: _ => Some (id r)
  end.

(** Modelled from the spec: the entities a [ModelUpdate] carries, read from
    the backing models. *)
Definition materialize (st : Store) (data : ContainerData)
  : list (ReferenceId * RawEntity) :=
  flat_map (fun r => match backingModel st (id r) with
                     | Some m => [(id r, entity m)]
                     | None => []
                     end) data.

(** Modelled from the spec: the state machine of a pending entry.  A
    container update that cannot be shown yet is filed at the end of the
    queue, under the id it waits for (AWAITING_BACKING). *)
Definition file (w : list (ReferenceId * ContainerData)) (i : ReferenceId)
  (data : ContainerData) : list (ReferenceId * ContainerData) :=
  w ++ [(i, data)].

(** The entries that wait for another id than [i]. *)
Definition others (w : list (ReferenceId * ContainerData)) (i : ReferenceId)
  : list (ReferenceId * ContainerData) :=
  filter (fun e => negb (String.eqb (fst e) i)) w.

(** Modelled from the spec: a container model is shown to the proxies, as
    one [ModelUpdate], when every reference it holds can be dereferenced;
    otherwise no callback is invoked and the model waits, [w] being the
    queue it joins. *)
Definition showOrHold (st : Store) (w : list (ReferenceId * ContainerData))
  (data : ContainerData) : Store :=
  match firstMissing st data with
  | None =>
      {| backingStore := backingStore st;
         waiting := waiting st;
         proxyLog := proxyLog st ++ [ModelUpdate data (materialize st data)] |}
  | Some i =>
      {| backingStore := backingStore st;
         waiting := file w i data;
         proxyLog := proxyLog st |}
  end.

(** Modelled from the spec: a container update from the driver.  When it has
    to wait, it supersedes the earlier updates that wait for the same id
    ('superseded by later container update: updated reference, still
    awaiting'). *)
Definition onContainerUpdate (st : Store) (data : ContainerData) : Store :=
  match firstMissing st data with
  | None => showOrHold st (waiting st) data
  | Some i => showOrHold st (others (waiting st) i) data
  end.

(** Modelled from the spec: a backing model is a CRDT, so what arrives is
    merged into what is there: the version vectors are joined. *)
Definition backingMerge (old : option BackingModel) (new : BackingModel)
  : BackingModel :=
  match old with
  | Some m => {| entityVersion := vvJoin (entityVersion m) (entityVersion new);
                 entity := entity new |}
  | None => new
  end.

(** Modelled from the spec: a backing model from the driver.  It is merged
    into the backing store, and the updates that waited for its id are
    looked at again (READY: the proxies are notified and the entry is
    removed; or still AWAITING_BACKING, for the next missing id). *)
Definition onBackingUpdate (st : Store) (i : ReferenceId) (model : BackingModel)
  : Store :=
  let merged := backingMerge (backingModel st i) model in
  let released := filter (fun e => String.eqb (fst e) i) (waiting st) in
  fold_left (fun st' e => showOrHold st' (waiting st') (snd e)) released
    {| backingStore := (i, merged) :: backingStore st;
       waiting := others (waiting st) i;
       proxyLog := proxyLog st |}.

Definition onDriverMessage (st : Store) (msg : DriverMessage) : Store :=
  match msg with
  | ContainerUpdate data => onContainerUpdate st data
  | BackingUpdate i model => onBackingUpdate st i model
  end.

Definition run (st : Store) (msgs : list DriverMessage) : Store :=
  fold_left onDriverMessage msgs st.





End ReferenceModeStore.

(** * [Particle]: busy and idle

    From [runtime/ts/particle.ts].  [_idle] is a promise and [_idleResolver]
    the function that resolves it: [startBusy] makes the two together (the
    executor of [new Promise] runs at once), so the resolver, once there is
    one, is always that of the current [_idle].  The model keeps whether
    the current [_idle] is resolved and whether [_idleResolver] has been
    set. *)
Module RuntimeParticle.

Record Particle := {
  _busy : Z;
  idleResolved : bool;
  resolverSet : bool
}.

(** The field initialisers: [_idle = Promise.resolve()], [_idleResolver]
    undefined, [_busy = 0]. *)
Definition newParticle : Particle :=
  {| _busy := 0; idleResolved := true; resolverSet := false |}.

Definition busy (p : Particle) : bool := 0 <? _busy p.

Definition startBusy (p : Particle) : Particle :=
  if _busy p =? 0
  then {| _busy := _busy p + 1; idleResolved := false; resolverSet := true |}
  else {| _busy := _busy p + 1; idleResolved := idleResolved p;
          resolverSet := resolverSet p |}.

(** [doneBusy]: [None] when [this._idleResolver()] throws, there being no
    resolver to call. *)
Definition doneBusy (p : Particle) : option Particle :=
  if _busy p - 1 =? 0 then
    if resolverSet p
    then Some {| _busy := _busy p - 1; idleResolved := true;
                 resolverSet := resolverSet p |}
    else None
  else Some {| _busy := _busy p - 1; idleResolved := idleResolved p;
               resolverSet := resolverSet p |}.

Inductive Call := StartBusy | DoneBusy.

Fixpoint run (calls : list Call) (p : Particle) : option Particle :=
  match calls with
  | [] => Some p
  | StartBusy :: rest => run rest (startBusy p)
  | DoneBusy :: rest =>
      match doneBusy p with
      | Some p' => run rest p'
      | None => None
      end
  end.

(** The calls of [startBusy] less those of [doneBusy]. *)
Fixpoint depth (calls : list Call) : Z :=
  match calls with
  | [] => 0
  | StartBusy :: rest => 1 + depth rest
  | DoneBusy :: rest => depth rest - 1
  end.

(** While the particle is busy its [idle] promise is pending and has its
    resolver; otherwise the promise is resolved. *)
Definition busyInv (p : Particle) : Prop :=
  (0 < _busy p -> idleResolved p = false /\ resolverSet p = true)
  /\ (_busy p <= 0 -> idleResolved p = true).

End RuntimeParticle.

(** * Facts *)

(** ** [JsMap] *)
Module JsMapFacts.

Import JsMap.

Lemma get_set_eq (m : t) k v : get (set m k v) k = Some v.
Proof.
  induction m as [|[k' v'] m IH]; simpl.
  - now rewrite String.eqb_refl.
  - destruct (String.eqb k' k) eqn:E; simpl; rewrite E; auto.
Qed.

Lemma get_set_neq (m : t) k k0 v : k <> k0 -> get (set m k v) k0 = get m k0.
Proof.
  intros Hne. induction m as [|[k' v'] m IH]; simpl.
  - destruct (String.eqb_spec k k0); congruence.
  - destruct (String.eqb_spec k' k) as [->|Hk]; simpl.
    + destruct (String.eqb_spec k k0); congruence.
    + destruct (String.eqb_spec k' k0); auto.
Qed.

Lemma get_set (m : t) k k0 v :
  get (set m k v) k0 = if String.eqb k k0 then Some v else get m k0.
Proof.
  destruct (String.eqb_spec k k0) as [->|Hne].
  - apply get_set_eq.
  - now apply get_set_neq.
Qed.

Lemma has_set (m : t) k k0 v :
  has (set m k v) k0 = String.eqb k k0 || has m k0.
Proof.
  unfold has. rewrite get_set. destruct (String.eqb k k0); reflexivity.
Qed.

Lemma has_keys (m : t) k : has m k = true <-> In k (keys m).
Proof.
  unfold has. induction m as [|[k' v'] m IH]; simpl.
  - split; [discriminate | tauto].
  - destruct (String.eqb_spec k' k) as [->|Hk].
    + split; auto.
    + rewrite IH. split; [auto | intros [H|H]; [congruence | exact H]].
Qed.

Lemma has_false_keys (m : t) k : has m k = false <-> ~ In k (keys m).
Proof.
  rewrite <- has_keys. destruct (has m k); split; congruence.
Qed.

Lemma has_get_none (m : t) k : has m k = false <-> get m k = None.
Proof.
  unfold has. destruct (get m k); split; congruence.
Qed.

Lemma get_some_has (m : t) k v : get m k = Some v -> has m k = true.
Proof. unfold has. now intros ->. Qed.

Lemma keys_set (m : t) k v :
  keys (set m k v) = if has m k then keys m else keys m ++ [k].
Proof.
  unfold has. induction m as [|[k' v'] m IH]; simpl; auto.
  destruct (String.eqb_spec k' k) as [->|Hk]; simpl; auto.
  rewrite IH. destruct (get m k); reflexivity.
Qed.

Lemma nodupb_spec (l : list string) : nodupb l = true <-> NoDup l.
Proof.
  induction l as [|k l IH]; simpl.
  - split; [constructor | reflexivity].
  - rewrite andb_true_iff, negb_true_iff, IH. split.
    + intros [Hx Hl]. constructor; auto.
      intros Hin. assert (existsb (String.eqb k) l = true) as E.
      { apply existsb_exists. exists k. split; [exact Hin | apply String.eqb_refl]. }
      congruence.
    + intros Hnd. inversion Hnd as [|? ? Hx Hl]; subst. split; auto.
      destruct (existsb (String.eqb k) l) eqn:E; auto.
      apply existsb_exists in E. destruct E as [x [Hin Hx']].
      apply String.eqb_eq in Hx'. subst x. contradiction.
Qed.

Lemma NoDup_keys_set (m : t) k v : NoDup (keys m) -> NoDup (keys (set m k v)).
Proof.
  intros Hnd. rewrite keys_set. destruct (has m k) eqn:E; auto.
  apply has_false_keys in E.
  apply NoDup_rev in Hnd. rewrite <- (rev_involutive (keys m ++ [k])).
  apply NoDup_rev. rewrite rev_app_distr. simpl. constructor; auto.
  now rewrite <- in_rev.
Qed.

Lemma get_In (m : t) k v : get m k = Some v -> In (k, v) m.
Proof.
  induction m as [|[k' v'] m IH]; simpl; [discriminate|].
  destruct (String.eqb_spec k' k) as [->|Hk].
  - intros [= ->]. now left.
  - intros H. right. auto.
Qed.

Lemma In_get (m : t) k v : NoDup (keys m) -> In (k, v) m -> get m k = Some v.
Proof.
  induction m as [|[k' v'] m IH]; simpl; [tauto|].
  intros Hnd [H|H].
  - injection H as -> ->. now rewrite String.eqb_refl.
  - inversion Hnd as [|? ? Hx Hl]; subst.
    destruct (String.eqb_spec k' k) as [->|Hk]; auto.
    exfalso. apply Hx. change (In (fst (k, v)) (map fst m)). now apply in_map.
Qed.

(** A decidable property of every entry, checked on the list of entries. *)
Lemma forallb_entries (P : string * Z -> bool) (m : t) :
  NoDup (keys m) ->
  (forallb P m = true <-> forall k v, get m k = Some v -> P (k, v) = true).
Proof.
  intros Hnd. rewrite forallb_forall. split.
  - intros H k v Hg. apply H. now apply get_In.
  - intros H [k v] Hin. apply H. now apply In_get.
Qed.

Lemma optionEqb_eq (a b : option Z) : optionEqb a b = true <-> a = b.
Proof.
  destruct a, b; simpl; split; try congruence; try discriminate.
  - intros H. apply Z.eqb_eq in H. now subst.
  - intros [= ->]. apply Z.eqb_refl.
Qed.

Lemma sameb_spec (m1 m2 : t) : sameb m1 m2 = true <-> same m1 m2.
Proof.
  unfold sameb, same. rewrite forallb_forall. split.
  - intros H k.
    destruct (has m1 k) eqn:E1.
    + apply optionEqb_eq, H, in_or_app. left. now apply has_keys.
    + destruct (has m2 k) eqn:E2.
      * apply optionEqb_eq, H, in_or_app. right. now apply has_keys.
      * apply has_get_none in E1, E2. congruence.
  - intros H k _. apply optionEqb_eq, H.
Qed.

End JsMapFacts.

(** ** [CRDTCount]: the invariant and [applyOperation] *)
Module CRDTCountFacts.

Import JsMap JsMapFacts CRDTCount.

Lemma wfP (m : CountData) : wf m = true <-> WF m.
Proof.
  unfold wf. rewrite !andb_true_iff, !nodupb_spec. split.
  - intros [[[Hv Hr] Hfv] Hfr].
    rewrite (forallb_entries _ _ Hv) in Hfv.
    rewrite (forallb_entries _ _ Hr) in Hfr.
    assert (forall k, has (values m) k = has (version m) k) as Hsame.
    { intros k. destruct (has (values m) k) eqn:E1, (has (version m) k) eqn:E2; auto.
      - unfold has in E1. destruct (get (values m) k) as [v|] eqn:G; [|discriminate].
        specialize (Hfv k v G). simpl in Hfv. rewrite E2 in Hfv. discriminate.
      - unfold has in E2. destruct (get (version m) k) as [v|] eqn:G; [|discriminate].
        specialize (Hfr k v G). simpl in Hfr. rewrite E1 in Hfr. discriminate. }
    constructor; auto.
    + intros k v G. specialize (Hfv k v G). simpl in Hfv.
      apply andb_true_iff in Hfv. destruct Hfv as [_ H]. now apply Z.leb_le.
    + intros k v G. specialize (Hfr k v G). simpl in Hfr.
      apply andb_true_iff in Hfr. destruct Hfr as [_ H]. now apply Z.ltb_lt.
  - intros [Hv Hr Hsame Hnn Hpos]. repeat split; auto.
    + apply (forallb_entries _ _ Hv). intros k v G. simpl.
      rewrite <- Hsame, (get_some_has _ _ _ G). simpl.
      apply Z.leb_le. eauto.
    + apply (forallb_entries _ _ Hr). intros k v G. simpl.
      rewrite Hsame, (get_some_has _ _ _ G). simpl.
      apply Z.ltb_lt. eauto.
Qed.

Lemma WF_new : WF newCount.
Proof. apply wfP. reflexivity. Qed.

Lemma WF_valueOf_nonneg m a : WF m -> 0 <= valueOf m a.
Proof.
  intros H. unfold valueOf. destruct (get (values m) a) eqn:G; simpl; [|lia].
  eapply wf_values_nonneg; eauto.
Qed.

Lemma WF_versionOf_nonneg m a : WF m -> 0 <= versionOf m a.
Proof.
  intros H. unfold versionOf. destruct (get (version m) a) eqn:G; simpl; [|lia].
  apply Z.lt_le_incl. eapply wf_version_pos; eauto.
Qed.

(** Writing one key in both maps, with a value that is not negative and a
    version that is positive, keeps the invariant. *)
Lemma WF_set m k x v :
  WF m -> 0 <= x -> 0 < v ->
  WF {| values := set (values m) k x; version := set (version m) k v |}.
Proof.
  intros [Hv Hr Hsame Hnn Hpos] Hx Hv'. constructor; simpl.
  - now apply NoDup_keys_set.
  - now apply NoDup_keys_set.
  - intros k0. rewrite !has_set, Hsame. reflexivity.
  - intros k0 v0. rewrite get_set. destruct (String.eqb k k0); eauto.
    intros [= <-]. exact Hx.
  - intros k0 v0. rewrite get_set. destruct (String.eqb k k0); eauto.
    intros [= <-]. exact Hv'.
Qed.

(** [applyOperation] in one equation: it checks, then writes. *)
Lemma applyOperation_cases (m : CountData) (op : CountOperation) :
  (accepted m op /\ applyOperation m op = (true, applied m op))
  \/ (~ accepted m op /\ applyOperation m op = (false, m)).
Proof.
  unfold accepted, applied, applyOperation, versionOf, valueOf.
  destruct (Z.eqb_spec (from (op_version op)) (orZero (get (version m) (op_actor op))))
    as [E|E]; simpl; [|right; split; [tauto | reflexivity]].
  destruct (Z.leb_spec (to (op_version op)) (from (op_version op))) as [L|L];
    [right; split; [lia | reflexivity]|].
  destruct op as [value a v|a v]; simpl in *.
  - destruct (Z.ltb_spec value 0) as [N|N].
    + right. split; [lia | reflexivity].
    + left. repeat split; auto; lia.
  - left. repeat split; auto; lia.
Qed.

Lemma applyOperation_WF (m : CountData) (op : CountOperation) :
  WF m -> WF (snd (applyOperation m op)).
Proof.
  intros H. destruct (applyOperation_cases m op) as [[[Hf [Ht Hv]] ->]|[_ ->]]; simpl; auto.
  apply WF_set; auto.
  - pose proof (WF_valueOf_nonneg m (op_actor op) H).
    destruct op; simpl in *; lia.
  - pose proof (WF_versionOf_nonneg m (op_actor op) H). lia.
Qed.

(** *** [merge]: what it writes *)

Lemma upd_same (h : Heap) l m : upd h l m l = m.
Proof. unfold upd. now rewrite Nat.eqb_refl. Qed.

Lemma upd_other (h : Heap) l l' m : l' <> l -> upd h l m l' = h l'.
Proof. unfold upd. intros H. now destruct (Nat.eqb_spec l' l). Qed.

Lemma gtb_irrefl (x : Z) : (x >? x) = false.
Proof. rewrite Z.gtb_ltb. apply Z.ltb_irrefl. Qed.

(** The first loop writes to the receiver only. *)
Lemma mergeOther_frame this other ks : forall h tc oc l,
  l <> this -> snd (mergeOther this other ks h tc oc) l = h l.
Proof.
  induction ks as [|key ks IH]; intros h tc oc l Hl; simpl; auto.
  destruct (_ >? _).
  - destruct (_ >=? _); simpl; auto.
  - destruct (_ >? _); auto.
    destruct (_ >=? _); simpl; auto.
    rewrite IH by exact Hl. now apply upd_other.
Qed.

(** Merged with itself, an object is not written at all. *)
Lemma mergeOther_self x ks : forall h tc oc,
  snd (mergeOther x x ks h tc oc) = h.
Proof.
  induction ks as [|key ks IH]; intros h tc oc; simpl; auto.
  rewrite !gtb_irrefl. apply IH.
Qed.

Lemma merge_heap (h : Heap) this other :
  snd (merge h this other)
  = snd (mergeOther this other (keys (values (h other))) h [] []).
Proof.
  unfold merge.
  destruct (mergeOther this other (keys (values (h other))) h [] []) as [[c| |] h'];
    simpl; auto.
  destruct (mergeThis _ _ _ _); reflexivity.
Qed.

Lemma mergeOther_WF_at this other ks : forall h tc oc,
  WF (h this) -> forall l, WF (h l) -> WF (snd (mergeOther this other ks h tc oc) l).
Proof.
  induction ks as [|key ks IH]; intros h tc oc Hwf l Hl; simpl; auto.
  destruct (Z.gtb_spec (orZero (get (values (h this)) key))
                       (orZero (get (values (h other)) key))) as [G1|G1].
  - destruct (_ >=? _); simpl; auto.
  - destruct (Z.gtb_spec (orZero (get (values (h other)) key))
                         (orZero (get (values (h this)) key))) as [G2|G2]; auto.
    destruct (Z.geb_spec (orZero (get (version (h this)) key))
                         (orZero (get (version (h other)) key))) as [G3|G3];
      simpl; auto.
    pose proof (WF_valueOf_nonneg (h this) key Hwf) as Hx.
    pose proof (WF_versionOf_nonneg (h this) key Hwf) as Hv.
    unfold valueOf, versionOf in *.
    assert (WF {| values := set (values (h this)) key
                              (orZero (get (values (h other)) key));
                  version := set (version (h this)) key
                               (orZero (get (version (h other)) key)) |}) as Hnew
      by (apply WF_set; auto; lia).
    apply IH.
    + now rewrite upd_same.
    + unfold upd. now destruct (Nat.eqb l this).
Qed.

Lemma mergeOther_WF this other ks : forall h tc oc,
  (forall l, WF (h l)) -> forall l, WF (snd (mergeOther this other ks h tc oc) l).
Proof. intros h tc oc H l. now apply mergeOther_WF_at. Qed.

(** Every object of a heap a program can build satisfies the invariant. *)
Lemma reachable_WF (h : Heap) : reachable h -> forall l, WF (h l).
Proof.
  induction 1 as [|h l0 op _ IH|h this other _ IH]; intros l.
  - apply WF_new.
  - simpl. unfold upd. destruct (Nat.eqb l l0); auto.
    now apply applyOperation_WF.
  - rewrite merge_heap. now apply mergeOther_WF.
Qed.

(** *** [merge]: when it throws *)



(** *** The properties of [applyOperation] and [merge] *)

(** C5, as the code has it: a multi-increment with a negative value is
    rejected, the model unchanged; a multi-increment of 0 whose [from] is the
    model's version and whose [to] is greater is accepted: [applyOperation]
    returns true, the actor's value is stored as it was (0 when absent) and
    the actor's version becomes [to]. *)
Theorem multiIncrement_rejected_only_below_zero
  (m : CountData) (value : Z) (a : string) (f t : Z) :
  (value < 0 -> applyOperation m (newMultiIncrement value a f t) = (false, m))
  /\ (f = versionOf m a -> t > f ->
      applyOperation m (newMultiIncrement 0 a f t)
      = (true, {| values := set (values m) a (valueOf m a);
                  version := set (version m) a t |})).
Proof.
  split.
  - intros Hneg.
    destruct (applyOperation_cases m (newMultiIncrement value a f t))
      as [[[_ [_ H]] _]|[_ E]]; [simpl in H; lia | exact E].
  - intros Hf Ht.
    destruct (applyOperation_cases m (newMultiIncrement 0 a f t))
      as [[_ E]|[Hn _]].
    + rewrite E. unfold applied; simpl. now rewrite Z.add_0_r.
    + exfalso. apply Hn. unfold accepted; simpl. repeat split; auto; lia.
Qed.

(** After one increment: a multi-increment of -3 is refused, one of 0 moves
    the version from 1 to 2 and leaves the value at 1. *)
Lemma multiIncrement_rejected_only_below_zero_witness :
  applyOperation countAfterIncrement (newMultiIncrement (-3) "me" 1 2)
  = (false, countAfterIncrement)
  /\ applyOperation countAfterIncrement (newMultiIncrement 0 "me" 1 2)
     = (true, {| values := [("me", 1)]; version := [("me", 2)] |}).
Proof.
  pose proof (multiIncrement_rejected_only_below_zero
                countAfterIncrement (-3) "me" 1 2) as [Hneg Hzero].
  split.
  - apply Hneg. lia.
  - rewrite Hzero; [reflexivity | reflexivity | lia].
Defined.

(** A value of 0: on a fresh model a multi-increment of 0 from version 0 to
    version 1 returns true and writes both maps. *)
Lemma multiIncrement_zero_is_applied :
  applyOperation newCount (newMultiIncrement 0 "me" 0 1)
  = (true, {| values := [("me", 0)]; version := [("me", 1)] |}).
Proof. reflexivity. Qed.

(** C10: [applyOperation] is atomic: when it returns false, the model (both
    maps) is what it was; every check comes before the first write. *)
Theorem applyOperation_false_unchanged (m : CountData) (op : CountOperation) :
  fst (applyOperation m op) = false -> snd (applyOperation m op) = m.
Proof.
  destruct (applyOperation_cases m op) as [[_ E]|[_ E]]; rewrite E; simpl;
    [discriminate | reflexivity].
Qed.

(** 'does not resolve duplicated ops from the same actor'. *)
Lemma applyOperation_false_unchanged_witness :
  snd (applyOperation countAfterIncrement (incrementOp newCount "me"))
  = countAfterIncrement.
Proof.
  apply (applyOperation_false_unchanged countAfterIncrement
           (incrementOp newCount "me")).
  reflexivity.
Defined.

(** C9: [merge] never writes to its argument: after [this.merge(other)],
    however the call ends, the model of [other] is what it was, and so is
    every object but the receiver; what [other] lacks is only emitted, as the
    operations of [otherChange]. *)
Theorem merge_leaves_other_unchanged (h : Heap) (this other : loc) :
  snd (merge h this other) other = h other
  /\ forall l, l <> this -> snd (merge h this other) l = h l.
Proof.
  rewrite merge_heap. split.
  - destruct (Nat.eq_dec other this) as [->|Hne].
    + now rewrite mergeOther_self.
    + now apply mergeOther_frame.
  - intros l Hl. now apply mergeOther_frame.
Qed.



Lemma reachable_twoReplicas opX opY : reachable (twoReplicas opX opY).
Proof. unfold twoReplicas. apply reach_apply, reach_apply, reach_new. Qed.

(** C1 at a failing input.  One replica applies MultiIncrement(5, 'me', 0, 2),
    the other MultiIncrement(5, 'me', 0, 1).  The two values are equal, so
    neither branch of the first loop of [merge] is taken: the call returns
    two empty lists of operations and writes nothing, and the two models
    still differ in the version of 'me' once [otherChange] has been
    applied. *)
Theorem merge_equal_values_keeps_versions_apart :
  reachable heapEqualValues
  /\ merge heapEqualValues 0%nat 1%nat
     = (Normal {| modelChange := []; otherChange := [] |}, heapEqualValues)
  /\ fst (mergeAndForward heapEqualValues 0%nat 1%nat) = Normal []
  /\ getData (snd (mergeAndForward heapEqualValues 0%nat 1%nat) 0%nat)
     = {| values := [("me", 5)]; version := [("me", 2)] |}
  /\ getData (snd (mergeAndForward heapEqualValues 0%nat 1%nat) 1%nat)
     = {| values := [("me", 5)]; version := [("me", 1)] |}
  /\ ~ sameData (snd (mergeAndForward heapEqualValues 0%nat 1%nat) 0%nat)
                (snd (mergeAndForward heapEqualValues 0%nat 1%nat) 1%nat).
Proof.
  split; [apply reachable_twoReplicas|].
  repeat split; try reflexivity.
  intros [_ Hver]. specialize (Hver "me"). vm_compute in Hver. discriminate Hver.
Qed.

(** The same gap with a value of 0: the receiver is fresh, the argument has
    applied MultiIncrement(0, 'me', 0, 1).  [merge] reads 0 on both sides for
    'me' and adopts nothing, so the receiver never learns the key. *)
Lemma merge_zero_value_is_not_adopted :
  reachable heapZeroValue
  /\ fst (mergeAndForward heapZeroValue 0%nat 1%nat) = Normal []
  /\ getData (snd (mergeAndForward heapZeroValue 0%nat 1%nat) 0%nat) = newCount
  /\ getData (snd (mergeAndForward heapZeroValue 0%nat 1%nat) 1%nat)
     = {| values := [("me", 0)]; version := [("me", 1)] |}.
Proof.
  split; [apply reach_apply, reach_new|]. repeat split.
Qed.

(** *** [merge]: what it emits, and what the argument becomes *)

Lemma valueOf_set m k x v k0 :
  valueOf {| values := set (values m) k x; version := set (version m) k v |} k0
  = if String.eqb k k0 then x else valueOf m k0.
Proof.
  unfold valueOf. simpl. rewrite get_set. now destruct (String.eqb k k0).
Qed.

Lemma versionOf_set m k x v k0 :
  versionOf {| values := set (values m) k x; version := set (version m) k v |} k0
  = if String.eqb k k0 then v else versionOf m k0.
Proof.
  unfold versionOf. simpl. rewrite get_set. now destruct (String.eqb k k0).
Qed.

Lemma liftOps_ext x x' y ks :
  (forall k, In k ks ->
     (if valueOf x k >? valueOf y k then [liftOp x y k] else [])
     = (if valueOf x' k >? valueOf y k then [liftOp x' y k] else [])) ->
  liftOps x y ks = liftOps x' y ks.
Proof.
  intros H. unfold liftOps. induction ks as [|k ks IH]; simpl; auto.
  rewrite (H k (or_introl eq_refl)). f_equal. apply IH.
  intros k' Hin. apply H. now right.
Qed.

(** The first loop, when it ends normally: the operations it has emitted
    for the argument, the versions it has compared, and the receiver it
    leaves. *)
Lemma mergeOther_normal this other ks : this <> other ->
  forall h tc oc c h',
  mergeOther this other ks h tc oc = (Normal c, h') ->
  h' other = h other
  /\ otherChange c = oc ++ liftOps (h this) (h other) ks
  /\ (forall k, In k ks -> valueOf (h this) k > valueOf (h other) k ->
                versionOf (h other) k < versionOf (h this) k)
  /\ (forall k,
        get (values (h' this)) k
        = if existsb (String.eqb k) ks
             && (valueOf (h other) k >? valueOf (h this) k)
          then Some (valueOf (h other) k) else get (values (h this)) k)
  /\ (forall k,
        get (version (h' this)) k
        = if existsb (String.eqb k) ks
             && (valueOf (h other) k >? valueOf (h this) k)
          then Some (versionOf (h other) k) else get (version (h this)) k).
Proof.
  intros Hne. induction ks as [|key ks IH]; intros h tc oc c h'; simpl.
  - intros [= <- <-]. simpl. rewrite app_nil_r. repeat split; auto. tauto.
  - fold (valueOf (h this) key) (valueOf (h other) key)
         (versionOf (h this) key) (versionOf (h other) key).
    destruct (Z.gtb_spec (valueOf (h this) key) (valueOf (h other) key)) as [G1|G1].
    + destruct (Z.geb_spec (versionOf (h other) key) (versionOf (h this) key))
        as [G3|G3]; [discriminate|].
      intros H. apply IH in H. destruct H as [Ho [Hc [Hv [Hval Hver]]]].
      split; [exact Ho|]. split; [|split; [|split]].
      * rewrite Hc, <- app_assoc. reflexivity.
      * intros k [<-|Hin] Hk; [lia | auto].
      * intros k. rewrite Hval.
        destruct (String.eqb_spec k key) as [->|Hk]; simpl; auto.
        destruct (Z.gtb_spec (valueOf (h other) key) (valueOf (h this) key));
          [lia|]. now rewrite andb_false_r.
      * intros k. rewrite Hver.
        destruct (String.eqb_spec k key) as [->|Hk]; simpl; auto.
        destruct (Z.gtb_spec (valueOf (h other) key) (valueOf (h this) key));
          [lia|]. now rewrite andb_false_r.
    + destruct (Z.gtb_spec (valueOf (h other) key) (valueOf (h this) key)) as [G2|G2].
      * destruct (Z.geb_spec (versionOf (h this) key) (versionOf (h other) key))
          as [G3|G3]; [discriminate|].
        intros H. apply IH in H.
        assert (other <> this) as Hne' by congruence.
        rewrite upd_same, (upd_other _ _ _ _ Hne') in H.
        destruct H as [Ho [Hc [Hv [Hval Hver]]]].
        split; [exact Ho|]. split; [|split; [|split]].
        -- rewrite Hc. f_equal. simpl.
           destruct (Z.gtb_spec (valueOf (h this) key) (valueOf (h other) key));
             [lia|]. simpl. apply liftOps_ext. intros k _.
           unfold liftOp. rewrite valueOf_set, versionOf_set.
           destruct (String.eqb_spec key k) as [<-|Hk]; auto.
           rewrite gtb_irrefl.
           destruct (Z.gtb_spec (valueOf (h this) key) (valueOf (h other) key));
             [lia | reflexivity].
        -- intros k [<-|Hin] Hk; [lia|].
           destruct (String.eqb_spec key k) as [<-|Hkk]; [lia|].
           specialize (Hv k Hin). rewrite valueOf_set, versionOf_set in Hv.
           destruct (String.eqb_spec key k); [contradiction|]. auto.
        -- intros k. rewrite Hval, valueOf_set. simpl.
           rewrite get_set, (String.eqb_sym k key).
           destruct (String.eqb_spec key k) as [<-|Hk]; simpl.
           ++ rewrite gtb_irrefl, andb_false_r.
              destruct (Z.gtb_spec (valueOf (h other) key) (valueOf (h this) key));
                [reflexivity | lia].
           ++ reflexivity.
        -- intros k. rewrite Hver, valueOf_set. simpl.
           rewrite get_set, (String.eqb_sym k key).
           destruct (String.eqb_spec key k) as [<-|Hk]; simpl.
           ++ rewrite gtb_irrefl, andb_false_r.
              destruct (Z.gtb_spec (valueOf (h other) key) (valueOf (h this) key));
                [reflexivity | lia].
           ++ reflexivity.
      * intros H. apply IH in H. destruct H as [Ho [Hc [Hv [Hval Hver]]]].
        split; [exact Ho|]. split; [|split; [|split]].
        -- rewrite Hc. reflexivity.
        -- intros k [<-|Hin] Hk; [lia | auto].
        -- intros k. rewrite Hval.
           destruct (String.eqb_spec k key) as [->|Hk]; simpl; auto.
           destruct (Z.gtb_spec (valueOf (h other) key) (valueOf (h this) key));
             [lia|]. now rewrite andb_false_r.
        -- intros k. rewrite Hver.
           destruct (String.eqb_spec k key) as [->|Hk]; simpl; auto.
           destruct (Z.gtb_spec (valueOf (h other) key) (valueOf (h this) key));
             [lia|]. now rewrite andb_false_r.
Qed.

Lemma existsb_keys (m : JsMap.t) k : existsb (String.eqb k) (keys m) = has m k.
Proof.
  destruct (has m k) eqn:E.
  - apply existsb_exists. exists k. split; [now apply has_keys | apply String.eqb_refl].
  - destruct (existsb (String.eqb k) (keys m)) eqn:E'; auto.
    apply existsb_exists in E'. destruct E' as [k' [Hin Hk]].
    apply String.eqb_eq in Hk. subst k'. apply has_keys in Hin. congruence.
Qed.

Lemma mergeOther_self_full x ks : forall h tc oc,
  mergeOther x x ks h tc oc
  = (Normal {| modelChange := tc; otherChange := oc |}, h).
Proof.
  induction ks as [|key ks IH]; intros h tc oc; simpl; auto.
  rewrite !gtb_irrefl. apply IH.
Qed.

Lemma mergeThis_present x y ks oc :
  (forall k, In k ks -> has (values y) k = true) ->
  mergeThis x y ks oc = Normal oc.
Proof.
  induction ks as [|key ks IH]; intros H; simpl; auto.
  rewrite (H key (or_introl eq_refl)). apply IH. intros k Hin. apply H. now right.
Qed.

Lemma has_get_some (m : JsMap.t) k : has m k = true -> get m k = Some (orZero (get m k)).
Proof. unfold has. destruct (get m k); [reflexivity | discriminate]. Qed.

Lemma sameDatab_spec (m1 m2 : CountData) :
  sameDatab m1 m2 = true <-> sameData m1 m2.
Proof.
  unfold sameDatab, sameData. now rewrite andb_true_iff, !sameb_spec.
Qed.

(** The test 'merges two models with counts from the multiple actors': the
    operations come out in the order of the keys of the two maps, the
    receiver shows 59, and the argument equals the receiver once it has
    applied the two operations of [otherChange]. *)
Example merge_multiple_actors :
  fst (merge heapMultipleActors 0%nat 1%nat)
  = Normal {| modelChange := [newMultiIncrement 5 "b" 0 1;
                              newMultiIncrement 10 "e" 1 2];
              otherChange := [newMultiIncrement 3 "c" 1 2;
                              newMultiIncrement 6 "a" 0 1] |}
  /\ getParticleView (snd (merge heapMultipleActors 0%nat 1%nat) 0%nat) = 59
  /\ fst (mergeAndForward heapMultipleActors 0%nat 1%nat) = Normal [true; true]
  /\ sameData (snd (mergeAndForward heapMultipleActors 0%nat 1%nat) 0%nat)
              (snd (mergeAndForward heapMultipleActors 0%nat 1%nat) 1%nat).
Proof.
  repeat split; try reflexivity; apply sameb_spec; reflexivity.
Qed.

(** The tests 'merges two models with counts from different actors', 'merges
    two models with counts from the same actor' and 'throws when values
    appear to have been decremented'. *)
Example merge_tests :
  fst (merge (twoReplicas (newMultiIncrement 7 "me" 0 1)
                          (newMultiIncrement 4 "them" 0 1)) 0%nat 1%nat)
  = Normal {| modelChange := [newMultiIncrement 4 "them" 0 1];
              otherChange := [newMultiIncrement 7 "me" 0 1] |}
  /\ fst (merge (twoReplicas (newMultiIncrement 7 "me" 0 2)
                             (newMultiIncrement 4 "me" 0 1)) 0%nat 1%nat)
     = Normal {| modelChange := [];
                 otherChange := [newMultiIncrement 3 "me" 1 2] |}
  /\ fst (merge (twoReplicas (newMultiIncrement 7 "me" 0 1)
                             (newMultiIncrement 4 "me" 0 2)) 0%nat 1%nat)
     = Throw DivergentVersions.
Proof. repeat split. Qed.

(** *** [merge] on models that satisfy the invariant

    It returns, or it throws the divergence error: the operation it pushes
    for a key of the receiver always has its version, and the argument never
    has a version without a value. *)

Lemma mergeOther_completion this other ks : forall h tc oc,
  (exists c, fst (mergeOther this other ks h tc oc) = Normal c)
  \/ fst (mergeOther this other ks h tc oc) = Throw DivergentVersions.
Proof.
  induction ks as [|key ks IH]; intros h tc oc; simpl; [eauto|].
  destruct (_ >? _).
  - destruct (_ >=? _); simpl; auto.
  - destruct (_ >? _); auto. destruct (_ >=? _); simpl; auto.
Qed.

Lemma mergeThis_returns x y ks : WF x -> WF y ->
  (forall k, In k ks -> has (values x) k = true) ->
  forall oc, exists ops, mergeThis x y ks oc = Normal ops.
Proof.
  intros Hx Hy. induction ks as [|key ks IH]; intros Hks oc; simpl; [eauto|].
  assert (forall k, In k ks -> has (values x) k = true) as Hks'
    by (intros k Hin; apply Hks; now right).
  destruct (has (values y) key) eqn:Ey; [now apply IH|].
  rewrite <- (wf_same_keys _ Hy), Ey.
  pose proof (Hks key (or_introl eq_refl)) as Ev.
  pose proof Ev as Er. rewrite (wf_same_keys _ Hx) in Er.
  rewrite (has_get_some _ _ Ev), (has_get_some _ _ Er). now apply IH.
Qed.

(** X9: on two objects that satisfy the class invariant [merge] either
    returns its two changes or throws the error of divergent versions: it
    throws nothing else, the error of a version without a value not being
    reachable. *)
Lemma merge_returns_or_diverges (h : Heap) (this other : loc) :
  wf (h this) = true -> wf (h other) = true ->
  (exists c, fst (merge h this other) = Normal c)
  \/ fst (merge h this other) = Throw DivergentVersions.
Proof.
  intros Hx Hy. apply wfP in Hx. apply wfP in Hy. unfold merge.
  pose proof (mergeOther_completion this other (keys (values (h other))) h [] [])
    as Hc.
  pose proof (mergeOther_WF_at this other (keys (values (h other))) h [] [] Hx)
    as Hwf.
  destruct (mergeOther this other (keys (values (h other))) h [] [])
    as [[c| |] h1] eqn:E1; simpl in *.
  - left.
    destruct (mergeThis_returns (h1 this) (h1 other) (keys (values (h1 this)))
                (Hwf this Hx) (Hwf other Hy)
                (fun k Hin => proj2 (has_keys _ k) Hin) (otherChange c))
      as [ops ->].
    simpl. eauto.
  - destruct Hc as [[c Hc]|Hc]; [discriminate | right; exact Hc].
  - destruct Hc as [[c Hc]|Hc]; discriminate.
Qed.

End CRDTCountFacts.

(** ** Refinement expressions and ranges *)
Module RefinementFacts.

Import Refinement.

Lemma fromAst_wellTyped (n : RefinementExpressionNode) td : forall e,
  fromAst n td = Some e -> wellTyped e = true.
Proof.
  induction n as [l IHl r IHr op|x IHx op|v|v|v]; intros e; simpl.
  - destruct (fromAst l td) as [l'|]; [|discriminate].
    destruct (fromAst r td) as [r'|]; [|discriminate].
    destruct (validateOperandCompatibility op _) eqn:V; [|discriminate].
    intros [= <-]. simpl. now rewrite (IHl _ eq_refl), (IHr _ eq_refl), V.
  - destruct (fromAst x td) as [x'|]; [|discriminate].
    destruct (validateOperandCompatibility _ _) eqn:V; [|discriminate].
    intros [= <-]. simpl. now rewrite (IHx _ eq_refl), V.
  - destruct (td v); [|discriminate]. now intros [= <-].
  - now intros [= <-].
  - now intros [= <-].
Qed.

(** What [normalise] returns has no [not] left over a constant or over a
    [not]. *)
Lemma normaliseBinary_negationReduced l r op e :
  negationReduced l = true -> negationReduced r = true ->
  normaliseBinary l r op = Some e -> negationReduced e = true.
Proof.
  intros Hl Hr. unfold normaliseBinary, simplifyPrimitiveBinary.
  destruct l as [l1 l2 lo|lx lo|lv lt|lv|[|]], r as [r1 r2 ro|rx ro|rv rt|rv|[|]];
    destruct op; simpl in *; intros [= <-]; simpl;
    rewrite ?Hl, ?Hr; reflexivity.
Qed.

Lemma normaliseUnary_negationReduced x op e :
  negationReduced x = true ->
  normaliseUnary x op = Some e -> negationReduced e = true.
Proof.
  intros Hx. unfold normaliseUnary, simplifyPrimitiveUnary.
  destruct x as [x1 x2 xo|xx xo|xv xt|xv|xv]; destruct op; simpl in *;
    try (intros [= <-]; simpl; rewrite ?Hx; reflexivity).
  destruct xo; simpl in *; intros [= <-]; simpl;
    try (rewrite Hx; reflexivity).
  apply andb_true_iff in Hx. tauto.
Qed.

Lemma normalise_negationReduced (x : RefinementExpression) : forall e,
  normalise x = Some e -> negationReduced e = true.
Proof.
  induction x as [l IHl r IHr op|x IHx op|v t|v|v]; intros e; simpl;
    try (intros [= <-]; reflexivity).
  - destruct (normalise l) as [l'|]; [|discriminate].
    destruct (normalise r) as [r'|]; [|discriminate].
    apply normaliseBinary_negationReduced; auto.
  - destruct (normalise x) as [x'|]; [|discriminate].
    apply normaliseUnary_negationReduced; auto.
Qed.

(** *** [normalise] returns on every expression the constructors build *)

Lemma wellTyped_binary l r op :
  wellTyped l = true -> wellTyped r = true ->
  validateOperandCompatibility op [evalType l; evalType r] = true ->
  wellTyped (BinaryExpression l r op) = true.
Proof. intros Hl Hr V. simpl. now rewrite Hl, Hr, V. Qed.

Lemma validate_swapped op a b :
  validateOperandCompatibility op [a; b] = true ->
  validateOperandCompatibility (swappedOp op) [b; a] = true.
Proof. destruct op, a, b; simpl; auto. Qed.

Lemma validate_logical op a b :
  op = AND \/ op = OR ->
  validateOperandCompatibility op [a; b] = true ->
  a = TBoolean /\ b = TBoolean.
Proof. intros [->| ->]; destruct a, b; simpl; auto; discriminate. Qed.

Lemma validate_unary op a :
  validateOperandCompatibility op [a] = true ->
  (op = NOT /\ a = TBoolean) \/ (op = NEG /\ a = TNumber).
Proof. destruct op, a; simpl; auto; discriminate. Qed.

Ltac solve_this :=
  eexists; split; [reflexivity|]; split;
  [reflexivity | apply wellTyped_binary; assumption].

Ltac solve_child :=
  eexists; split; [reflexivity|]; split;
  [match goal with H : evalType _ = TBoolean |- _ => exact H end | assumption].

Ltac solve_folded :=
  eexists; split; [reflexivity|]; split; reflexivity.

Lemma normaliseBinary_total l r op :
  wellTyped l = true -> wellTyped r = true ->
  validateOperandCompatibility op [evalType l; evalType r] = true ->
  exists e, normaliseBinary l r op = Some e
            /\ evalType e = opEvalType op /\ wellTyped e = true.
Proof.
  intros Hl Hr V. pose proof (validate_swapped _ _ _ V) as Vs.
  assert (op = AND \/ op = OR -> evalType l = TBoolean /\ evalType r = TBoolean)
    as Hlog by (intros H; exact (validate_logical _ _ _ H V)).
  unfold normaliseBinary, simplifyPrimitiveBinary.
  destruct l as [l1 l2 lo|lx lo|lv lt|lv|[|]], r as [r1 r2 ro|rx ro|rv rt|rv|[|]];
    destruct op;
    try (destruct (Hlog (or_introl eq_refl)) as [Tl Tr]);
    try (destruct (Hlog (or_intror eq_refl)) as [Tl Tr]);
    try discriminate; try discriminate V;
    first [solve_folded | solve_this | solve_child].
Qed.

Lemma normaliseUnary_total x op :
  wellTyped x = true ->
  validateOperandCompatibility op [evalType x] = true ->
  exists e, normaliseUnary x op = Some e
            /\ evalType e = opEvalType op /\ wellTyped e = true.
Proof.
  intros Hx V. unfold normaliseUnary, simplifyPrimitiveUnary.
  destruct (validate_unary _ _ V) as [[-> T]|[-> T]].
  - destruct x as [x1 x2 xo|xx xo|xv xt|xv|xv]; try discriminate T;
      try (eexists; split; [reflexivity|]; split;
           [reflexivity | simpl in *; now rewrite ?Hx, ?T]).
    destruct xo; try discriminate T;
      try (eexists; split; [reflexivity|]; split;
           [reflexivity | simpl in *; now rewrite ?Hx]).
    simpl in Hx. apply andb_true_iff in Hx. destruct Hx as [Hxx Vx].
    destruct (validate_unary _ _ Vx) as [[_ Tx]|[E _]]; [|discriminate E].
    eexists; split; [reflexivity|]. split; assumption.
  - destruct x as [x1 x2 xo|xx xo|xv xt|xv|xv]; try discriminate T;
      eexists; split; try reflexivity; split;
      try reflexivity; simpl in *; now rewrite ?Hx, ?T.
Qed.

Lemma normalise_wellTyped (x : RefinementExpression) :
  wellTyped x = true ->
  exists e, normalise x = Some e
            /\ evalType e = evalType x /\ wellTyped e = true.
Proof.
  induction x as [l IHl r IHr op|x IHx op|v t|v|v]; simpl; intros H;
    try (eexists; repeat split; reflexivity).
  - apply andb_true_iff in H. destruct H as [H V].
    apply andb_true_iff in H. destruct H as [Hl Hr].
    destruct (IHl Hl) as [l' [-> [Tl Wl]]]. destruct (IHr Hr) as [r' [-> [Tr Wr]]].
    apply normaliseBinary_total; auto. now rewrite Tl, Tr.
  - apply andb_true_iff in H. destruct H as [Hx V].
    destruct (IHx Hx) as [x' [-> [Tx Wx]]].
    apply normaliseUnary_total; auto. now rewrite Tx.
Qed.

(** Every expression built by [fromAst] has a normal form. *)
Lemma normalise_total n td e :
  fromAst n td = Some e -> exists e', normalise e = Some e'.
Proof.
  intros H. apply fromAst_wellTyped in H.
  destruct (normalise_wellTyped e H) as [e' [E _]]. eauto.
Qed.

(** *** The identity laws and the range of a refinement *)

(** C7: normalisation applies the boolean identity laws.  For every
    expression [x] that has a normal form [x'] (every expression the
    constructors build has one, [normalise_total]): [x and true] normalises
    to [x'], [x and false] to [false], [x or true] to [true], [x or false]
    to [x'], and [not (not x)] to [x']. *)
Theorem normalise_identity_laws (x x' : RefinementExpression) :
  normalise x = Some x' ->
  normalise (BinaryExpression x (BooleanPrimitive true) AND) = Some x'
  /\ normalise (BinaryExpression x (BooleanPrimitive false) AND)
     = Some (BooleanPrimitive false)
  /\ normalise (BinaryExpression x (BooleanPrimitive true) OR)
     = Some (BooleanPrimitive true)
  /\ normalise (BinaryExpression x (BooleanPrimitive false) OR) = Some x'
  /\ normalise (UnaryExpression (UnaryExpression x NOT) NOT) = Some x'.
Proof.
  intros H. pose proof (normalise_negationReduced _ _ H) as Hn.
  simpl. rewrite H.
  unfold normaliseBinary, simplifyPrimitiveBinary, normaliseUnary,
    simplifyPrimitiveUnary.
  destruct x' as [l r op|y op|v t|v|[|]]; simpl; repeat split; try reflexivity.
  destruct op; try reflexivity.
  simpl in Hn. apply andb_true_iff in Hn. destruct Hn as [_ Hy].
  destruct y as [yl yr yo|z zo|v t|v|v]; try reflexivity; try discriminate Hy.
  destruct zo; try reflexivity; discriminate Hy.
Qed.

(** The laws on [age >= 18]. *)
Lemma normalise_identity_laws_witness :
  normalise (BinaryExpression adultExpr (BooleanPrimitive true) AND) = Some adultExpr
  /\ normalise (BinaryExpression adultExpr (BooleanPrimitive false) AND)
     = Some (BooleanPrimitive false)
  /\ normalise (BinaryExpression adultExpr (BooleanPrimitive true) OR)
     = Some (BooleanPrimitive true)
  /\ normalise (BinaryExpression adultExpr (BooleanPrimitive false) OR)
     = Some adultExpr
  /\ normalise (UnaryExpression (UnaryExpression adultExpr NOT) NOT)
     = Some adultExpr.
Proof.
  apply (normalise_identity_laws adultExpr adultExpr). reflexivity.
Defined.

(** C6: for [(age >= 18) and (age < 65)] over the Number field [age],
    [Range.fromExpression] gives the single segment [[18, 65)], closed at 18
    and open at 65 (on the expression as built, and on its normal form), and
    the complement of that range in the infinite range is the two segments
    [(-inf, 18)] and [[65, +inf)]. *)
Theorem age_range_and_complement :
  (e <- fromAst ageNode ageTypeData ;; fromExpression e) = Some [ageSegment]
  /\ (e <- fromAst ageNode ageTypeData ;; n <- normalise e ;; fromExpression n)
     = Some [ageSegment]
  /\ complementOf [ageSegment] = Some ageComplement.
Proof. repeat split; vm_compute; reflexivity. Qed.

(** ['(num + (1 + 3) < 4) and True' => '(num + 4) < 4']. *)
Example normalise_num_example :
  (e <- fromAst numNode numTypeData ;; normalise e)
  = Some (BinaryExpression
            (BinaryExpression (FieldNamePrimitive "num" TNumber)
               (NumberPrimitive 4%float) ADD)
            (NumberPrimitive 4%float) LT).
Proof. vm_compute. reflexivity. Qed.

(** A segment of no width is valid only when closed at both ends. *)
Example zero_width_segments :
  openOpen 5%float 5%float = None
  /\ closedOpen 5%float 5%float = None
  /\ openClosed 5%float 5%float = None
  /\ closedClosed 5%float 5%float
     = Some {| from := {| val := 5%float; kind := closed |};
               to := {| val := 5%float; kind := closed |} |}.
Proof. repeat split; vm_compute; reflexivity. Qed.

End RefinementFacts.

(** ** [Recipe.normalize] *)
Module RecipeFacts.

Import Recipe.








(** The recipe with distinct handle ids normalises: its verbs come out
    sorted and it is frozen. *)
Example normalize_distinct_ids :
  normalize idsOnly distinctIds duplicateHandles None
  = (true,
     {| _particles := []; _handles := [0%nat; 1%nat]; _slots := [];
        _name := None; _localName := None; annotation := None;
        _connectionConstraints := []; _obligations := [];
        _verbs := ["a"; "b"]; _search := None; _patterns := [];
        listsFrozen := true; frozen := true |},
     distinctIds, None).
Proof. reflexivity. Qed.

End RecipeFacts.

(** ** The reference-mode store *)
Module ReferenceModeStoreFacts.

Import ReferenceModeStore.


















End ReferenceModeStoreFacts.

(** * Laws *)

(** ** [CRDTCount]: operations and merges, composed *)
Module CRDTCountLaws.

Import JsMap JsMapFacts CRDTCount CRDTCountFacts.

Lemma versionOf_applied m op k :
  versionOf (applied m op) k
  = if String.eqb (op_actor op) k then to (op_version op) else versionOf m k.
Proof. unfold applied. apply versionOf_set. Qed.

Lemma valueOf_applied m op k :
  valueOf (applied m op) k
  = if String.eqb (op_actor op) k then valueOf m (op_actor op) + amount op
    else valueOf m k.
Proof. unfold applied. apply valueOf_set. Qed.

(** *** Operations of different actors *)

Lemma accepted_applied_other m op1 op2 :
  op_actor op1 <> op_actor op2 ->
  (accepted (applied m op1) op2 <-> accepted m op2).
Proof.
  intros Hne. unfold accepted. rewrite versionOf_applied.
  destruct (String.eqb_spec (op_actor op1) (op_actor op2)); [contradiction|].
  reflexivity.
Qed.

Lemma get_values_applied m op k :
  get (values (applied m op)) k
  = if String.eqb (op_actor op) k
    then Some (valueOf m (op_actor op) + amount op) else get (values m) k.
Proof. unfold applied. simpl. apply get_set. Qed.

Lemma get_version_applied m op k :
  get (version (applied m op)) k
  = if String.eqb (op_actor op) k
    then Some (to (op_version op)) else get (version m) k.
Proof. unfold applied. simpl. apply get_set. Qed.

Lemma sameData_applied_swap m op1 op2 :
  op_actor op1 <> op_actor op2 ->
  sameData (applied (applied m op1) op2) (applied (applied m op2) op1).
Proof.
  intros Hne. split; intros k.
  - rewrite !get_values_applied, !valueOf_applied.
    destruct (String.eqb_spec (op_actor op1) (op_actor op2)); [contradiction|].
    destruct (String.eqb_spec (op_actor op2) (op_actor op1)); [congruence|].
    destruct (String.eqb_spec (op_actor op2) k) as [E2|];
      destruct (String.eqb_spec (op_actor op1) k) as [E1|]; try reflexivity.
    congruence.
  - rewrite !get_version_applied.
    destruct (String.eqb_spec (op_actor op2) k) as [E2|];
      destruct (String.eqb_spec (op_actor op1) k) as [E1|]; try reflexivity.
    congruence.
Qed.

(** X4: Operations of different actors commute: applied in either order, each
    gets the same answer and the two models end with the same data. *)
Theorem operations_of_different_actors_commute
  (m : CountData) (op1 op2 : CountOperation) :
  op_actor op1 <> op_actor op2 ->
  fst (applyOperation (snd (applyOperation m op2)) op1) = fst (applyOperation m op1)
  /\ fst (applyOperation (snd (applyOperation m op1)) op2) = fst (applyOperation m op2)
  /\ sameData (snd (applyOperation (snd (applyOperation m op1)) op2))
              (snd (applyOperation (snd (applyOperation m op2)) op1)).
Proof.
  intros Hne. assert (op_actor op2 <> op_actor op1) as Hne' by congruence.
  pose proof (accepted_applied_other m op1 op2 Hne) as A12.
  pose proof (accepted_applied_other m op2 op1 Hne') as A21.
  destruct (applyOperation_cases m op1) as [[H1 E1]|[H1 E1]];
    destruct (applyOperation_cases m op2) as [[H2 E2]|[H2 E2]];
    rewrite ?E1, ?E2; simpl.
  - destruct (applyOperation_cases (applied m op2) op1) as [[_ ->]|[N _]];
      [|tauto].
    destruct (applyOperation_cases (applied m op1) op2) as [[_ ->]|[N _]];
      [|tauto].
    simpl. repeat split; try apply sameData_applied_swap; auto;
      destruct (sameData_applied_swap m op1 op2 Hne); auto.
  - rewrite E1.
    destruct (applyOperation_cases (applied m op1) op2) as [[N _]|[_ ->]];
      [tauto|].
    simpl. repeat split; intros k; reflexivity.
  - rewrite E2.
    destruct (applyOperation_cases (applied m op2) op1) as [[N _]|[_ ->]];
      [tauto|].
    simpl. repeat split; intros k; reflexivity.
  - rewrite E1, E2. simpl. repeat split; intros k; reflexivity.
Qed.

Lemma operations_of_different_actors_commute_witness :
  sameData
    (snd (applyOperation (snd (applyOperation newCount (newIncrement "me" 0)))
            (newMultiIncrement 4 "them" 0 1)))
    (snd (applyOperation (snd (applyOperation newCount (newMultiIncrement 4 "them" 0 1)))
            (newIncrement "me" 0))).
Proof.
  refine (proj2 (proj2 (operations_of_different_actors_commute newCount
                          (newIncrement "me" 0) (newMultiIncrement 4 "them" 0 1) _))).
  simpl. intros H. discriminate H.
Defined.

(** *** What [merge] records and what it leaves *)

Lemma merge_normal_inv h this other c h' :
  merge h this other = (Normal c, h') ->
  exists c0,
    mergeOther this other (keys (values (h other))) h [] [] = (Normal c0, h')
    /\ modelChange c = modelChange c0.
Proof.
  unfold merge.
  destruct (mergeOther this other (keys (values (h other))) h [] [])
    as [[c0| |] h1]; try discriminate.
  destruct (mergeThis _ _ _ _); try discriminate.
  intros [= <- <-]. eauto.
Qed.

Lemma mergeOther_agreeing this other h :
  (forall k, valueOf (h this) k = valueOf (h other) k) ->
  forall ks tc oc,
    mergeOther this other ks h tc oc
    = (Normal {| modelChange := tc; otherChange := oc |}, h).
Proof.
  intros Heq. induction ks as [|key ks IH]; intros tc oc; simpl; auto.
  fold (valueOf (h this) key) (valueOf (h other) key).
  rewrite (Heq key), !gtb_irrefl. apply IH.
Qed.

(** X6: Two replicas that hold the same data have nothing to exchange: [merge]
    returns two empty lists of operations and writes nothing. *)
Theorem merge_of_agreeing_replicas (h : Heap) (this other : loc) :
  sameData (h this) (h other) ->
  merge h this other
  = (Normal {| modelChange := []; otherChange := [] |}, h).
Proof.
  intros [Hv Hr]. unfold merge.
  rewrite mergeOther_agreeing by (intros k; unfold valueOf; now rewrite (Hv k)).
  simpl. rewrite mergeThis_present; [reflexivity|].
  intros k Hin. apply has_keys in Hin. unfold has in *. now rewrite <- (Hv k).
Qed.

(** Both replicas have applied MultiIncrement(7, 'me', 0, 1). *)
Lemma merge_of_agreeing_replicas_witness :
  merge (twoReplicas (newMultiIncrement 7 "me" 0 1) (newMultiIncrement 7 "me" 0 1))
        0%nat 1%nat
  = (Normal {| modelChange := []; otherChange := [] |},
     twoReplicas (newMultiIncrement 7 "me" 0 1) (newMultiIncrement 7 "me" 0 1)).
Proof.
  apply merge_of_agreeing_replicas. apply sameDatab_spec. reflexivity.
Defined.

(** Where the first loop adopts, the argument's version is the newer. *)
Lemma mergeOther_adopts_newer this other ks : forall h tc oc c h',
  mergeOther this other ks h tc oc = (Normal c, h') ->
  forall k, In k ks -> valueOf (h other) k > valueOf (h this) k ->
            versionOf (h this) k < versionOf (h other) k.
Proof.
  induction ks as [|key ks IH]; intros h tc oc c h'; simpl; [intros _ k []|].
  fold (valueOf (h this) key) (valueOf (h other) key)
       (versionOf (h this) key) (versionOf (h other) key).
  destruct (Z.gtb_spec (valueOf (h this) key) (valueOf (h other) key)) as [G1|G1].
  - destruct (_ >=? _); [discriminate|].
    intros H k [<-|Hin] Hk; [lia | eapply IH; eauto].
  - destruct (Z.gtb_spec (valueOf (h other) key) (valueOf (h this) key)) as [G2|G2].
    + destruct (Z.geb_spec (versionOf (h this) key) (versionOf (h other) key))
        as [G3|G3]; [discriminate|].
      intros H k Hin Hk.
      destruct (String.eqb_spec key k) as [<-|Hne]; [lia|].
      destruct Hin as [->|Hin]; [contradiction|].
      assert (other <> this) as Hot by (intros ->; lia).
      specialize (IH _ _ _ _ _ H k Hin).
      rewrite upd_same, (upd_other _ _ _ _ Hot), valueOf_set, versionOf_set in IH.
      destruct (String.eqb_spec key k); [contradiction|]. auto.
    + intros H k [<-|Hin] Hk; [lia | eapply IH; eauto].
Qed.

(** X7: When [merge] returns, the receiver holds for every actor the larger of
    the two values; no version of the receiver has gone down, and where the
    argument's value was the larger the receiver has taken the argument's
    version with it. *)
Theorem merge_takes_the_larger_value
  (h : Heap) (this other : loc) (c : MergeChanges) (h' : Heap) (a : string) :
  wf (h this) = true ->
  merge h this other = (Normal c, h') ->
  valueOf (h' this) a = Z.max (valueOf (h this) a) (valueOf (h other) a)
  /\ versionOf (h this) a <= versionOf (h' this) a
  /\ (valueOf (h other) a > valueOf (h this) a ->
      versionOf (h' this) a = versionOf (h other) a).
Proof.
  intros Hx H. apply wfP in Hx.
  apply merge_normal_inv in H. destruct H as [c0 [H _]].
  destruct (Nat.eq_dec this other) as [<-|Hne].
  { rewrite mergeOther_self_full in H. injection H as _ <-.
    rewrite Z.max_id. repeat split; lia. }
  pose proof (mergeOther_adopts_newer _ _ _ _ _ _ _ _ H a) as Hnew.
  destruct (mergeOther_normal this other _ Hne _ _ _ _ _ H)
    as [_ [_ [_ [Hval Hver]]]].
  specialize (Hval a). specialize (Hver a). rewrite existsb_keys in Hval, Hver.
  pose proof (WF_valueOf_nonneg _ a Hx) as Hnn.
  unfold valueOf, versionOf in *.
  destruct (has (values (h other)) a) eqn:Ea; simpl in Hval, Hver.
  - apply has_keys in Ea.
    destruct (Z.gtb_spec (orZero (get (values (h other)) a))
                         (orZero (get (values (h this)) a))) as [G|G];
      rewrite Hval, Hver; simpl.
    + specialize (Hnew Ea). repeat split; lia.
    + repeat split; lia.
  - apply has_get_none in Ea. rewrite Hval, Hver, Ea. simpl.
    repeat split; lia.
Qed.

Lemma merge_takes_the_larger_value_witness :
  valueOf (snd (merge heapMultipleActors 0%nat 1%nat) 0%nat) "e" = 14
  /\ versionOf (snd (merge heapMultipleActors 0%nat 1%nat) 0%nat) "e" = 2.
Proof.
  destruct (merge_takes_the_larger_value heapMultipleActors 0%nat 1%nat
              {| modelChange := [newMultiIncrement 5 "b" 0 1;
                                 newMultiIncrement 10 "e" 1 2];
                 otherChange := [newMultiIncrement 3 "c" 1 2;
                                 newMultiIncrement 6 "a" 0 1] |}
              (snd (merge heapMultipleActors 0%nat 1%nat)) "e"
              eq_refl eq_refl) as [Hv [_ Hr]].
  split; [rewrite Hv; reflexivity | rewrite Hr; reflexivity].
Defined.

(** *** The two ways [merge] ends *)

Lemma merge_returns_or_diverges_witness :
  (exists c, fst (merge heapMultipleActors 0%nat 1%nat) = Normal c)
  \/ fst (merge heapMultipleActors 0%nat 1%nat) = Throw DivergentVersions.
Proof.
  apply (merge_returns_or_diverges heapMultipleActors 0%nat 1%nat); reflexivity.
Defined.

End CRDTCountLaws.

(** ** Facts about JavaScript numbers *)
Module FloatFacts.

Lemma SFcompare_antisym (f1 f2 : spec_float) :
  SFcompare f2 f1 = option_map CompOpp (SFcompare f1 f2).
Proof.
  destruct f1 as [s1|s1| |s1 m1 e1], f2 as [s2|s2| |s2 m2 e2]; simpl; auto;
    try (destruct s1; reflexivity); try (destruct s2; reflexivity);
    try (destruct s1, s2; reflexivity).
  destruct s1, s2; simpl; auto; rewrite (Z.compare_antisym e1 e2);
    destruct (e1 ?= e2)%Z; simpl; auto;
    rewrite !Pos.compare_cont_spec; simpl;
    rewrite (Pos.compare_antisym m1 m2); destruct (m1 ?= m2)%positive; reflexivity.
Qed.

(** [a === b] is [b === a]. *)
Lemma float_eqb_sym (x y : float) : PrimFloat.eqb x y = PrimFloat.eqb y x.
Proof.
  rewrite !FloatAxioms.eqb_spec. unfold SFeqb.
  rewrite (SFcompare_antisym (Prim2SF y) (Prim2SF x)).
  destruct (SFcompare (Prim2SF y) (Prim2SF x)) as [[| |]|]; reflexivity.
Qed.

Lemma SFmul_comm prec emax (x y : spec_float) :
  SFmul prec emax x y = SFmul prec emax y x.
Proof.
  destruct x as [sx|sx| |sx mx ex], y as [sy|sy| |sy my ey]; simpl; auto;
    try (now rewrite xorb_comm).
  now rewrite xorb_comm, Pos.mul_comm, Z.add_comm.
Qed.

Lemma SFadd_comm prec emax (x y : spec_float) :
  SFadd prec emax x y = SFadd prec emax y x.
Proof.
  destruct x as [sx|sx| |sx mx ex], y as [sy|sy| |sy my ey]; simpl; auto;
    try (destruct sx, sy; reflexivity).
  now rewrite Z.min_comm, Z.add_comm.
Qed.

Lemma float_add_comm (x y : float) : PrimFloat.add x y = PrimFloat.add y x.
Proof. apply Prim2SF_inj. rewrite !FloatAxioms.add_spec. apply SFadd_comm. Qed.

Lemma float_mul_comm (x y : float) : PrimFloat.mul x y = PrimFloat.mul y x.
Proof. apply Prim2SF_inj. rewrite !FloatAxioms.mul_spec. apply SFmul_comm. Qed.

Lemma finite_cases (v : float) :
  is_finite v = true ->
  (exists s, Prim2SF v = S754_zero s)
  \/ (exists s m e, Prim2SF v = S754_finite s m e).
Proof.
  unfold is_finite, is_nan, is_infinity.
  rewrite !FloatAxioms.eqb_spec, FloatAxioms.abs_spec.
  change (Prim2SF infinity) with (S754_infinity false).
  destruct (Prim2SF v) as [s|[|]| |s m e]; simpl; intros H;
    try discriminate H; [left | right]; eauto.
Qed.

Lemma SFcompare_refl_finite s m e :
  SFcompare (S754_finite s m e) (S754_finite s m e) = Some Eq.
Proof.
  simpl. rewrite Z.compare_refl, Pos.compare_cont_spec, Pos.compare_refl.
  destruct s; reflexivity.
Qed.

(** A finite number compared with itself and with the two infinities. *)
Lemma finite_comparisons (v : float) :
  is_finite v = true ->
  PrimFloat.eqb v v = true /\ PrimFloat.ltb v v = false
  /\ PrimFloat.ltb neg_infinity v = true /\ PrimFloat.ltb v neg_infinity = false
  /\ PrimFloat.eqb neg_infinity v = false /\ PrimFloat.eqb v neg_infinity = false
  /\ PrimFloat.ltb v infinity = true /\ PrimFloat.ltb infinity v = false
  /\ PrimFloat.eqb infinity v = false /\ PrimFloat.eqb v infinity = false.
Proof.
  intros H. rewrite !FloatAxioms.eqb_spec, !FloatAxioms.ltb_spec.
  change (Prim2SF infinity) with (S754_infinity false).
  change (Prim2SF neg_infinity) with (S754_infinity true).
  unfold SFeqb, SFltb.
  destruct (finite_cases v H) as [[s ->]|[s [m [e ->]]]].
  - simpl. repeat split.
  - rewrite SFcompare_refl_finite. simpl. repeat split.
Qed.

(** *** The order of the doubles *)

Lemma is_nan_spec (x : float) :
  is_nan x = match Prim2SF x with S754_nan => true | _ => false end.
Proof.
  unfold is_nan. rewrite FloatAxioms.eqb_spec. unfold SFeqb.
  destruct (Prim2SF x) as [s|s| |s m e]; simpl; try (destruct s; reflexivity).
  - reflexivity.
  - rewrite Z.compare_refl, Pos.compare_cont_spec, Pos.compare_refl.
    destruct s; reflexivity.
Qed.

Lemma SFcompare_some (a b : spec_float) :
  a <> S754_nan -> b <> S754_nan -> exists c, SFcompare a b = Some c.
Proof.
  destruct a, b; simpl; intros Ha Hb; try congruence; eauto.
Qed.

Lemma not_nan (x : float) : is_nan x = false -> Prim2SF x <> S754_nan.
Proof. rewrite is_nan_spec. destruct (Prim2SF x); congruence. Qed.

(** Without NaN, [a <= b] is the negation of [b < a]. *)
Lemma leb_ltb (x y : float) :
  is_nan x = false -> is_nan y = false ->
  PrimFloat.leb x y = negb (PrimFloat.ltb y x).
Proof.
  intros Hx Hy. rewrite FloatAxioms.leb_spec, FloatAxioms.ltb_spec.
  unfold SFleb, SFltb. rewrite (SFcompare_antisym (Prim2SF x) (Prim2SF y)).
  destruct (SFcompare_some _ _ (not_nan _ Hx) (not_nan _ Hy)) as [c ->].
  destruct c; reflexivity.
Qed.

Lemma eqb_not_nan (x y : float) :
  PrimFloat.eqb x y = true -> is_nan x = false /\ is_nan y = false.
Proof.
  rewrite FloatAxioms.eqb_spec, !is_nan_spec. unfold SFeqb.
  destruct (Prim2SF x), (Prim2SF y); simpl; try discriminate; auto.
Qed.

Lemma leb_not_nan (x y : float) :
  PrimFloat.leb x y = true -> is_nan x = false /\ is_nan y = false.
Proof.
  rewrite FloatAxioms.leb_spec, !is_nan_spec. unfold SFleb.
  destruct (Prim2SF x), (Prim2SF y); simpl; try discriminate; auto.
Qed.


Lemma eqb_refl (x : float) : is_nan x = false -> PrimFloat.eqb x x = true.
Proof. unfold is_nan. now destruct (PrimFloat.eqb x x). Qed.

Lemma ltb_eqb (x y : float) :
  PrimFloat.ltb x y = true -> PrimFloat.eqb x y = false.
Proof.
  rewrite FloatAxioms.ltb_spec, FloatAxioms.eqb_spec. unfold SFltb, SFeqb.
  destruct (SFcompare (Prim2SF x) (Prim2SF y)) as [[| |]|]; congruence.
Qed.

(** Equal numbers compare alike with a third. *)
Lemma SFcompare_eq_r (a b c : spec_float) :
  SFcompare b c = Some Eq -> SFcompare a b = SFcompare a c.
Proof.
  destruct b as [sb|sb| |sb mb eb], c as [sc|sc| |sc mc ec]; simpl;
    try discriminate; try (destruct sb; discriminate);
    try (destruct sc; discriminate).
  - intros _. destruct a; reflexivity.
  - destruct sb, sc; try discriminate; reflexivity.
  - destruct sb, sc; try discriminate;
      destruct (Z.compare_spec eb ec) as [->| |]; try discriminate;
      rewrite Pos.compare_cont_spec; simpl;
      destruct (Pos.compare_spec mb mc) as [->| |]; try discriminate;
      reflexivity.
Qed.

Lemma eqb_compare_r (x y z : float) :
  PrimFloat.eqb y z = true ->
  PrimFloat.ltb x y = PrimFloat.ltb x z
  /\ PrimFloat.leb x y = PrimFloat.leb x z
  /\ PrimFloat.eqb x y = PrimFloat.eqb x z.
Proof.
  rewrite !FloatAxioms.eqb_spec, !FloatAxioms.ltb_spec, !FloatAxioms.leb_spec.
  unfold SFeqb, SFltb, SFleb. intros H.
  assert (SFcompare (Prim2SF y) (Prim2SF z) = Some Eq) as E
    by (destruct (SFcompare (Prim2SF y) (Prim2SF z)) as [[| |]|];
        congruence).
  now rewrite (SFcompare_eq_r (Prim2SF x) _ _ E).
Qed.

(** Through zero: what is at most 0 is at most whatever is at least 0. *)
Lemma leb_through_zero (x y : float) :
  PrimFloat.leb x 0 = true -> PrimFloat.leb 0 y = true ->
  PrimFloat.leb x y = true.
Proof.
  rewrite !FloatAxioms.leb_spec. unfold SFleb.
  change (Prim2SF 0) with (S754_zero false).
  destruct (Prim2SF x) as [sx|sx| |sx mx ex], (Prim2SF y) as [sy|sy| |sy my ey];
    simpl; try discriminate; try reflexivity;
    try (destruct sx; try discriminate); try (destruct sy; try discriminate);
    try reflexivity.
Qed.

Lemma leb_zero_ltb (x : float) :
  PrimFloat.leb 0 x = true -> PrimFloat.ltb x 0 = false.
Proof.
  intros H. destruct (leb_not_nan _ _ H) as [_ Hn].
  rewrite (leb_ltb _ _ (eq_refl : is_nan 0 = false) Hn) in H.
  now destruct (PrimFloat.ltb x 0).
Qed.

Lemma binary_round_aux_sign prec emax sx mx ex lx :
  match binary_round_aux prec emax sx mx ex lx with
  | S754_zero s | S754_infinity s | S754_finite s _ _ => s = sx
  | S754_nan => True
  end.
Proof.
  unfold binary_round_aux.
  destruct (shr_fexp prec emax mx ex lx) as [mrs' e'].
  destruct (shr_fexp prec emax _ e' loc_Exact) as [mrs'' e''].
  destruct (shr_m mrs''); auto. destruct (e'' <=? emax - prec)%Z; auto.
Qed.

(** The sum of two numbers that are not negative is not negative. *)
Lemma SFadd_not_negative prec emax (x y : spec_float) :
  SFleb (S754_zero false) x = true -> SFltb y (S754_zero false) = false ->
  SFltb (SFadd prec emax x y) (S754_zero false) = false.
Proof.
  unfold SFleb, SFltb.
  destruct x as [sx|sx| |sx mx ex], y as [sy|sy| |sy my ey]; simpl;
    try discriminate; try reflexivity;
    try (destruct sx; try discriminate); try (destruct sy; try discriminate);
    try reflexivity.
  intros _ _. unfold binary_normalize, binary_round. simpl.
  destruct (shl_align _ _ _) as [mz ez].
  pose proof (binary_round_aux_sign prec emax false (Z.pos mz) ez loc_Exact) as H.
  destruct (binary_round_aux prec emax false (Z.pos mz) ez loc_Exact);
    try subst; reflexivity.
Qed.

Lemma add_not_negative (x y : float) :
  PrimFloat.leb 0 x = true -> PrimFloat.ltb y 0 = false ->
  PrimFloat.ltb (x + y) 0 = false.
Proof.
  rewrite FloatAxioms.leb_spec, !FloatAxioms.ltb_spec, FloatAxioms.add_spec.
  change (Prim2SF 0) with (S754_zero false). apply SFadd_not_negative.
Qed.

End FloatFacts.

(** ** [CRDTCount] on doubles *)
Module CRDTCountDoubleLaws.

Import JsNumberMap CRDTCountDouble FloatFacts.

Lemma number_get_set_eq (m : JsNumberMap.t) k v : get (set m k v) k = Some v.
Proof.
  induction m as [|[k' v'] m IH]; simpl.
  - now rewrite String.eqb_refl.
  - destruct (String.eqb k' k) eqn:E; simpl; rewrite E; auto.
Qed.

Lemma number_get_set_neq (m : JsNumberMap.t) k k' v :
  k <> k' -> get (set m k v) k' = get m k'.
Proof.
  intros Hne. induction m as [|[k0 v0] m IH]; simpl.
  - destruct (String.eqb_spec k k'); congruence.
  - destruct (String.eqb_spec k0 k) as [->|]; simpl.
    + destruct (String.eqb_spec k k'); congruence.
    + destruct (String.eqb k0 k'); auto.
Qed.

Lemma orZero_not_nan (o : option float) : is_nan (orZero o) = false.
Proof.
  unfold orZero, falsy. destruct o as [v|]; [|reflexivity].
  destruct (PrimFloat.eqb v 0); simpl; [reflexivity|].
  destruct (is_nan v) eqn:E; [reflexivity | exact E].
Qed.

(** What [applyOperation] does, by the three tests of the code. *)
Lemma applyOperation_by_tests (m : CountData) (op : CountOperation) :
  (PrimFloat.eqb (from (op_version op)) (versionOf m (op_actor op)) = true
   /\ PrimFloat.leb (to (op_version op)) (from (op_version op)) = false
   /\ match op with
      | OpMultiIncrement value _ _ => PrimFloat.ltb value 0 = false
      | OpIncrement _ _ => True
      end
   /\ applyOperation m op = (true, applied m op))
  \/ ((PrimFloat.eqb (from (op_version op)) (versionOf m (op_actor op)) = false
       \/ PrimFloat.leb (to (op_version op)) (from (op_version op)) = true
       \/ match op with
          | OpMultiIncrement value _ _ => PrimFloat.ltb value 0 = true
          | OpIncrement _ _ => False
          end)
      /\ applyOperation m op = (false, m)).
Proof.
  unfold applyOperation, applied, versionOf, valueOf.
  destruct (PrimFloat.eqb (from (op_version op))
              (orZero (get (version m) (op_actor op)))) eqn:E1; simpl;
    [|right; auto].
  destruct (PrimFloat.leb (to (op_version op)) (from (op_version op))) eqn:E2;
    [right; auto|].
  destruct op as [value a v|a v]; simpl in *.
  - destruct (PrimFloat.ltb value 0) eqn:E3; [right; auto | left; auto].
  - left; auto.
Qed.



(** X1: an operation applies once.  After [applyOperation] has returned
    true for an operation whose [to] is not NaN, the same operation is
    refused and the model stays as the first call left it ('does not
    resolve duplicated ops from the same actor'). *)
Theorem applyOperation_twice_refused (m : CountData) (op : CountOperation) :
  is_nan (to (op_version op)) = false ->
  fst (applyOperation m op) = true ->
  applyOperation (snd (applyOperation m op)) op
  = (false, snd (applyOperation m op)).
Proof.
  intros Hto Ha.
  destruct (applyOperation_by_tests m op) as [[E1 [E2 [_ E]]]|[_ E]];
    rewrite E in *; simpl in *; [|discriminate].
  destruct (applyOperation_by_tests (applied m op) op) as [[F1 _]|[_ F]];
    [|exact F].
  exfalso. unfold versionOf, applied in F1. simpl in F1.
  rewrite number_get_set_eq in F1. unfold orZero, falsy in F1. rewrite Hto in F1.
  destruct (eqb_not_nan _ _ E1) as [Hf _].
  rewrite (leb_ltb _ _ Hto Hf) in E2.
  assert (PrimFloat.ltb (from (op_version op)) (to (op_version op)) = true) as L
    by now destruct (PrimFloat.ltb _ _).
  destruct (PrimFloat.eqb (to (op_version op)) 0) eqn:Z0; simpl in F1.
  - destruct (eqb_compare_r (from (op_version op)) _ _ Z0) as [_ [_ Q]].
    rewrite <- Q, (ltb_eqb _ _ L) in F1. discriminate F1.
  - rewrite (ltb_eqb _ _ L) in F1. discriminate F1.
Qed.

(** The test of the duplicated increment. *)
Lemma applyOperation_twice_refused_witness :
  applyOperation (snd (applyOperation newCount (incrementOp newCount "me")))
    (incrementOp newCount "me")
  = (false, snd (applyOperation newCount (incrementOp newCount "me"))).
Proof.
  exact (applyOperation_twice_refused newCount (incrementOp newCount "me")
           eq_refl eq_refl).
Defined.

(** With [to] NaN it is otherwise: the test [to <= from] lets the operation
    through, the version stored is NaN, which reads as 0, and the same
    operation is applied again. *)
Example applyOperation_nan_version_twice :
  let op := newMultiIncrement 1 "me" 0 nan in
  fst (applyOperation newCount op) = true
  /\ fst (applyOperation (snd (applyOperation newCount op)) op) = true.
Proof. split; reflexivity. Qed.

(** X2: a model accepts the operations it builds for itself, until its
    version stops growing.  [applyOperation] on [incrementOp(a)] tests
    nothing but [from + 1 <= from], [from] being the actor's version: where
    that is false (a version below 2^53) it returns true, adds 1 to the
    value and stores [from + 1]; where it is true (at 2^53 the sum rounds
    back to [from]) it returns false.  The same for [multiIncrementOp] with
    a value of 0 or more, which is added to the actor's value. *)
Theorem own_operations_apply (m : CountData) (a : string) (value : float) :
  applyOperation m (incrementOp m a)
  = (if PrimFloat.leb (versionOf m a + 1) (versionOf m a) then (false, m)
     else (true, {| values := set (values m) a (valueOf m a + 1)%float;
                    version := set (version m) a (versionOf m a + 1)%float |}))
  /\ (PrimFloat.leb 0 value = true ->
      applyOperation m (multiIncrementOp m value a)
      = (if PrimFloat.leb (versionOf m a + 1) (versionOf m a) then (false, m)
         else (true, {| values := set (values m) a (valueOf m a + value)%float;
                        version := set (version m) a (versionOf m a + 1)%float |}))).
Proof.
  unfold applyOperation, incrementOp, multiIncrementOp, newIncrement,
    newMultiIncrement, versionOf, valueOf. simpl.
  rewrite (eqb_refl _ (orZero_not_nan (get (version m) a))). simpl.
  split; [reflexivity|]. intros Hv. rewrite (leb_zero_ltb _ Hv). reflexivity.
Qed.

(** On a new model, and on one at version 2^53. *)
Lemma own_operations_apply_witness :
  applyOperation newCount (incrementOp newCount "a")
  = (true, {| values := [("a", 1%float)]; version := [("a", 1%float)] |})
  /\ versionOf saturated "a" = 9007199254740992%float
  /\ applyOperation saturated (incrementOp saturated "a") = (false, saturated).
Proof.
  split; [|split].
  - rewrite (proj1 (own_operations_apply newCount "a" 0)). reflexivity.
  - reflexivity.
  - rewrite (proj1 (own_operations_apply saturated "a" 0)). reflexivity.
Defined.

(** *** The class invariant *)

Lemma number_has_set (m : JsNumberMap.t) k k' v :
  has (set m k v) k' = String.eqb k k' || has m k'.
Proof.
  unfold has. destruct (String.eqb_spec k k') as [<-|Hne].
  - now rewrite number_get_set_eq.
  - now rewrite (number_get_set_neq m k k' v Hne).
Qed.

Lemma number_keys_set_In (m : JsNumberMap.t) k v x :
  In x (keys (set m k v)) <-> x = k \/ In x (keys m).
Proof.
  unfold keys. induction m as [|[k0 v0] m IH]; simpl.
  - split; [intros [H|[]]; auto | intros [H|[]]; auto].
  - destruct (String.eqb_spec k0 k) as [->|Hne]; simpl.
    + split; [tauto|]. intros [->|H]; auto.
    + rewrite IH. tauto.
Qed.

Lemma number_NoDup_keys_set (m : JsNumberMap.t) k v :
  NoDup (keys m) -> NoDup (keys (set m k v)).
Proof.
  unfold keys. induction m as [|[k0 v0] m IH]; simpl; intros H.
  - constructor; [intros [] | constructor].
  - inversion H as [|? ? Hn Hd]; subst.
    destruct (String.eqb_spec k0 k) as [->|Hne]; simpl.
    + constructor; assumption.
    + constructor; [|now apply IH].
      intros Hin. apply (number_keys_set_In m k v k0) in Hin.
      destruct Hin as [->|Hin]; [congruence | contradiction].
Qed.

Lemma number_get_set (m : JsNumberMap.t) k k' v :
  get (set m k v) k' = if String.eqb k k' then Some v else get m k'.
Proof.
  destruct (String.eqb_spec k k') as [<-|Hne];
    [apply number_get_set_eq | now apply number_get_set_neq].
Qed.

Lemma invariant_new : WF newCount.
Proof. constructor; simpl; try constructor; try discriminate; reflexivity. Qed.

Lemma invariant_set m k x v :
  WF m -> PrimFloat.ltb x 0 = false -> PrimFloat.leb v 0 = false ->
  WF {| values := set (values m) k x; version := set (version m) k v |}.
Proof.
  intros [Hv Hr Hsame Hnn Hpos] Hx Hv'. constructor; simpl.
  - now apply number_NoDup_keys_set.
  - now apply number_NoDup_keys_set.
  - intros k0. rewrite !number_has_set, Hsame. reflexivity.
  - intros k0 v0. rewrite number_get_set. destruct (String.eqb k k0); eauto.
    intros [= <-]. exact Hx.
  - intros k0 v0. rewrite number_get_set. destruct (String.eqb k k0); eauto.
    intros [= <-]. exact Hv'.
Qed.

(** [x || 0] of a value the invariant allows is 0 or above. *)
Lemma invariant_valueOf (m : CountData) (a : string) :
  WF m -> PrimFloat.leb 0 (valueOf m a) = true.
Proof.
  intros H. unfold valueOf, orZero, falsy.
  destruct (get (values m) a) as [x|] eqn:E; [|reflexivity].
  destruct (PrimFloat.eqb x 0) eqn:Z0; simpl; [reflexivity|].
  destruct (is_nan x) eqn:N; [reflexivity|].
  rewrite (leb_ltb _ _ (eq_refl : is_nan 0 = false) N).
  now rewrite (wf_values_not_negative m H a x E).
Qed.

Lemma invariant_versionOf (m : CountData) (a : string) :
  WF m -> PrimFloat.leb 0 (versionOf m a) = true.
Proof.
  intros H. unfold versionOf, orZero, falsy.
  destruct (get (version m) a) as [v|] eqn:E; [|reflexivity].
  destruct (PrimFloat.eqb v 0) eqn:Z0; simpl; [reflexivity|].
  destruct (is_nan v) eqn:N; [reflexivity|].
  rewrite (leb_ltb _ _ (eq_refl : is_nan 0 = false) N).
  destruct (PrimFloat.ltb v 0) eqn:L; [|reflexivity].
  pose proof (wf_version_above_zero m H a v E) as P.
  rewrite (leb_ltb _ _ N (eq_refl : is_nan 0 = false)) in P.
  assert (PrimFloat.ltb 0 v = true) as Q by now destruct (PrimFloat.ltb 0 v).
  rewrite FloatAxioms.ltb_spec in L, Q. unfold SFltb in L, Q.
  rewrite (SFcompare_antisym (Prim2SF v) (Prim2SF 0)) in Q.
  destruct (SFcompare (Prim2SF v) (Prim2SF 0)) as [[| |]|]; discriminate.
Qed.

(** A version that is not at most one that is 0 or above is not at most
    0. *)
Lemma above_a_version (t f : float) :
  PrimFloat.leb 0 f = true -> PrimFloat.leb t f = false ->
  PrimFloat.leb t 0 = false.
Proof.
  intros Hf Ht. destruct (PrimFloat.leb t 0) eqn:E; [|reflexivity].
  now rewrite (leb_through_zero t f E Hf) in Ht.
Qed.

Lemma applyOperation_keeps_invariant (m : CountData) (op : CountOperation) :
  WF m -> WF (snd (applyOperation m op)).
Proof.
  intros H.
  destruct (applyOperation_by_tests m op) as [[E1 [E2 [E3 ->]]]|[_ ->]]; simpl; auto.
  apply invariant_set; auto.
  - apply add_not_negative; [now apply invariant_valueOf|].
    destruct op; simpl; [exact E3 | reflexivity].
  - apply (above_a_version _ (from (op_version op))); [|exact E2].
    destruct (eqb_compare_r 0 _ _ E1) as [_ [-> _]]. now apply invariant_versionOf.
Qed.

Lemma upd_at (h : Heap) l m : upd h l m l = m.
Proof. unfold upd. now rewrite Nat.eqb_refl. Qed.

Lemma mergeOther_keeps_invariant this other ks : forall h tc oc,
  WF (h this) -> WF (h other) ->
  forall l, WF (h l) -> WF (snd (mergeOther this other ks h tc oc) l).
Proof.
  induction ks as [|key ks IH]; intros h tc oc Hwf Hwo l Hl; simpl; auto.
  destruct (PrimFloat.ltb _ _) eqn:G1.
  - destruct (PrimFloat.leb _ _); simpl; auto.
  - destruct (PrimFloat.ltb (orZero (get (values (h this)) key)) _) eqn:G2; auto.
    destruct (PrimFloat.leb (orZero (get (version (h other)) key)) _) eqn:G3;
      simpl; auto.
    assert (WF {| values := set (values (h this)) key
                              (orZero (get (values (h other)) key));
                  version := set (version (h this)) key
                               (orZero (get (version (h other)) key)) |}) as Hnew.
    { apply invariant_set; auto.
      - apply leb_zero_ltb. exact (invariant_valueOf (h other) key Hwo).
      - apply (above_a_version _ (orZero (get (version (h this)) key)));
          [exact (invariant_versionOf (h this) key Hwf) | exact G3]. }
    apply IH.
    + now rewrite upd_at.
    + unfold upd. now destruct (Nat.eqb other this).
    + unfold upd. now destruct (Nat.eqb l this).
Qed.

Lemma merge_writes (h : Heap) (this other : loc) :
  snd (merge h this other)
  = snd (mergeOther this other (keys (values (h other))) h [] []).
Proof.
  unfold merge.
  destruct (mergeOther this other (keys (values (h other))) h [] [])
    as [[c| |] h']; simpl; auto.
  now destruct (mergeThis _ _ _ _).
Qed.

(** X8: the class invariant.  In every heap that [new CRDTCount()],
    [applyOperation] and [merge] can build, whatever the operations and
    whether or not a call is refused or throws, every object has the same
    actors in [values] and in [version], none of them twice, no value
    below 0 and no version that is 0 or below.  (A version may be a
    fraction, and NaN is not excluded: neither is below anything.) *)
Theorem reachable_wf (h : Heap) : reachable h -> forall l, WF (h l).
Proof.
  induction 1 as [|h l0 op _ IH|h this other _ IH]; intros l.
  - apply invariant_new.
  - simpl. unfold upd. destruct (Nat.eqb l l0); auto.
    now apply applyOperation_keeps_invariant.
  - rewrite merge_writes. now apply mergeOther_keeps_invariant.
Qed.

(** An object that has taken an operation to the version 0.5. *)
Lemma reachable_wf_witness :
  WF (snd (applyAt newHeap 0%nat (newMultiIncrement 1 "me" 0 0.5)) 0%nat).
Proof.
  apply (reachable_wf (snd (applyAt newHeap 0%nat (newMultiIncrement 1 "me" 0 0.5)))).
  apply reach_apply. apply reach_new.
Defined.

End CRDTCountDoubleLaws.

(** ** Refinement expressions: types, values and normal forms *)
Module RefinementLaws.

Import Refinement RefinementFacts FloatFacts.

Lemma EvalType_eqb_eq (a b : EvalType) : EvalType_eqb a b = true <-> a = b.
Proof. destruct a, b; simpl; split; congruence. Qed.

Lemma evalFn_binary_typed op a b :
  validateOperandCompatibility op [typeOf a; typeOf b] = true ->
  exists v, evalFn op [a; b] = Some v /\ typeOf v = opEvalType op.
Proof.
  destruct op, a, b; simpl; intros H; try discriminate H; eauto.
Qed.

Lemma evalFn_unary_typed op a :
  validateOperandCompatibility op [typeOf a] = true ->
  exists v, evalFn op [a] = Some v /\ typeOf v = opEvalType op.
Proof.
  destruct op, a; simpl; intros H; try discriminate H; eauto.
Qed.

Lemma applyOperator_typed (e : RefinementExpression) data :
  wellTyped e = true -> fieldsTyped e data = true ->
  exists v, applyOperator e data = Some v /\ typeOf v = evalType e.
Proof.
  induction e as [l IHl r IHr op|x IHx op|f t|n|b]; simpl; intros W F.
  - apply andb_true_iff in W. destruct W as [W V].
    apply andb_true_iff in W. destruct W as [Wl Wr].
    apply andb_true_iff in F. destruct F as [Fl Fr].
    destruct (IHl Wl Fl) as [vl [-> Tl]]. destruct (IHr Wr Fr) as [vr [-> Tr]].
    apply evalFn_binary_typed. now rewrite Tl, Tr.
  - apply andb_true_iff in W. destruct W as [Wx V].
    destruct (IHx Wx F) as [vx [-> Tx]].
    apply evalFn_unary_typed. now rewrite Tx.
  - destruct (data f) as [v|]; [|discriminate].
    apply EvalType_eqb_eq in F. eauto.
  - eauto.
  - eauto.
Qed.

(** X11: Evaluation is type-safe.  An expression the constructors accept,
    evaluated on data that gives each of its fields a value of the declared
    type, does not throw and returns a value of the expression's
    [evalType]; so [validateData] returns a boolean, and does not throw,
    for every such refinement of type Boolean. *)
Theorem applyOperator_returns_its_type
  (e : RefinementExpression) (data : string -> option Prim) :
  wellTyped e = true -> fieldsTyped e data = true ->
  (exists v, applyOperator e data = Some v /\ typeOf v = evalType e)
  /\ (evalType e = TBoolean -> exists res, validateData e data = Some res).
Proof.
  intros W F. destruct (applyOperator_typed e data W F) as [v [E T]].
  split; [eauto|]. intros B. unfold validateData. rewrite E.
  destruct v; simpl in T; try congruence. eauto.
Qed.

(** [(age >= 18) and (age < 65)] holds of [{age: 42}]. *)
Lemma applyOperator_returns_its_type_witness :
  (e <- fromAst ageNode ageTypeData ;; validateData e ageData) = Some true.
Proof.
  destruct (fromAst ageNode ageTypeData) as [e|] eqn:E; [|discriminate E].
  vm_compute in E. injection E as <-.
  destruct (applyOperator_returns_its_type _ ageData
              (eq_refl : wellTyped
                 (BinaryExpression
                    (BinaryExpression (FieldNamePrimitive "age" TNumber)
                       (NumberPrimitive 18%float) GTE)
                    (BinaryExpression (FieldNamePrimitive "age" TNumber)
                       (NumberPrimitive 65%float) LT) AND) = true)
              eq_refl) as [_ H].
  destruct (H eq_refl) as [res Hres]. simpl. rewrite Hres.
  vm_compute in Hres. symmetry. exact Hres.
Defined.

(** X12: [normalise] returns on every expression the constructors build, and
    what it returns has the same [evalType] and is again an expression the
    constructors accept. *)
Theorem normalise_keeps_type
  (n : RefinementExpressionNode) (typeData : string -> option EvalType)
  (e : RefinementExpression) :
  fromAst n typeData = Some e ->
  exists e', normalise e = Some e'
             /\ evalType e' = evalType e /\ wellTyped e' = true.
Proof.
  intros H. apply normalise_wellTyped. eapply fromAst_wellTyped; eauto.
Qed.

Lemma normalise_keeps_type_witness :
  exists e', normalise adultExpr = Some e'
             /\ evalType e' = TBoolean /\ wellTyped e' = true.
Proof.
  exact (normalise_keeps_type
           (BinaryExpressionNode (FieldNode "age") (NumberNode 18%float) GTE)
           ageTypeData adultExpr eq_refl).
Defined.

(** *** [normalise] keeps the value *)

Lemma strictEq_sym (a b : Prim) : strictEq a b = strictEq b a.
Proof.
  destruct a, b; simpl; auto.
  - apply float_eqb_sym.
  - destruct b0, b; reflexivity.
  - apply String.eqb_sym.
Qed.

(** After the two children have changed places the operator gives what it
    gave before, subtraction and division apart. *)
Lemma swappedOp_value (op : Op) (a b : Prim) :
  op <> SUB -> op <> DIV ->
  evalFn (swappedOp op) [b; a] = evalFn op [a; b].
Proof.
  intros HS HD.
  destruct op; try congruence; simpl;
    try (now rewrite (strictEq_sym b a));
    destruct a, b; simpl; auto;
    try (now rewrite andb_comm); try (now rewrite orb_comm);
    try (now rewrite float_add_comm); try (now rewrite float_mul_comm).
Qed.

Lemma normaliseBinary_value l r op e' data vl vr :
  applyOperator l data = Some vl -> applyOperator r data = Some vr ->
  typeOf vl = evalType l -> typeOf vr = evalType r ->
  validateOperandCompatibility op [evalType l; evalType r] = true ->
  (isField r = true -> op <> SUB /\ op <> DIV) ->
  normaliseBinary l r op = Some e' ->
  applyOperator e' data = evalFn op [vl; vr].
Proof.
  intros Hl Hr Tl Tr V S N.
  assert (V' : validateOperandCompatibility op [typeOf vl; typeOf vr] = true)
    by now rewrite Tl, Tr.
  clear V.
  destruct (isField r) eqn:F.
  - destruct (S eq_refl) as [HS HD].
    destruct r as [| |f t| |]; try discriminate F.
    rewrite <- (swappedOp_value op vl vr HS HD).
    destruct l as [l1 l2 o|x o|g u|n|b];
      destruct op; try congruence; simpl in N; injection N as <-;
      simpl in *; rewrite ?Hl, ?Hr; try reflexivity;
      try (injection Hl as <-); destruct vr; simpl in *; try discriminate;
      try destruct b; try destruct b0; simpl; rewrite ?Hr; try reflexivity;
      try (destruct t; discriminate).
  - clear S.
    destruct vl as [nl|bl|tl], vr as [nr|br|tr], op;
      simpl in V'; try discriminate V'; clear V';
      destruct r as [r1 r2 o'|y o'|f t|m|c]; try discriminate F;
      destruct l as [l1 l2 o|x o|g u|n|b];
      simpl in Tl, Tr; try discriminate Tl; try discriminate Tr;
      simpl in N; try (injection N as <-); simpl in Hl, Hr;
      try (injection Hl as <-); try (injection Hr as <-);
      try (destruct bl; simpl in * ); try (destruct br; simpl in * );
      try (injection N as <-); simpl;
      rewrite ?Hl, ?Hr; try reflexivity; try congruence;
      try (destruct b; simpl; rewrite ?Hl, ?Hr; reflexivity);
      try (destruct c; simpl; rewrite ?Hl, ?Hr; reflexivity).
Qed.
Lemma normaliseUnary_value x op e' data vx :
  applyOperator x data = Some vx ->
  validateOperandCompatibility op [typeOf vx] = true ->
  normaliseUnary x op = Some e' ->
  applyOperator e' data = evalFn op [vx].
Proof.
  intros Hx V N.
  destruct vx as [n|b|t], op; simpl in V; try discriminate V; clear V;
    destruct x as [x1 x2 o|y o|g u|m|c]; simpl in N;
    try (destruct o; simpl in N); try (injection N as <-);
    simpl in Hx; try (injection Hx as <-); simpl; rewrite ?Hx; try reflexivity;
    try discriminate.
  destruct (applyOperator y data) as [[n'|b'|t']|]; simpl in Hx;
    try discriminate Hx. injection Hx as <-. simpl. now rewrite negb_involutive.
Qed.

Lemma normaliseBinary_number_not_field l r op e' :
  opEvalType op = TNumber -> normaliseBinary l r op = Some e' ->
  isField e' = false.
Proof.
  intros T N.
  destruct op; try discriminate T; destruct l, r; simpl in N;
    try discriminate N; injection N as <-; reflexivity.
Qed.

Lemma normaliseUnary_number_not_field x op e' :
  opEvalType op = TNumber -> normaliseUnary x op = Some e' ->
  isField e' = false.
Proof.
  intros T N.
  destruct op; try discriminate T; destruct x; simpl in N;
    try discriminate N; injection N as <-; reflexivity.
Qed.

(** An expression of type Number that is no field does not normalise to a
    field. *)
Lemma normalise_number_not_field e e' :
  evalType e = TNumber -> isField e = false -> normalise e = Some e' ->
  isField e' = false.
Proof.
  destruct e as [l r op|x op|f t|n|b]; simpl; intros T F N; try discriminate.
  - destruct (normalise l) as [l'|]; [|discriminate].
    destruct (normalise r) as [r'|]; [|discriminate].
    eapply normaliseBinary_number_not_field; eauto.
  - destruct (normalise x) as [x'|]; [|discriminate].
    eapply normaliseUnary_number_not_field; eauto.
  - now injection N as <-.
Qed.

Lemma validate_sub_div_right op a b :
  validateOperandCompatibility op [a; b] = true ->
  op = SUB \/ op = DIV -> b = TNumber.
Proof.
  intros V [-> | ->]; destruct a, b; try discriminate V; reflexivity.
Qed.

(** X13: [normalise] keeps the value.  On an expression the constructors accept,
    evaluated on data that gives each field a value of its declared type,
    the normalised expression evaluates to what the expression itself
    evaluates to, provided no subtraction and no division in it has a field
    as its right operand ([swapChildren] exchanges the operands of such a
    node without changing its operator). *)
Theorem normalise_keeps_the_value
  (e e' : RefinementExpression) (data : string -> option Prim) :
  wellTyped e = true -> fieldsTyped e data = true -> swapSafe e = true ->
  normalise e = Some e' ->
  applyOperator e' data = applyOperator e data.
Proof.
  revert e'.
  induction e as [l IHl r IHr op|x IHx op|f t|n|b]; simpl; intros e' W F S N;
    try (now injection N as <-).
  - apply andb_true_iff in W. destruct W as [W V].
    apply andb_true_iff in W. destruct W as [Wl Wr].
    apply andb_true_iff in F. destruct F as [Fl Fr].
    apply andb_true_iff in S. destruct S as [S Sop].
    apply andb_true_iff in S. destruct S as [Sl Sr].
    destruct (normalise_wellTyped l Wl) as [l' [Nl [Tl _]]].
    destruct (normalise_wellTyped r Wr) as [r' [Nr [Tr _]]].
    rewrite Nl, Nr in N.
    destruct (applyOperator_typed l data Wl Fl) as [vl [El Tvl]].
    destruct (applyOperator_typed r data Wr Fr) as [vr [Er Tvr]].
    rewrite El, Er.
    apply (normaliseBinary_value l' r' op e' data vl vr); auto.
    + rewrite (IHl l' Wl Fl Sl Nl). exact El.
    + rewrite (IHr r' Wr Fr Sr Nr). exact Er.
    + congruence.
    + congruence.
    + now rewrite Tl, Tr.
    + intros Fr'.
      assert (forall o, o = SUB \/ o = DIV -> op <> o) as Hno.
      { intros o Ho ->.
        assert (evalType r = TNumber) as Tn
          by (eapply validate_sub_div_right; eauto).
        assert (isField r = false) as Fn
          by (destruct Ho as [-> | ->]; destruct r; simpl in Sop;
              try discriminate Sop; reflexivity).
        rewrite (normalise_number_not_field r r' Tn Fn Nr) in Fr'.
        discriminate Fr'. }
      split; apply Hno; auto.
  - apply andb_true_iff in W. destruct W as [Wx V].
    destruct (normalise_wellTyped x Wx) as [x' [Nx [Tx _]]].
    rewrite Nx in N.
    destruct (applyOperator_typed x data Wx F) as [vx [Ex Tvx]].
    rewrite Ex.
    apply (normaliseUnary_value x' op e' data vx); auto.
    + rewrite (IHx x' Wx F S Nx). exact Ex.
    + now rewrite Tvx.
Qed.

(** [18 < age] becomes [age > 18]: both hold of [{age: 42}]. *)
Lemma normalise_keeps_the_value_witness :
  applyOperator
    (BinaryExpression (FieldNamePrimitive "age" TNumber)
       (NumberPrimitive 18%float) GT) ageData
  = applyOperator
      (BinaryExpression (NumberPrimitive 18%float)
         (FieldNamePrimitive "age" TNumber) LT) ageData.
Proof.
  exact (normalise_keeps_the_value
           (BinaryExpression (NumberPrimitive 18%float)
              (FieldNamePrimitive "age" TNumber) LT)
           _ ageData eq_refl eq_refl eq_refl eq_refl).
Defined.

(** X14: Subtraction and division with a field on the right are normalised to
    the opposite operation: [c - x] becomes [x - c] and [c / x] becomes
    [x / c], which evaluate, for a field of value [v], to [v - c] and
    [v / c] where the expression itself gives [c - v] and [c / v]. *)
Theorem normalise_exchanges_operands_of_sub_and_div
  (f : string) (c v : float) (data : string -> option Prim) (op : Op) :
  data f = Some (PNumber v) -> op = SUB \/ op = DIV ->
  let e := BinaryExpression (NumberPrimitive c) (FieldNamePrimitive f TNumber) op in
  let e' := BinaryExpression (FieldNamePrimitive f TNumber) (NumberPrimitive c) op in
  wellTyped e = true
  /\ normalise e = Some e'
  /\ applyOperator e data = evalFn op [PNumber c; PNumber v]
  /\ applyOperator e' data = evalFn op [PNumber v; PNumber c].
Proof.
  intros D [-> | ->]; simpl; rewrite D; repeat split.
Qed.

(** [5 - num] on [{num: 2}]: 3 before, -3 after. *)
Lemma normalise_exchanges_operands_of_sub_and_div_witness :
  exists e e',
    fromAst fiveMinusNum (fun _ => Some TNumber) = Some e
    /\ normalise e = Some e'
    /\ applyOperator e numData = Some (PNumber 3%float)
    /\ applyOperator e' numData = Some (PNumber (-3)%float).
Proof.
  destruct (normalise_exchanges_operands_of_sub_and_div
              "num" 5%float 2%float numData SUB eq_refl (or_introl eq_refl))
    as [_ [N [E E']]].
  eexists. eexists. split; [reflexivity|]. split; [exact N|].
  split; [exact E | exact E'].
Defined.

(** *** A second [normalise] *)

Lemma everywhere_here P e : everywhere P e -> P e.
Proof. destruct e; simpl; tauto. Qed.

Lemma normaliseBinary_again l r op e' :
  normaliseBinary l r op = Some e' ->
  e' = l \/ e' = r
  \/ (exists v, e' = NumberPrimitive v) \/ (exists v, e' = BooleanPrimitive v)
  \/ (exists l2 r2 op2,
        e' = BinaryExpression l2 r2 op2
        /\ (l2 = l /\ r2 = r \/ l2 = r /\ r2 = l)
        /\ (isField l2 && isField r2 = false ->
            normaliseBinary l2 r2 op2 = Some e')).
Proof.
  intros N.
  destruct l as [l1 l2 o|x o|g u|n|b], r as [r1 r2 o'|y o'|f t|m|c], op;
    simpl in N; try discriminate N; injection N as <-;
    try (destruct b); try (destruct c); auto;
    try (right; right; left; eexists; reflexivity);
    try (right; right; right; left; eexists; reflexivity);
    try (right; right; right; right; do 3 eexists;
         split; [reflexivity|]; split; [auto|]; simpl; intros; try discriminate;
         reflexivity).
Qed.

Lemma normaliseUnary_again x op e' :
  normaliseUnary x op = Some e' ->
  (exists y, x = UnaryExpression y NOT /\ e' = y)
  \/ (exists v, e' = NumberPrimitive v) \/ (exists v, e' = BooleanPrimitive v)
  \/ (e' = UnaryExpression x op /\ normaliseUnary x op = Some e').
Proof.
  intros N. pose proof N as N0.
  destruct x as [x1 x2 o|y o|g u|m|c], op; simpl in N;
    try (destruct o; simpl in N); try discriminate N; injection N as <-;
    try (left; eexists; split; reflexivity);
    try (right; left; eexists; reflexivity);
    try (right; right; left; eexists; reflexivity);
    try (right; right; right; split; [reflexivity | exact N0]).
Qed.

Lemma normalise_settled_everywhere e :
  forall e', normalise e = Some e' -> everywhere fixedByNormalise e'.
Proof.
  induction e as [l IHl r IHr op|x IHx op|f t|n|b]; simpl; intros e' N;
    try (injection N as <-; simpl; split; [intros _; reflexivity | exact I]).
  - destruct (normalise l) as [l'|]; [|discriminate].
    destruct (normalise r) as [r'|]; [|discriminate].
    specialize (IHl l' eq_refl). specialize (IHr r' eq_refl).
    destruct (normaliseBinary_again _ _ _ _ N)
      as [-> | [-> | [[v ->] | [[v ->] | [l2 [r2 [op2 [-> [Hlr Hagain]]]]]]]]];
      auto; try (simpl; split; [intros _; reflexivity | exact I]).
    assert (everywhere fixedByNormalise l2 /\ everywhere fixedByNormalise r2) as [Hl2 Hr2]
      by (destruct Hlr as [[-> ->] | [-> ->]]; auto).
    simpl. split; [|auto].
    intros FP. simpl in FP.
    apply andb_true_iff in FP. destruct FP as [FP Hpair].
    apply andb_true_iff in FP. destruct FP as [FPl FPr].
    simpl. rewrite (everywhere_here _ _ Hl2 FPl), (everywhere_here _ _ Hr2 FPr).
    apply Hagain. destruct l2, r2; simpl in *; congruence.
  - destruct (normalise x) as [x'|]; [|discriminate].
    specialize (IHx x' eq_refl).
    destruct (normaliseUnary_again _ _ _ N)
      as [[y [-> ->]] | [[v ->] | [[v ->] | [-> Hagain]]]];
      try (simpl; split; [intros _; reflexivity | exact I]).
    + simpl in IHx. tauto.
    + simpl. split; [|auto]. intros FP. simpl in FP. simpl.
      rewrite (everywhere_here _ _ IHx FP). exact Hagain.
Qed.

(** X16: A second [normalise] changes nothing, field pairs apart: where no
    operator of the normalised expression stands between two fields,
    normalising it again returns it as it is.  (Between two fields
    [swapChildren] exchanges the operands at every call.) *)
Theorem normalise_twice (e e' : RefinementExpression) :
  normalise e = Some e' -> fieldPairFree e' = true ->
  normalise e' = Some e'.
Proof.
  intros N FP.
  exact (everywhere_here _ _ (normalise_settled_everywhere e e' N) FP).
Qed.

Lemma normalise_twice_witness :
  exists e',
    (e <- fromAst ageNode ageTypeData ;; normalise e) = Some e'
    /\ normalise e' = Some e'.
Proof.
  eexists. split; [reflexivity|].
  refine (normalise_twice
            (BinaryExpression
               (BinaryExpression (FieldNamePrimitive "age" TNumber)
                  (NumberPrimitive 18%float) GTE)
               (BinaryExpression (FieldNamePrimitive "age" TNumber)
                  (NumberPrimitive 65%float) LT) AND) _ eq_refl eq_refl).
Defined.

(** X17: Between two fields the operands change places at every [normalise], the
    comparison turning with them: after two calls the expression is what it
    was. *)
Theorem normalise_field_pair_alternates
  (f g : string) (t u : EvalType) (op : Op) :
  normalise (BinaryExpression (FieldNamePrimitive f t) (FieldNamePrimitive g u) op)
  = Some (BinaryExpression (FieldNamePrimitive g u) (FieldNamePrimitive f t)
            (swappedOp op))
  /\ (e <- normalise
             (BinaryExpression (FieldNamePrimitive f t) (FieldNamePrimitive g u) op) ;;
      normalise e)
     = Some (BinaryExpression (FieldNamePrimitive f t) (FieldNamePrimitive g u) op).
Proof.
  destruct op; split; reflexivity.
Qed.

(** *** Segments *)

Lemma isGreaterThan_isLessThan (a b : Segment) (strict : bool) :
  isGreaterThan b a strict = isLessThan a b strict.
Proof.
  unfold isGreaterThan, isLessThan.
  rewrite (float_eqb_sym (val (from b)) (val (to a))).
  destruct (PrimFloat.eqb (val (to a)) (val (from b))); [|reflexivity].
  destruct strict; [apply orb_comm | apply andb_comm].
Qed.

Lemma isLessThan_strict (a b : Segment) :
  isLessThan a b false = true -> isLessThan a b true = true.
Proof.
  unfold isLessThan.
  destruct (PrimFloat.eqb (val (to a)) (val (from b))); [|auto].
  destruct (Kind_eqb (kind (to a)) open); simpl; auto. discriminate.
Qed.

(** X18: The relations between two segments.  [b.isGreaterThan(a)] is
    [a.isLessThan(b)]; [mergeableWith] and [overlapsWith] do not depend on
    the order of the two segments; and two segments that overlap can be
    merged. *)
Theorem segment_relations (a b : Segment) :
  (forall strict, isGreaterThan b a strict = isLessThan a b strict)
  /\ mergeableWith a b = mergeableWith b a
  /\ overlapsWith a b = overlapsWith b a
  /\ implb (overlapsWith a b) (mergeableWith a b) = true.
Proof.
  split; [intros; apply isGreaterThan_isLessThan|].
  unfold mergeableWith, overlapsWith.
  rewrite !(isGreaterThan_isLessThan b a), !(isGreaterThan_isLessThan a b).
  split; [apply andb_comm|]. split; [apply andb_comm|].
  pose proof (isLessThan_strict a b) as H1.
  pose proof (isLessThan_strict b a) as H2.
  destruct (isLessThan a b false), (isLessThan b a false),
    (isLessThan a b true), (isLessThan b a true); simpl; auto;
    try (now discriminate H1); try (now discriminate H2).
Qed.

(** *** The range of a comparison with a number *)

(** X19: [makeInitialGivenOp] on a finite number (neither an infinity nor NaN):
    no constructor throws, and the range is the one segment, or for [!=]
    the two segments, that the comparison describes. *)
Theorem makeInitialGivenOp_finite (v : float) :
  is_finite v = true ->
  makeInitialGivenOp LT v = Some [seg neg_infinity open v open]
  /\ makeInitialGivenOp LTE v = Some [seg neg_infinity open v closed]
  /\ makeInitialGivenOp GT v = Some [seg v open infinity open]
  /\ makeInitialGivenOp GTE v = Some [seg v closed infinity open]
  /\ makeInitialGivenOp EQ v = Some [seg v closed v closed]
  /\ makeInitialGivenOp NEQ v
     = Some [seg neg_infinity open v open; seg v open infinity open].
Proof.
  intros H.
  destruct (finite_comparisons v H)
    as [E1 [L1 [L2 [L3 [E2 [E3 [L4 [L5 [E4 E5]]]]]]]]].
  assert (PrimFloat.ltb infinity neg_infinity = false) as L6 by reflexivity.
  assert (PrimFloat.eqb neg_infinity infinity = false) as E6 by reflexivity.
  unfold makeInitialGivenOp, openOpen, openClosed, closedOpen, closedClosed,
    complementOf, infiniteRange, openOpen, difference, newRange, seg.
  repeat split;
    repeat (cbn -[PrimFloat.ltb PrimFloat.eqb neg_infinity infinity];
            unfold newSegment, isValid, unionWithSeg, copyOf, newRange,
              overlapsWith, isLessThan, isGreaterThan, segmentOverlap;
            cbn -[PrimFloat.ltb PrimFloat.eqb neg_infinity infinity];
            rewrite ?E1, ?L1, ?L2, ?L3, ?E2, ?E3, ?L4, ?L5, ?E4, ?E5, ?L6, ?E6);
    reflexivity.
Qed.

Lemma makeInitialGivenOp_finite_witness :
  makeInitialGivenOp NEQ 18%float
  = Some [seg neg_infinity open 18%float open; seg 18%float open infinity open].
Proof.
  exact (proj2 (proj2 (proj2 (proj2 (proj2
           (makeInitialGivenOp_finite 18%float eq_refl)))))).
Defined.

(** *** The shape of a normalised expression *)

Lemma normaliseBinary_normalForm l r op e :
  normalForm l = true -> normalForm r = true ->
  normaliseBinary l r op = Some e -> normalForm e = true.
Proof.
  intros Hl Hr. unfold normaliseBinary, simplifyPrimitiveBinary.
  destruct l as [l1 l2 lo|lx lo|lv lt|lv|[|]], r as [r1 r2 ro|rx ro|rv rt|rv|[|]];
    destruct op; simpl in *; intros [= <-]; simpl;
    rewrite ?Hl, ?Hr; reflexivity.
Qed.

Lemma normaliseUnary_normalForm x op e :
  normalForm x = true ->
  normaliseUnary x op = Some e -> normalForm e = true.
Proof.
  intros Hx. unfold normaliseUnary, simplifyPrimitiveUnary.
  destruct x as [x1 x2 xo|xx xo|xv xt|xv|xv]; destruct op; simpl in *;
    try (intros [= <-]; simpl; rewrite ?Hx; reflexivity).
  destruct xo; simpl in *; intros [= <-]; simpl;
    try (rewrite Hx; reflexivity).
  apply andb_true_iff in Hx. tauto.
Qed.

(** X15: What [normalise] returns is in normal form: every operator over
    constants has been folded, every [and] and [or] with a boolean constant
    has been reduced, no [not] stands over a [not], no [neg] over a number,
    and where one operand of a binary operator is a field and the other is
    not, the field is the left one. *)
Theorem normalise_gives_normal_form (e e' : RefinementExpression) :
  normalise e = Some e' -> normalForm e' = true.
Proof.
  revert e'.
  induction e as [l IHl r IHr op|x IHx op|v t|v|v]; intros e'; simpl;
    try (intros [= <-]; reflexivity).
  - destruct (normalise l) as [l'|]; [|discriminate].
    destruct (normalise r) as [r'|]; [|discriminate].
    apply normaliseBinary_normalForm; auto.
  - destruct (normalise x) as [x'|]; [|discriminate].
    apply normaliseUnary_normalForm; auto.
Qed.

Lemma normalise_gives_normal_form_witness :
  exists e',
    (e <- fromAst ageNode ageTypeData ;; normalise e) = Some e'
    /\ normalForm e' = true.
Proof.
  eexists. split; [reflexivity|].
  refine (normalise_gives_normal_form
            (BinaryExpression
               (BinaryExpression (FieldNamePrimitive "age" TNumber)
                  (NumberPrimitive 18%float) GTE)
               (BinaryExpression (FieldNamePrimitive "age" TNumber)
                  (NumberPrimitive 65%float) LT) AND) _ eq_refl).
Defined.

End RefinementLaws.

(** ** Recipes: duplicates, the order of the nodes, constraints *)
Module RecipeLaws.

Import Recipe.

Lemma existsb_eqb_In (i : string) (seen : list string) :
  existsb (String.eqb i) seen = true <-> In i seen.
Proof.
  rewrite existsb_exists. split.
  - intros [x [Hin E]]. apply String.eqb_eq in E. now subst.
  - intros H. exists i. split; [assumption | apply String.eqb_refl].
Qed.

Lemma findDuplicateFrom_none {A : Type} (id : A -> option string) items :
  forall seen,
    findDuplicateFrom id items seen = None
    <-> NoDup (presentIds id items)
        /\ (forall i, In i (presentIds id items) -> ~ In i seen).
Proof.
  induction items as [|item rest IH]; intros seen; simpl.
  - split; [intros _; split; [constructor | intros i []] | reflexivity].
  - destruct (id item) as [i|]; simpl; [|apply IH].
    destruct (existsb (String.eqb i) seen) eqn:E.
    + apply existsb_eqb_In in E. split; [discriminate|].
      intros [_ H]. exfalso. apply (H i); auto.
    + assert (~ In i seen) as Hn
        by (intros Hin; apply existsb_eqb_In in Hin; congruence).
      rewrite IH. split.
      * intros [Hnd Hd]. split.
        -- constructor; [|assumption]. intros Hin. apply (Hd i Hin). now left.
        -- intros j [<- | Hj]; [assumption|].
           intros Hs. apply (Hd j Hj). now right.
      * intros [Hnd Hd]. inversion Hnd as [|? ? Hni Hnd']; subst. split; auto.
        intros j Hj [<- | Hs]; [contradiction|]. apply (Hd j); auto.
Qed.

Lemma findDuplicateFrom_some {A : Type} (id : A -> option string) items :
  forall seen item i,
    findDuplicateFrom id items seen = Some (item, i) ->
    exists before after,
      items = before ++ item :: after /\ id item = Some i
      /\ In i (seen ++ presentIds id before)
      /\ findDuplicateFrom id before seen = None.
Proof.
  induction items as [|x rest IH]; intros seen item i; simpl; [discriminate|].
  destruct (id x) as [j|] eqn:Ex.
  - destruct (existsb (String.eqb j) seen) eqn:E.
    + intros [= <- <-]. exists [], rest. simpl. rewrite app_nil_r.
      apply existsb_eqb_In in E. auto.
    + intros H. destruct (IH _ _ _ H) as [before [after [-> [Hid [Hin Hnone]]]]].
      exists (x :: before), after. simpl. rewrite Ex, E. simpl.
      repeat split; auto.
      apply in_app_or in Hin. destruct Hin as [[<- | Hin] | Hin].
      * apply in_or_app. right. now left.
      * apply in_or_app. now left.
      * apply in_or_app. right. now right.
  - intros H. destruct (IH _ _ _ H) as [before [after [-> [Hid [Hin Hnone]]]]].
    exists (x :: before), after. simpl. rewrite Ex. auto.
Qed.

(** X20: [_findDuplicate] returns nothing exactly when the ids of the items are
    distinct; and the item it returns is the first whose id an earlier
    item has: the ids before it are distinct, and its own is among them. *)
Theorem findDuplicate_finds_the_first_repeat
  {A : Type} (id : A -> option string) (items : list A) :
  (findDuplicateFrom id items [] = None <-> NoDup (presentIds id items))
  /\ (forall item i,
        findDuplicateFrom id items [] = Some (item, i) ->
        exists before after,
          items = before ++ item :: after /\ id item = Some i
          /\ In i (presentIds id before) /\ NoDup (presentIds id before)).
Proof.
  split.
  - rewrite findDuplicateFrom_none. split; [tauto|]. intros H. split; auto.
  - intros item i H.
    destruct (findDuplicateFrom_some id items [] item i H)
      as [before [after [E [Hid [Hin Hnone]]]]].
    exists before, after. repeat split; auto.
    apply findDuplicateFrom_none in Hnone. tauto.
Qed.

(** X21: A recipe that [_isValid] accepts has no two handles with the same id
    and no two slots with the same id. *)
Theorem valid_recipe_has_distinct_ids
  (C : NodeClasses) (nodes : Nodes C) (r : Recipe) (options : Options) :
  fst (_isValid C nodes r options) = true ->
  NoDup (presentIds (handle_id C nodes) (_handles r))
  /\ NoDup (presentIds (slot_id C nodes) (_slots r)).
Proof.
  unfold _isValid, findDuplicateHandle, findDuplicateSlot.
  destruct (findDuplicateFrom (handle_id C nodes) (_handles r) []) as [[h i]|] eqn:Eh;
    simpl; [discriminate|].
  destruct (findDuplicateFrom (slot_id C nodes) (_slots r) []) as [[s j]|] eqn:Es;
    simpl; [discriminate|].
  intros _. split.
  - apply findDuplicateFrom_none in Eh. tauto.
  - apply findDuplicateFrom_none in Es. tauto.
Qed.

Lemma valid_recipe_has_distinct_ids_witness :
  NoDup (presentIds (handle_id idsOnly distinctIds) (_handles duplicateHandles))
  /\ NoDup (presentIds (slot_id idsOnly distinctIds) (_slots duplicateHandles)).
Proof.
  exact (valid_recipe_has_distinct_ids idsOnly distinctIds duplicateHandles None
           eq_refl).
Defined.

(** *** What a successful [normalize] leaves *)

Lemma insertBy_Permutation {A : Type} (cmp : A -> A -> Z) x l :
  Permutation (x :: l) (insertBy cmp x l).
Proof.
  induction l as [|y ys IH]; simpl; [reflexivity|].
  destruct (cmp x y <=? 0); [reflexivity|].
  rewrite perm_swap. now constructor.
Qed.

Lemma sortBy_Permutation {A : Type} (cmp : A -> A -> Z) l :
  Permutation l (sortBy cmp l).
Proof.
  induction l as [|x xs IH]; simpl; [reflexivity|].
  rewrite <- insertBy_Permutation. now constructor.
Qed.

Lemma insertBy_Sorted {A : Type} (cmp : A -> A -> Z) x l :
  (forall a b, cmp a b > 0 -> cmp b a <= 0) ->
  Sorted (fun a b => cmp a b <= 0) l ->
  Sorted (fun a b => cmp a b <= 0) (insertBy cmp x l).
Proof.
  intros T. induction l as [|y ys IH]; simpl; intros H.
  - constructor; constructor.
  - destruct (cmp x y <=? 0) eqn:E.
    + constructor; [assumption|]. constructor. now apply Z.leb_le.
    + apply Z.leb_gt in E. inversion H as [|? ? Hs Hh]; subst.
      constructor; [now apply IH|].
      destruct ys as [|z zs]; simpl.
      * constructor. apply T. lia.
      * destruct (cmp x z <=? 0).
        -- constructor. apply T. lia.
        -- constructor. now inversion Hh.
Qed.

Lemma sortBy_Sorted {A : Type} (cmp : A -> A -> Z) l :
  (forall a b, cmp a b > 0 -> cmp b a <= 0) ->
  Sorted (fun a b => cmp a b <= 0) (sortBy cmp l).
Proof.
  intros T. induction l as [|x xs IH]; simpl; [constructor|].
  now apply insertBy_Sorted.
Qed.

Lemma compareStrings_total (a b : string) :
  compareStrings a b > 0 -> compareStrings b a <= 0.
Proof.
  unfold compareStrings. rewrite (String.compare_antisym b a).
  destruct (String.compare a b); simpl; lia.
Qed.

Lemma memNat_In (x : nat) (l : list nat) : memNat x l = true <-> In x l.
Proof.
  unfold memNat. rewrite existsb_exists. split.
  - intros [y [Hin E]]. apply Nat.eqb_eq in E. now subst.
  - intros H. exists x. split; [assumption | apply Nat.eqb_refl].
Qed.

Lemma memNat_false (x : nat) (l : list nat) : memNat x l = false <-> ~ In x l.
Proof.
  rewrite <- memNat_In. destruct (memNat x l); split; congruence.
Qed.

Lemma pushUnseen_NoDup (l : list nat) (x : nat) :
  NoDup l -> NoDup (pushUnseen l x).
Proof.
  intros H. unfold pushUnseen. destruct (memNat x l) eqn:E; [assumption|].
  apply memNat_false in E.
  apply (Permutation_NoDup (l := x :: l)).
  - rewrite Permutation_app_comm. reflexivity.
  - now constructor.
Qed.

Lemma fold_pushUnseen_NoDup (xs l : list nat) :
  NoDup l -> NoDup (fold_left pushUnseen xs l).
Proof.
  revert l. induction xs as [|x xs IH]; simpl; intros l H; [assumption|].
  apply IH. now apply pushUnseen_NoDup.
Qed.

Lemma collectFromConnections_NoDup (C : NodeClasses) (nodes : Nodes C) conns :
  forall ps hs,
    NoDup ps -> NoDup hs ->
    NoDup (fst (collectFromConnections C nodes conns ps hs))
    /\ NoDup (snd (collectFromConnections C nodes conns ps hs)).
Proof.
  induction conns as [|c rest IH]; simpl; intros ps hs Hp Hh; [auto|].
  apply IH.
  - exact (pushUnseen_NoDup ps _ Hp).
  - destruct (connection_handle C nodes c) as [h|]; [|assumption].
    exact (pushUnseen_NoDup hs h Hh).
Qed.

Lemma collectFromSlotConnections_NoDup (C : NodeClasses) (nodes : Nodes C) scs :
  forall slots,
    NoDup slots -> NoDup (collectFromSlotConnections C nodes scs slots).
Proof.
  induction scs as [|sc rest IH]; simpl; intros slots H; [assumption|].
  apply IH. apply fold_pushUnseen_NoDup.
  destruct (slotConnection_targetSlot C nodes sc); [|assumption].
  now apply pushUnseen_NoDup.
Qed.

(** The list [normalize] builds from the nodes it met with the connections
    ([seen]) and those it did not. *)
Lemma orphaned_In (cmp : nat -> nat -> Z) (seen all : list nat) (x : nat) :
  In x all ->
  In x (seen ++ sortBy cmp (filter (fun x => negb (memNat x seen)) all)).
Proof.
  intros Hin. apply in_or_app.
  destruct (memNat x seen) eqn:E; [left; now apply memNat_In|].
  right. apply (Permutation_in _ (sortBy_Permutation cmp _)).
  apply filter_In. split; [assumption|]. now rewrite E.
Qed.

Lemma orphaned_NoDup (cmp : nat -> nat -> Z) (seen all : list nat) :
  NoDup seen -> NoDup all ->
  NoDup (seen ++ sortBy cmp (filter (fun x => negb (memNat x seen)) all)).
Proof.
  intros Hs Ha. apply NoDup_app; auto.
  - apply (Permutation_NoDup (sortBy_Permutation cmp _)). now apply NoDup_filter.
  - intros x Hx Hx'.
    apply (Permutation_in _ (Permutation_sym (sortBy_Permutation cmp _))) in Hx'.
    apply filter_In in Hx'. destruct Hx' as [_ Hx'].
    apply memNat_In in Hx. now rewrite Hx in Hx'.
Qed.

(** X22: A [normalize] that succeeds loses no node.  Every particle, handle and
    slot of the recipe is in the list [normalize] leaves, and a list that
    named no node twice names none twice afterwards; the connection
    constraints are the same, in a new order. *)
Theorem normalize_keeps_every_node
  (C : NodeClasses) (nodes nodes' : Nodes C) (r r' : Recipe)
  (options options' : Options) :
  normalize C nodes r options = (true, r', nodes', options') ->
  (forall p, In p (_particles r) -> In p (_particles r'))
  /\ (forall h, In h (_handles r) -> In h (_handles r'))
  /\ (forall s, In s (_slots r) -> In s (_slots r'))
  /\ (NoDup (_particles r) -> NoDup (_particles r'))
  /\ (NoDup (_handles r) -> NoDup (_handles r'))
  /\ (NoDup (_slots r) -> NoDup (_slots r'))
  /\ Permutation (_connectionConstraints r) (_connectionConstraints r').
Proof.
  unfold normalize. destruct (frozen r); [discriminate|].
  destruct (negb (fst (_isValid C nodes r None))); [discriminate|].
  intros [= <- _ _]. simpl.
  match goal with
  | |- context [collectFromConnections C ?n ?o [] []] =>
      destruct (collectFromConnections_NoDup C n o [] [] (NoDup_nil _) (NoDup_nil _))
        as [Hps Hhs]
  end.
  match goal with
  | |- context [collectFromSlotConnections C ?n ?o []] =>
      pose proof (collectFromSlotConnections_NoDup C n o [] (NoDup_nil _)) as Hss
  end.
  repeat split; intros;
    try (now apply orphaned_In); try (now apply orphaned_NoDup).
  apply sortBy_Permutation.
Qed.

(** The recipe with two handles and no connection: both handles are
    kept. *)
Lemma normalize_keeps_every_node_witness : In 1%nat [0%nat; 1%nat].
Proof.
  exact (proj1 (proj2 (normalize_keeps_every_node idsOnly distinctIds distinctIds
                         duplicateHandles _ None None eq_refl))
           1%nat (or_intror (or_introl eq_refl))).
Defined.

(** X23: A [normalize] that succeeds keeps the verbs and the patterns of
    the recipe, each list holding what it held in a new order, and where
    the strings of a list are ASCII that order is the ascending one.  (The
    comparison of [sort()] is by UTF-16 code units, which [compareStrings]
    is on ASCII strings only.)  The name, the obligations and the search
    are as they were, and [options] is not written to. *)
Theorem normalize_sorts_verbs_and_patterns
  (C : NodeClasses) (nodes nodes' : Nodes C) (r r' : Recipe)
  (options options' : Options) :
  normalize C nodes r options = (true, r', nodes', options') ->
  Permutation (_verbs r) (_verbs r')
  /\ (Forall (fun s => asciiOnly s = true) (_verbs r) ->
      Sorted (fun a b => compareStrings a b <= 0) (_verbs r'))
  /\ Permutation (_patterns r) (_patterns r')
  /\ (Forall (fun s => asciiOnly s = true) (_patterns r) ->
      Sorted (fun a b => compareStrings a b <= 0) (_patterns r'))
  /\ _name r' = _name r /\ _localName r' = _localName r
  /\ annotation r' = annotation r
  /\ _obligations r' = _obligations r /\ _search r' = _search r
  /\ options' = options.
Proof.
  unfold normalize. destruct (frozen r); [discriminate|].
  destruct (negb (fst (_isValid C nodes r None))); [discriminate|].
  intros [= <- _ <-]. simpl.
  repeat split; try apply sortBy_Permutation;
    intros _; apply sortBy_Sorted; exact compareStrings_total.
Qed.

(** The verbs 'b', 'a' come out as 'a', 'b'. *)
Lemma normalize_sorts_verbs_and_patterns_witness :
  Permutation ["b"; "a"] ["a"; "b"]
  /\ Sorted (fun a b => compareStrings a b <= 0) ["a"; "b"].
Proof.
  destruct (normalize_sorts_verbs_and_patterns idsOnly distinctIds distinctIds
              duplicateHandles _ None None eq_refl) as [P [S _]].
  split; [exact P|]. apply S. repeat constructor.
Defined.

(** *** Constraints and obligations *)

Lemma indexOf_some (x : nat) (l : list nat) (idx : nat) :
  indexOf x l = Some idx ->
  exists before after,
    l = before ++ x :: after /\ ~ In x before /\ List.length before = idx
    /\ spliceOne idx l = before ++ after.
Proof.
  revert idx. induction l as [|y ys IH]; simpl; intros idx; [discriminate|].
  destruct (Nat.eqb y x) eqn:E.
  - apply Nat.eqb_eq in E. subst y. intros [= <-].
    exists [], ys. repeat split; auto.
  - apply Nat.eqb_neq in E. destruct (indexOf x ys) as [k|]; [|discriminate].
    simpl. intros [= <-].
    destruct (IH k eq_refl) as [before [after [-> [Hn [Hlen Hsp]]]]].
    exists (y :: before), after. simpl. repeat split; auto.
    + intros [H | H]; [congruence | contradiction].
    + unfold spliceOne in *. simpl. f_equal. exact Hsp.
Qed.

Lemma indexOf_none (x : nat) (l : list nat) :
  indexOf x l = None <-> ~ In x l.
Proof.
  induction l as [|y ys IH]; simpl; [tauto|].
  destruct (Nat.eqb y x) eqn:E.
  - apply Nat.eqb_eq in E. split; [discriminate | tauto].
  - apply Nat.eqb_neq in E. destruct (indexOf x ys) as [k|]; simpl.
    + split; [discriminate|]. intros H.
      assert (~ In x ys) as Hn by tauto. apply IH in Hn. discriminate Hn.
    + split; [|reflexivity]. intros _ [H | H]; [congruence|].
      exact (proj1 IH eq_refl H).
Qed.

Lemma indexOf_fresh (x : nat) (l : list nat) :
  ~ In x l ->
  indexOf x (l ++ [x]) = Some (List.length l)
  /\ spliceOne (List.length l) (l ++ [x]) = l.
Proof.
  intros Hn. induction l as [|y ys IH]; simpl.
  - rewrite Nat.eqb_refl. auto.
  - destruct (Nat.eqb y x) eqn:E.
    + apply Nat.eqb_eq in E. exfalso. apply Hn. now left.
    + destruct IH as [-> Hsp]; [intros H; apply Hn; now right|].
      split; [reflexivity|]. unfold spliceOne in *. simpl. f_equal. exact Hsp.
Qed.

Lemma setConnectionConstraints_same (r : Recipe) (l : list ConnectionConstraint) :
  setConnectionConstraints (setConnectionConstraints r l) (_connectionConstraints r)
  = r.
Proof. now destruct r. Qed.

Lemma setObligations_same (r : Recipe) (l : list ConnectionConstraint) :
  setObligations (setObligations r l) (_obligations r) = r.
Proof. now destruct r. Qed.

(** X24: What [new...] added, [remove...] takes away again: the recipe is what it
    was before the two calls, for a connection constraint (on a recipe that
    has not been normalised) and for an obligation. *)
Theorem new_then_remove (r : Recipe) (c : ConnectionConstraint) :
  listsFrozen r = false ->
  ~ In c (_connectionConstraints r) -> ~ In c (_obligations r) ->
  (exists r1, newConnectionConstraint r c = Some r1
              /\ removeConstraint r1 c = Some r)
  /\ (exists r1, newObligation r c = Some r1 /\ removeObligation r1 c = Some r).
Proof.
  intros Hf Hc Ho. split.
  - unfold newConnectionConstraint. rewrite Hf. eexists. split; [reflexivity|].
    unfold removeConstraint. simpl. unfold ConnectionConstraint in *.
    destruct (indexOf_fresh c _ Hc) as [-> ->]. rewrite Hf.
    now rewrite setConnectionConstraints_same.
  - unfold newObligation. eexists. split; [reflexivity|].
    unfold removeObligation. simpl. unfold ConnectionConstraint in *.
    destruct (indexOf_fresh c _ Ho) as [-> ->].
    now rewrite setObligations_same.
Qed.

Lemma new_then_remove_witness :
  (exists r1, newConnectionConstraint duplicateHandles 7%nat = Some r1
              /\ removeConstraint r1 7%nat = Some duplicateHandles)
  /\ (exists r1, newObligation duplicateHandles 7%nat = Some r1
                 /\ removeObligation r1 7%nat = Some duplicateHandles).
Proof.
  apply (new_then_remove duplicateHandles 7%nat eq_refl); intros [].
Defined.

(** X25: [removeConstraint] and [removeObligation] take out the first occurrence
    of their argument and nothing else; they throw when it is not in the
    list. *)
Theorem remove_takes_the_first_occurrence (r : Recipe) (c : ConnectionConstraint) :
  (forall r', removeConstraint r c = Some r' ->
     exists before after,
       _connectionConstraints r = before ++ c :: after /\ ~ In c before
       /\ r' = setConnectionConstraints r (before ++ after))
  /\ (forall r', removeObligation r c = Some r' ->
        exists before after,
          _obligations r = before ++ c :: after /\ ~ In c before
          /\ r' = setObligations r (before ++ after))
  /\ (removeConstraint r c = None
      <-> ~ In c (_connectionConstraints r) \/ listsFrozen r = true)
  /\ (removeObligation r c = None <-> ~ In c (_obligations r)).
Proof.
  unfold removeConstraint, removeObligation, ConnectionConstraint in *.
  repeat split.
  - intros r'. destruct (indexOf c (_connectionConstraints r)) as [idx|] eqn:E;
      [|discriminate].
    destruct (listsFrozen r); [discriminate|]. intros [= <-].
    destruct (indexOf_some _ _ _ E) as [before [after [H1 [H2 [_ H3]]]]].
    exists before, after. rewrite H3. auto.
  - intros r'. destruct (indexOf c (_obligations r)) as [idx|] eqn:E;
      [|discriminate].
    intros [= <-].
    destruct (indexOf_some _ _ _ E) as [before [after [H1 [H2 [_ H3]]]]].
    exists before, after. rewrite H3. auto.
  - destruct (indexOf c (_connectionConstraints r)) as [idx|] eqn:E.
    + destruct (listsFrozen r); [auto | discriminate].
    + intros _. left. now apply indexOf_none.
  - intros [H | H].
    + apply indexOf_none in H. now rewrite H.
    + rewrite H. now destruct (indexOf c (_connectionConstraints r)).
  - destruct (indexOf c (_obligations r)) as [idx|] eqn:E; [discriminate|].
    intros _. now apply indexOf_none.
  - intros H. apply indexOf_none in H. now rewrite H.
Qed.

(** X26: After a [normalize] that succeeded the connection constraints of the
    recipe cannot be changed: [newConnectionConstraint], [removeConstraint]
    and [clearConnectionConstraints] throw.  The obligations can:
    [newObligation] appends to them as before. *)
Theorem normalized_recipe_keeps_its_constraints
  (C : NodeClasses) (nodes nodes' : Nodes C) (r r' : Recipe)
  (options options' : Options) (c : ConnectionConstraint) :
  normalize C nodes r options = (true, r', nodes', options') ->
  newConnectionConstraint r' c = None
  /\ removeConstraint r' c = None
  /\ clearConnectionConstraints r' = None
  /\ newObligation r' c = Some (setObligations r' (_obligations r ++ [c])).
Proof.
  unfold normalize. destruct (frozen r); [discriminate|].
  destruct (negb (fst (_isValid C nodes r None))); [discriminate|].
  intros [= <- _ _].
  unfold newConnectionConstraint, removeConstraint, clearConnectionConstraints,
    newObligation. simpl.
  repeat split. now destruct (indexOf c _).
Qed.

Lemma normalized_recipe_keeps_its_constraints_witness :
  exists r',
    normalize idsOnly distinctIds duplicateHandles None
    = (true, r', distinctIds, None)
    /\ newConnectionConstraint r' 7%nat = None
    /\ clearConnectionConstraints r' = None.
Proof.
  eexists. split; [reflexivity|].
  destruct (normalized_recipe_keeps_its_constraints idsOnly distinctIds distinctIds
              duplicateHandles _ None None 7%nat eq_refl) as [H1 [_ [H3 _]]].
  split; [exact H1 | exact H3].
Defined.

(** *** Local names *)

Lemma append_inj (p a b : string) : (p ++ a = p ++ b)%string -> a = b.
Proof. induction p as [|c p IH]; simpl; [auto|]. intros [= H]. auto. Qed.

Lemma numbered_inj (prefix : string) (i j : nat) :
  numbered prefix i = numbered prefix j -> i = j.
Proof.
  unfold numbered. intros H. apply append_inj in H.
  assert (Some (Nat.to_uint i) = Some (Nat.to_uint j)) as E
    by (rewrite <- !NilEmpty.usu; now rewrite H).
  injection E as E.
  rewrite <- (Unsigned.of_to i), <- (Unsigned.of_to j). now rewrite E.
Qed.

Lemma numbered_NoDup (prefix : string) (n : nat) : forall i,
  NoDup (map (numbered prefix) (seq i n)).
Proof.
  induction n as [|n IH]; intros i; simpl; constructor; [|apply IH].
  intros Hin. apply in_map_iff in Hin. destruct Hin as [j [E Hj]].
  apply numbered_inj in E. apply in_seq in Hj. lia.
Qed.

Lemma freshName_none fuel prefix names : forall i,
  freshName fuel prefix names i = None ->
  incl (map (numbered prefix) (seq i fuel)) names.
Proof.
  induction fuel as [|fuel IH]; intros i; simpl; [intros _ x []|].
  destruct (existsb (String.eqb (numbered prefix i)) names) eqn:E; [|discriminate].
  intros H x [<- | Hx]; [now apply existsb_eqb_In | now apply (IH (S i))].
Qed.

Lemma freshName_some fuel prefix names : forall i name i',
  freshName fuel prefix names i = Some (name, i') ->
  exists j, (i <= j)%nat /\ i' = S j /\ name = numbered prefix j /\ ~ In name names.
Proof.
  induction fuel as [|fuel IH]; intros i name i'; simpl; [discriminate|].
  destruct (existsb (String.eqb (numbered prefix i)) names) eqn:E.
  - intros H. destruct (IH _ _ _ H) as [j [Hj H']]. exists j. split; [lia | exact H'].
  - intros [= <- <-]. exists i. repeat split; auto.
    intros Hin. apply existsb_eqb_In in Hin. congruence.
Qed.

(** The loop ends: of the first [length names + 1] candidates one is not
    among the names. *)
Lemma freshName_total prefix names i :
  exists name i', freshName (S (List.length names)) prefix names i = Some (name, i').
Proof.
  destruct (freshName (S (List.length names)) prefix names i) as [[name i']|] eqn:E;
    [eauto|].
  apply freshName_none in E.
  apply NoDup_incl_length in E; [|apply numbered_NoDup].
  rewrite length_map, length_seq in E. lia.
Qed.

Lemma nameNodes_spec prefix names localName nodes : forall i,
  exists m,
    nameNodes prefix names localName nodes i = Some m
    /\ map fst m = nodes
    /\ (forall n s l, In (n, s) m -> localName n = Some l -> s = l)
    /\ (forall n s, In (n, s) m -> localName n = None ->
          exists j, (i <= j)%nat /\ s = numbered prefix j /\ ~ In s names)
    /\ NoDup (map snd (filter (fun e => negb (isSome (localName (fst e)))) m)).
Proof.
  induction nodes as [|node rest IH]; intros i; cbn [nameNodes].
  - exists []. split; [reflexivity|]. split; [reflexivity|].
    split; [intros n s l []|]. split; [intros n s []|]. constructor.
  - destruct (localName node) as [name|] eqn:En.
    + destruct (IH i) as [m [-> [Hf [Hk [Hg Hn]]]]].
      exists ((node, name) :: m). simpl. rewrite En. simpl.
      repeat split; auto.
      * now rewrite Hf.
      * intros n s l [[= <- <-] | Hin] Hl; [congruence | eauto].
      * intros n s [[= <- <-] | Hin] Hl; [congruence | eauto].
    + destruct (freshName_total prefix names i) as [name [i' E]]. rewrite E.
      destruct (freshName_some _ _ _ _ _ _ E) as [j [Hj [-> [-> Hfresh]]]].
      destruct (IH (S j)) as [m [-> [Hf [Hk [Hg Hn]]]]].
      exists ((node, numbered prefix j) :: m). simpl. rewrite En. simpl.
      repeat split; auto.
      * now rewrite Hf.
      * intros n s l [[= <- <-] | Hin] Hl; [congruence | eauto].
      * intros n s [[= <- <-] | Hin] Hl; [eauto|].
        destruct (Hg n s Hin Hl) as [k [Hk' H']]. exists k. split; [lia | exact H'].
      * constructor; [|assumption].
        intros Hin. apply in_map_iff in Hin. destruct Hin as [[n s] [Es Hin]].
        simpl in Es. subst s. apply filter_In in Hin. destruct Hin as [Hin Hnone].
        simpl in Hnone. destruct (localName n) eqn:Eln; [discriminate|].
        destruct (Hg n _ Hin Eln) as [k [Hk' [Ek _]]].
        apply numbered_inj in Ek. lia.
Qed.

Section LocalNameFacts.

Variables pn hn sn : nat -> option string.

Lemma tagged_fst (tag : nat -> Node) l : map fst (tagged tag l) = map tag (map fst l).
Proof. unfold tagged. rewrite !map_map. reflexivity. Qed.

Lemma tagged_In (tag : nat -> Node) l n s :
  In (n, s) (tagged tag l) -> exists p, n = tag p /\ In (p, s) l.
Proof.
  unfold tagged. intros H. apply in_map_iff in H.
  destruct H as [[p s'] [[= <- <-] Hin]]. eauto.
Qed.

Lemma tagged_generated (tag : nat -> Node) (ln : nat -> option string)
  (l : list (nat * string)) :
  (forall p, node_localName pn hn sn (tag p) = ln p) ->
  generatedNames pn hn sn (tagged tag l)
  = map snd (filter (fun e => negb (isSome (ln (fst e)))) l).
Proof.
  intros H. unfold generatedNames, tagged.
  induction l as [|[p s] l IH]; simpl; [reflexivity|].
  rewrite H. destruct (ln p); simpl; now rewrite IH.
Qed.

Lemma generatedNames_app m1 m2 :
  generatedNames pn hn sn (m1 ++ m2)
  = generatedNames pn hn sn m1 ++ generatedNames pn hn sn m2.
Proof. unfold generatedNames. now rewrite filter_app, map_app. Qed.

Lemma generated_In (ln : nat -> option string) (l : list (nat * string)) s :
  In s (map snd (filter (fun e => negb (isSome (ln (fst e)))) l)) ->
  exists n, In (n, s) l /\ ln n = None.
Proof.
  intros H. apply in_map_iff in H. destruct H as [[n s'] [E Hin]].
  simpl in E. subst s'. apply filter_In in Hin. destruct Hin as [Hin Hn].
  simpl in Hn. exists n. split; [assumption|]. now destruct (ln n).
Qed.

(** X27: [_makeLocalNameMap] returns, with an entry for every particle, handle
    and slot of the recipe, in this order.  A node that has a local name is
    given that name.  The names made for the other nodes are pairwise
    distinct, and none of them is the local name of a node of the
    recipe. *)
Theorem makeLocalNameMap_gives_fresh_names (r : Recipe) :
  exists m,
    _makeLocalNameMap pn hn sn r = Some m
    /\ map fst m
       = map NParticle (_particles r) ++ map NHandle (_handles r)
         ++ map NSlot (_slots r)
    /\ (forall n s l,
          In (n, s) m -> node_localName pn hn sn n = Some l -> s = l)
    /\ (forall s, In s (generatedNames pn hn sn m) ->
          ~ In s (localNames pn hn sn r))
    /\ NoDup (generatedNames pn hn sn m).
Proof.
  unfold _makeLocalNameMap.
  destruct (nameNodes_spec "particle" (localNames pn hn sn r) pn (_particles r) 0)
    as [ps [-> [Fp [Kp [Gp Np]]]]].
  destruct (nameNodes_spec "handle" (localNames pn hn sn r) hn (_handles r) 0)
    as [hs [-> [Fh [Kh [Gh Nh]]]]].
  destruct (nameNodes_spec "slot" (localNames pn hn sn r) sn (_slots r) 0)
    as [ss [-> [Fs [Ks [Gs Ns]]]]].
  eexists. split; [reflexivity|].
  rewrite !generatedNames_app.
  rewrite (tagged_generated NParticle pn ps (fun _ => eq_refl)),
    (tagged_generated NHandle hn hs (fun _ => eq_refl)),
    (tagged_generated NSlot sn ss (fun _ => eq_refl)).
  split; [|split; [|split]].
  - rewrite !map_app, !tagged_fst. now rewrite Fp, Fh, Fs.
  - intros n s l Hin Hl.
    apply in_app_or in Hin. destruct Hin as [Hin | Hin];
      [|apply in_app_or in Hin; destruct Hin as [Hin | Hin]];
      apply tagged_In in Hin; destruct Hin as [p [-> Hin]]; simpl in Hl; eauto.
  - intros s Hin.
    apply in_app_or in Hin. destruct Hin as [Hin | Hin];
      [|apply in_app_or in Hin; destruct Hin as [Hin | Hin]];
      apply generated_In in Hin; destruct Hin as [n [Hin Hn]].
    + destruct (Gp n s Hin Hn) as [j [_ [_ H]]]. exact H.
    + destruct (Gh n s Hin Hn) as [j [_ [_ H]]]. exact H.
    + destruct (Gs n s Hin Hn) as [j [_ [_ H]]]. exact H.
  - apply NoDup_app; [assumption | apply NoDup_app; [assumption | assumption |] |].
    + intros s H1 H2.
      apply generated_In in H1. destruct H1 as [n1 [I1 L1]].
      apply generated_In in H2. destruct H2 as [n2 [I2 L2]].
      destruct (Gh n1 s I1 L1) as [j [_ [-> _]]].
      destruct (Gs n2 _ I2 L2) as [k [_ [E _]]]. discriminate E.
    + intros s H1 H2.
      apply generated_In in H1. destruct H1 as [n1 [I1 L1]].
      destruct (Gp n1 s I1 L1) as [j [_ [-> _]]].
      apply in_app_or in H2. destruct H2 as [H2 | H2];
        apply generated_In in H2; destruct H2 as [n2 [I2 L2]].
      * destruct (Gh n2 _ I2 L2) as [k [_ [E _]]]. discriminate E.
      * destruct (Gs n2 _ I2 L2) as [k [_ [E _]]]. discriminate E.
Qed.

End LocalNameFacts.

End RecipeLaws.

(** ** Particles: busy and idle *)
Module RuntimeParticleLaws.

Import RuntimeParticle.

Lemma startBusy_inv (p : Particle) : busyInv p -> busyInv (startBusy p).
Proof.
  unfold busyInv, startBusy. intros [H1 H2].
  destruct (Z.eqb_spec (_busy p) 0) as [E|E]; simpl; split; intros H;
    try lia; auto.
  - apply H1. lia.
  - apply H2. lia.
Qed.

Lemma doneBusy_inv (p : Particle) :
  busyInv p ->
  exists p', doneBusy p = Some p' /\ busyInv p' /\ _busy p' = _busy p - 1.
Proof.
  unfold busyInv, doneBusy. intros [H1 H2].
  destruct (Z.eqb_spec (_busy p - 1) 0) as [E|E].
  - destruct (H1 ltac:(lia)) as [_ ->]. eexists. split; [reflexivity|].
    simpl. repeat split; auto; lia.
  - eexists. split; [reflexivity|]. simpl. split; [split; intros H|reflexivity].
    + apply H1. lia.
    + apply H2. lia.
Qed.

Lemma startBusy_busy (p : Particle) : _busy (startBusy p) = _busy p + 1.
Proof. unfold startBusy. now destruct (_busy p =? 0). Qed.

Lemma run_inv (calls : list Call) : forall p,
  busyInv p ->
  exists p', run calls p = Some p' /\ busyInv p'
             /\ _busy p' = _busy p + depth calls.
Proof.
  induction calls as [|[|] rest IH]; intros p Hp; cbn [run depth].
  - exists p. split; [reflexivity|]. split; [exact Hp | ring].
  - destruct (IH _ (startBusy_inv p Hp)) as [p' [-> [Hi Hb]]].
    exists p'. split; [reflexivity|]. split; [exact Hi|].
    rewrite Hb, startBusy_busy. ring.
  - destruct (doneBusy_inv p Hp) as [p1 [-> [H1 B1]]].
    destruct (IH _ H1) as [p' [-> [Hi Hb]]].
    exists p'. split; [reflexivity|]. split; [exact Hi|].
    rewrite Hb, B1. ring.
Qed.

(** X28: Whatever calls of [startBusy] and [doneBusy] a new particle gets, in
    whatever order: no call throws ([doneBusy] never finds the resolver
    missing), [_busy] is the number of [startBusy] calls less that of the
    [doneBusy] calls, and the particle is busy exactly when its [idle]
    promise is pending. *)
Theorem busy_iff_idle_pending (calls : list Call) :
  exists p,
    run calls newParticle = Some p
    /\ _busy p = depth calls
    /\ busy p = negb (idleResolved p).
Proof.
  destruct (run_inv calls newParticle) as [p [E [[H1 H2] Hb]]].
  { split; simpl; [lia | reflexivity]. }
  exists p. split; [exact E|]. split; [exact Hb|].
  unfold busy. destruct (Z.ltb_spec 0 (_busy p)) as [H|H].
  - now destruct (H1 H) as [-> _].
  - now rewrite (H2 H).
Qed.

End RuntimeParticleLaws.
